(** * The Kukicha external scanner (INDENT / DEDENT / NEWLINE)

    A shallow embedding of
    [editors/zed/grammars/tree-sitter-kukicha/src/scanner.c]
    together with the properties its specification states about it.

    Conventions of the embedding.
    - [uint16_t] values are integers of [Z] in [0, 65536); every store into a
      16-bit variable goes through [u16], which writes the wrap-around out.
    - The array [indent_stack[MAX_INDENT_DEPTH]] is a list; an access whose
      index lies outside [0, MAX_INDENT_DEPTH) is undefined behaviour in C and
      is reported as [Fault].
    - Loops carry a fuel argument; running out of fuel is the separate result
      [OutOfFuel], which [scan] is proved never to produce.
    - [return true] with [lexer->result_symbol = K] is [Some K]; [return false]
      is [None]. *)

From Stdlib Require Import ZArith Lia List Bool.
From Stdlib Require Import Strings.Byte.
From stdpp Require Import base list.
Import ListNotations.
Local Open Scope Z_scope.

(** ** Results of a computation that may fault or run out of fuel *)

Inductive Res (A : Type) : Type :=
| Ok (a : A)
| Fault
| OutOfFuel.
Arguments Ok {A} a.
Arguments Fault {A}.
Arguments OutOfFuel {A}.

Global Instance Res_bind : MBind Res := fun A B k c =>
  match c with
  | Ok a => k a
  | Fault => Fault
  | OutOfFuel => OutOfFuel
  end.

(** ** Machine integers and characters *)

Definition u16 (z : Z) : Z := z mod 65536.
Definition is_u16 (z : Z) : Prop := 0 <= z < 65536.

Definition MAX_INDENT_DEPTH : Z := 100.

Definition ch_tab : Z := 9.     (* '\t' *)
Definition ch_lf : Z := 10.     (* '\n' *)
Definition ch_cr : Z := 13.     (* '\r' *)
Definition ch_space : Z := 32.  (* ' '  *)
Definition ch_hash : Z := 35.   (* '#'  *)

(** ** Tokens *)

Inductive TokenType : Type := INDENT | DEDENT | NEWLINE.

Global Instance TokenType_eq_dec : EqDecision TokenType.
Proof. solve_decision. Defined.

(** [valid_symbols] is an array of [bool] indexed by the token type. *)
Definition ValidSymbols : Type := TokenType -> bool.

Definition all_valid : ValidSymbols := fun _ => true.
Definition only_dedent : ValidSymbols :=
  fun t => match t with DEDENT => true | _ => false end.
Definition only_indent : ValidSymbols :=
  fun t => match t with INDENT => true | _ => false end.
Definition only_newline : ValidSymbols :=
  fun t => match t with NEWLINE => true | _ => false end.

(** ** The cursor *)

(** Modelled from the spec: the type [TSLexer] is declared in
    [tree_sitter/parser.h], which is not among the sources.  The model follows
    the cursor capability set of the specification (section 6): [lookahead],
    [advance(skip)], [mark_end], [eof] and [get_column].  The cursor holds the
    characters not yet consumed; [lookahead] is 0 at end of input and moving
    forward there does nothing; the column restarts after a line feed.
    [token] collects the characters that were consumed as part of the token
    ([advance]); a [skip] moves the start of the token behind the skipped
    character.  [marked] is the position fixed by the last [mark_end]. *)
Record TSLexer : Type := mkLexer {
  rest : list Z;
  column : nat;
  token : list Z;
  marked : option (list Z * nat * list Z)
}.

(** Modelled from the spec: [lexer->lookahead], the character under the
    cursor, 0 at end of input. *)
Definition lookahead (lx : TSLexer) : Z :=
  match rest lx with
  | [] => 0
  | c :: _ => c
  end.

(** Modelled from the spec: [lexer->eof(lexer)]. *)
Definition is_eof (lx : TSLexer) : bool :=
  match rest lx with
  | [] => true
  | _ :: _ => false
  end.

(** Modelled from the spec: [lexer->get_column(lexer)], the number of
    characters since the last line feed. *)
Definition get_column (lx : TSLexer) : nat := column lx.

Definition next_column (c : Z) (col : nat) : nat :=
  if c =? ch_lf then O else S col.

(** Modelled from the spec: [lexer->advance(lexer, false)]. *)
Definition advance (lx : TSLexer) : TSLexer :=
  match rest lx with
  | [] => lx
  | c :: r => mkLexer r (next_column c (column lx)) (token lx ++ [c]) (marked lx)
  end.

(** Modelled from the spec: [lexer->advance(lexer, true)]. *)
Definition skip (lx : TSLexer) : TSLexer :=
  match rest lx with
  | [] => lx
  | c :: r => mkLexer r (next_column c (column lx)) [] (marked lx)
  end.

(** Modelled from the spec: [lexer->mark_end(lexer)]. *)
Definition mark_end (lx : TSLexer) : TSLexer :=
  mkLexer (rest lx) (column lx) (token lx)
          (Some (rest lx, column lx, token lx)).

(** A cursor placed on [text] at column [col], before any token. *)
Definition lexer_at (text : list Z) (col : nat) : TSLexer :=
  mkLexer text col [] None.

(** ** The scanner state *)

Record Scanner : Type := mkScanner {
  indent_stack : list Z;
  indent_depth : Z;
  pending_dedents : Z
}.

Definition set_depth (s : Scanner) (d : Z) : Scanner :=
  mkScanner (indent_stack s) d (pending_dedents s).

Definition set_pending (s : Scanner) (p : Z) : Scanner :=
  mkScanner (indent_stack s) (indent_depth s) p.

Definition in_bounds (i : Z) : bool := (0 <=? i) && (i <? MAX_INDENT_DEPTH).

(** [scanner->indent_stack[i]] as an rvalue. *)
Definition read_stack (s : Scanner) (i : Z) : Res Z :=
  if in_bounds i then Ok (indent_stack s !!! Z.to_nat i) else Fault.

(** [scanner->indent_stack[i] = v]. *)
Definition write_stack (s : Scanner) (i v : Z) : Res Scanner :=
  if in_bounds i
  then Ok (mkScanner (<[Z.to_nat i := v]> (indent_stack s))
                     (indent_depth s) (pending_dedents s))
  else Fault.

(** The value set of the C struct: 100 entries of 16 bits, two 16-bit
    counters. *)
Definition wf_scanner (s : Scanner) : Prop :=
  length (indent_stack s) = Z.to_nat MAX_INDENT_DEPTH /\
  Forall is_u16 (indent_stack s) /\
  is_u16 (indent_depth s) /\
  is_u16 (pending_dedents s).

(** Lines 32-43: depth 1, every entry 0, nothing pending. *)
Definition tree_sitter_kukicha_external_scanner_create : Scanner :=
  mkScanner (replicate (Z.to_nat MAX_INDENT_DEPTH) 0) 1 0.

Abbreviation create := tree_sitter_kukicha_external_scanner_create.

(** ** The scan decision engine *)

(** Lines 125-132: count the leading blanks of a line, a space as 1 and a
    tab as 4, in a 16-bit counter. *)
Fixpoint count_indent (fuel : nat) (indent : Z) (lx : TSLexer)
  : Res (Z * TSLexer) :=
  match fuel with
  | O => OutOfFuel
  | S f =>
      if negb (is_eof lx) &&
         ((lookahead lx =? ch_space) || (lookahead lx =? ch_tab))
      then
        let indent' :=
          if lookahead lx =? ch_space then u16 (indent + 1) else u16 (indent + 4) in
        count_indent f indent' (skip lx)
      else Ok (indent, lx)
  end.

(** Lines 149-151: run to the end of a comment line. *)
Fixpoint skip_comment (fuel : nat) (lx : TSLexer) : Res TSLexer :=
  match fuel with
  | O => OutOfFuel
  | S f =>
      if negb (is_eof lx) && negb (lookahead lx =? ch_lf)
         && negb (lookahead lx =? ch_cr)
      then skip_comment f (skip lx)
      else Ok lx
  end.

(** Fuel for a loop that consumes at least one character per round. *)
Definition fuel_of (lx : TSLexer) : nat := S (length (rest lx)).

(** Lines 121-159.  The [while (true)] loop goes round only through its three
    [continue] statements (a blank line ended by LF, a blank line ended by CR
    or CR LF, a comment line); [next_line] is that iteration and yields the
    width counted on the line at which the loop goes on to the end-of-input
    test of line 162, with the cursor behind the leading blanks of that
    line. *)
Fixpoint next_line (fuel : nat) (lx : TSLexer) : Res (Z * TSLexer) :=
  match fuel with
  | O => OutOfFuel
  | S f =>
      '(indent, lx) ← count_indent (fuel_of lx) 0 lx;
      if lookahead lx =? ch_lf then
        next_line f (skip lx)
      else if lookahead lx =? ch_cr then
        let lx := skip lx in
        let lx := if lookahead lx =? ch_lf then skip lx else lx in
        next_line f lx
      else if lookahead lx =? ch_hash then
        lx ← skip_comment (fuel_of lx) lx;
        let lx :=
          if (lookahead lx =? ch_lf) || (lookahead lx =? ch_cr) then
            let lx := skip lx in
            if lookahead lx =? ch_lf then skip lx else lx
          else lx in
        next_line f lx
      else Ok (indent, lx)
  end.

(** Lines 186-190: pop every level wider than [indent]. *)
Fixpoint pop_levels (fuel : nat) (s : Scanner) (indent dedent_count : Z)
  : Res (Scanner * Z) :=
  match fuel with
  | O => OutOfFuel
  | S f =>
      if 1 <? indent_depth s then
        top ← read_stack s (indent_depth s - 1);
        if indent <? top then
          pop_levels f (set_depth s (u16 (indent_depth s - 1))) indent
                     (u16 (dedent_count + 1))
        else Ok (s, dedent_count)
      else Ok (s, dedent_count)
  end.

(** What one pass of the line-start block hands back: a [return] of the
    whole function, or the [break] that leads on to the NEWLINE check. *)
Inductive Exit : Type :=
| Return (r : option TokenType)
| Break.

(** Lines 161-200: the rest of the loop body, from the end-of-input test
    on. *)
Definition at_content (s : Scanner) (indent : Z) (lx : TSLexer)
  (valid_symbols : ValidSymbols) : Res (Exit * Scanner * TSLexer) :=
  if is_eof lx then
    if (1 <? indent_depth s) && valid_symbols DEDENT then
      Ok (Return (Some DEDENT), set_depth s (u16 (indent_depth s - 1)), lx)
    else Ok (Return None, s, lx)
  else
    let lx := mark_end lx in
    current_indent ← read_stack s (indent_depth s - 1);
    if (current_indent <? indent) && valid_symbols INDENT then
      s' ← (if indent_depth s <? MAX_INDENT_DEPTH then
               s1 ← write_stack s (indent_depth s) indent;
               Ok (set_depth s1 (u16 (indent_depth s + 1)))
             else Ok s);
      Ok (Return (Some INDENT), s', lx)
    else if (indent <? current_indent) && valid_symbols DEDENT then
      '(s', dedent_count) ← pop_levels (S (Z.to_nat (indent_depth s))) s indent 0;
      if 0 <? dedent_count then
        Ok (Return (Some DEDENT), set_pending s' (u16 (dedent_count - 1)), lx)
      else Ok (Break, s', lx)
    else Ok (Break, s, lx).

(** Lines 119-202. *)
Definition line_start (s : Scanner) (lx : TSLexer)
  (valid_symbols : ValidSymbols) : Res (Exit * Scanner * TSLexer) :=
  '(indent, lx1) ← next_line (fuel_of lx) lx;
  at_content s indent lx1 valid_symbols.

(** Lines 207-209. *)
Fixpoint skip_blanks (fuel : nat) (lx : TSLexer) : Res TSLexer :=
  match fuel with
  | O => OutOfFuel
  | S f =>
      if (lookahead lx =? ch_space) || (lookahead lx =? ch_tab)
      then skip_blanks f (skip lx)
      else Ok lx
  end.

(** Lines 205-236. *)
Definition check_newline (lx : TSLexer) (valid_symbols : ValidSymbols)
  : Res (option TokenType * TSLexer) :=
  if valid_symbols NEWLINE then
    lx ← skip_blanks (fuel_of lx) lx;
    if lookahead lx =? ch_lf then
      let lx := advance lx in
      let lx := if lookahead lx =? ch_cr then advance lx else lx in
      Ok (Some NEWLINE, lx)
    else if lookahead lx =? ch_cr then
      let lx := advance lx in
      let lx := if lookahead lx =? ch_lf then advance lx else lx in
      Ok (Some NEWLINE, lx)
    else if is_eof lx then Ok (Some NEWLINE, lx)
    else Ok (None, lx)
  else Ok (None, lx).

(** Lines 116-202: the cursor and state with which the call arrives at the
    NEWLINE check, or the result with which it returns before. *)
Definition before_newline (s : Scanner) (lx : TSLexer)
  (valid_symbols : ValidSymbols) : Res (Exit * Scanner * TSLexer) :=
  let at_line_start := Nat.eqb (get_column lx) 0 in
  if at_line_start && (valid_symbols INDENT || valid_symbols DEDENT)
  then line_start s lx valid_symbols
  else Ok (Break, s, lx).

(** Lines 102-237. *)
Definition tree_sitter_kukicha_external_scanner_scan
  (s : Scanner) (lx : TSLexer) (valid_symbols : ValidSymbols)
  : Res (option TokenType * Scanner * TSLexer) :=
  if (0 <? pending_dedents s) && valid_symbols DEDENT then
    Ok (Some DEDENT, set_pending s (u16 (pending_dedents s - 1)), lx)
  else
    '(e, s', lx') ← before_newline s lx valid_symbols;
    match e with
    | Return r => Ok (r, s', lx')
    | Break =>
        '(r, lx'') ← check_newline lx' valid_symbols;
        Ok (r, s', lx'')
    end.

Abbreviation scan := tree_sitter_kukicha_external_scanner_scan.

(** ** The state codec *)

(** [(char)v]: the low eight bits of [v]. *)
Definition to_char (v : Z) : byte :=
  match Byte.of_N (Z.to_N (v mod 256)) with
  | Some b => b
  | None => x00
  end.

(** [(unsigned char)b]. *)
Definition of_uchar (b : byte) : Z := Z.of_N (Byte.to_N b).

Global Instance byte_inhabited : Inhabited byte := populate x00.

(** [buffer[pos]] as an rvalue, for a buffer of [length buffer] bytes. *)
Definition read_byte (buffer : list byte) (pos : Z) : Res byte :=
  if (0 <=? pos) && (pos <? Z.of_nat (length buffer))
  then Ok (buffer !!! Z.to_nat pos)
  else Fault.

Section Codec.

(** The macro comes from [tree_sitter/parser.h], which is not among the
    sources; it is the size of the buffer handed to [serialize]. *)
Variable TREE_SITTER_SERIALIZATION_BUFFER_SIZE : Z.

(** [buffer[size++] = b], where [buf] holds the [size] bytes written so
    far. *)
Definition push_byte (buf : list byte) (b : byte) : Res (list byte) :=
  if Z.of_nat (length buf) <? TREE_SITTER_SERIALIZATION_BUFFER_SIZE
  then Ok (buf ++ [b])
  else Fault.

(** Lines 60-63. *)
Fixpoint serialize_loop (fuel : nat) (s : Scanner) (i : Z) (buf : list byte)
  : Res (list byte) :=
  match fuel with
  | O => OutOfFuel
  | S f =>
      if (i <? indent_depth s) &&
         (Z.of_nat (length buf) <? TREE_SITTER_SERIALIZATION_BUFFER_SIZE)
      then
        v ← read_stack s i;
        buf ← push_byte buf (to_char (Z.land v 255));
        buf ← push_byte buf (to_char (Z.land (Z.shiftr v 8) 255));
        serialize_loop f s (u16 (i + 1)) buf
      else Ok buf
  end.

(** Lines 49-66: the bytes written, [size] of them. *)
Definition tree_sitter_kukicha_external_scanner_serialize (s : Scanner)
  : Res (list byte) :=
  buf ← push_byte [] (to_char (pending_dedents s));
  buf ← push_byte buf (to_char (indent_depth s));
  serialize_loop (S (Z.to_nat (indent_depth s))) s 0 buf.

End Codec.

Abbreviation serialize := tree_sitter_kukicha_external_scanner_serialize.

(** Lines 92-95. *)
Fixpoint deserialize_loop (fuel : nat) (s : Scanner) (buffer : list byte)
  (i pos : Z) : Res Scanner :=
  match fuel with
  | O => OutOfFuel
  | S f =>
      if (i <? indent_depth s) && (pos + 1 <? Z.of_nat (length buffer)) then
        lo ← read_byte buffer pos;
        hi ← read_byte buffer (pos + 1);
        s ← write_stack s i
              (u16 (Z.lor (of_uchar lo) (Z.shiftl (of_uchar hi) 8)));
        deserialize_loop f s buffer (u16 (i + 1)) (pos + 2)
      else Ok s
  end.

(** Lines 68-96, applied to the scanner [payload] and a buffer of
    [length buffer] bytes. *)
Definition tree_sitter_kukicha_external_scanner_deserialize
  (payload : Scanner) (buffer : list byte) : Res Scanner :=
  let s := set_depth (set_pending payload 0) 1 in
  s ← write_stack s 0 0;
  if Z.of_nat (length buffer) =? 0 then Ok s
  else
    let pos := 0 in
    b ← read_byte buffer pos;
    let s := set_pending s (u16 (of_uchar b)) in
    let pos := pos + 1 in
    if Z.of_nat (length buffer) <=? pos then Ok s
    else
      b ← read_byte buffer pos;
      let s := set_depth s (u16 (of_uchar b)) in
      let pos := pos + 1 in
      let s :=
        if MAX_INDENT_DEPTH <? indent_depth s
        then set_depth s MAX_INDENT_DEPTH else s in
      deserialize_loop (S (Z.to_nat (indent_depth s))) s buffer 0 pos.

Abbreviation deserialize := tree_sitter_kukicha_external_scanner_deserialize.

(** ** Driving the engine over a document *)

(** Modelled from the spec: the grammar engine that calls the scanner is not
    among the sources.  Following sections 2 and 4.2, it calls [scan] at its
    current position, with an empty token and no marked end, and with the
    kinds it accepts; after a token it goes on at the end of that token (the
    marked end if there is one, else the cursor); after "no match" its
    ordinary tokenizer takes over at the position of the call, here for one
    character. *)
Definition start_token (lx : TSLexer) : TSLexer :=
  lexer_at (rest lx) (column lx).

(** Modelled from the spec: where the engine goes on after a token. *)
Definition token_end (lx : TSLexer) : TSLexer :=
  match marked lx with
  | Some (r, c, _) => lexer_at r c
  | None => lexer_at (rest lx) (column lx)
  end.

(** Modelled from the spec: the ordinary tokenizer takes one character. *)
Definition content_step (lx : TSLexer) : TSLexer :=
  token_end (advance (start_token lx)).

(** One emitted token, with the state the call started from. *)
Definition Emission : Type := (Scanner * TokenType)%type.

(** Modelled from the spec: the run of section 8, "driven" with every kind
    requested until the cursor is at end of input and the depth is 1. *)
Fixpoint drive (fuel : nat) (s : Scanner) (lx : TSLexer) : Res (list Emission) :=
  match fuel with
  | O => OutOfFuel
  | S f =>
      if is_eof lx && (indent_depth s =? 1) then Ok []
      else
        '(r, s', lx') ← scan s (start_token lx) all_valid;
        match r with
        | Some t => tr ← drive f s' (token_end lx'); Ok ((s, t) :: tr)
        | None => drive f s' (content_step lx)
        end
  end.

Definition tokens_of (tr : list Emission) : list TokenType := map snd tr.

Definition is_newline (t : TokenType) : bool :=
  match t with NEWLINE => true | _ => false end.

(** The structural token stream with NEWLINE left out. *)
Definition structural (ts : list TokenType) : list TokenType :=
  filter (fun t => is_newline t = false) ts.

Definition count_token (t : TokenType) (ts : list TokenType) : nat :=
  length (filter (fun u => u = t) ts).

(** An INDENT returned from a state whose depth is already the capacity:
    the token is emitted, nothing is pushed (lines 177-181). *)
Definition capped (e : Emission) : bool :=
  bool_decide (snd e = INDENT) && (MAX_INDENT_DEPTH <=? indent_depth (fst e)).

Definition capped_indents (tr : list Emission) : nat :=
  length (filter (fun e => capped e = true) tr).

(** Calling [scan] [n] times in a row at the cursor the previous call
    left. *)
Fixpoint scan_repeat (n : nat) (s : Scanner) (lx : TSLexer)
  (valid_symbols : ValidSymbols)
  : Res (list (option TokenType) * Scanner * TSLexer) :=
  match n with
  | O => Ok ([], s, lx)
  | S n' =>
      '(r, s', lx') ← scan s lx valid_symbols;
      '(rs, s'', lx'') ← scan_repeat n' s' lx' valid_symbols;
      Ok (r :: rs, s'', lx'')
  end.

(** * Notions used in the statements *)

(** ** The cursor *)

Definition remaining (lx : TSLexer) : nat := length (rest lx).

(** The text still to come is empty with the cursor in column 0, or ends
    with LF. *)
Definition ends_lf (lx : TSLexer) : Prop :=
  match rest lx with
  | [] => column lx = 0%nat
  | _ :: _ => last (rest lx) = Some ch_lf
  end.

(** ** States *)

(** The states reached from [create] by calls of [scan], with any cursor and
    any set of requested kinds. *)
Inductive reachable : Scanner -> Prop :=
| reach_create : reachable create
| reach_scan (s : Scanner) (lx : TSLexer) (v : ValidSymbols)
    (r : option TokenType) (s' : Scanner) (lx' : TSLexer) :
    reachable s -> scan s lx v = Ok (r, s', lx') -> reachable s'.

(** The invariant of those states: the value set of the struct, a depth
    within the array, and at most 98 owed dedents. *)
Definition scan_inv (s : Scanner) : Prop :=
  wf_scanner s /\
  1 <= indent_depth s <= MAX_INDENT_DEPTH /\
  pending_dedents s < MAX_INDENT_DEPTH - 1.

(** The state after the lines of widths 0, 2, 4 and then a line of width 0:
    two levels popped at once, one dedent returned, one still owed. *)
Definition after_double_dedent : Scanner :=
  mkScanner (<[2%nat := 4]> (<[1%nat := 2]> (indent_stack create))) 1 1.

(** A full stack: the widths 0, 1, ..., 99. *)
Definition full_scanner : Scanner :=
  mkScanner (map Z.of_nat (seq 0 100)) MAX_INDENT_DEPTH 0.

(** ** Newline recognition *)

Definition is_blank (c : Z) : Prop := c = ch_space \/ c = ch_tab.

(** The terminators named by the specification: LF, CR, CR LF, and the empty
    one at end of input. *)
Definition stated_terminators : list (list Z) :=
  [[ch_lf]; [ch_cr]; [ch_cr; ch_lf]; []].

(** The terminators the scanner takes: those, and LF CR. *)
Definition taken_terminators : list (list Z) :=
  [[ch_lf]; [ch_lf; ch_cr]; [ch_cr]; [ch_cr; ch_lf]; []].

(** What the NEWLINE check did between the cursor [lx1] it started from and
    the cursor [lx'] it left, with result [r]: it skipped blanks and then
    either took the terminator of [forms] that stands there into the token
    and answered NEWLINE, or took nothing before a character that is
    neither a blank nor LF nor CR and answered "no match".  The terminator
    is taken as the form that stands there: the empty one only at end of
    input, and any form only where the character behind it does not make
    it a longer form of the list (with CR LF in the list, a CR taken alone
    is not followed by LF). *)
Definition newline_outcome (forms : list (list Z)) (lx1 : TSLexer)
  (r : option TokenType) (lx' : TSLexer) : Prop :=
  exists blanks term : list Z,
    rest lx1 = blanks ++ term ++ rest lx' /\
    Forall is_blank blanks /\
    token lx' = (match blanks with [] => token lx1 | _ :: _ => [] end) ++ term /\
    ((r = Some NEWLINE /\ In term forms /\ (term = [] -> rest lx' = []) /\
      (forall (c : Z) (tl : list Z),
         In (term ++ [c]) forms -> rest lx' <> c :: tl)) \/
     (r = None /\ term = [] /\
      exists c tl, rest lx' = c :: tl /\
                   ~ is_blank c /\ c <> ch_lf /\ c <> ch_cr)).

(** ** The byte layout *)

(** Two bytes read back as a little-endian 16-bit value (line 93). *)
Definition le16 (lo hi : byte) : Z :=
  u16 (Z.lor (of_uchar lo) (Z.shiftl (of_uchar hi) 8)).

(** The two bytes of one stack entry (lines 61-62). *)
Definition entry_bytes (v : Z) : list byte :=
  [to_char (Z.land v 255); to_char (Z.land (Z.shiftr v 8) 255)].

Definition encode_entries (l : list Z) : list byte :=
  concat (map entry_bytes l).

(** ** Runs and documents *)

Definition text_of (l : list Z) : TSLexer := lexer_at l 0.

(** A line: [w] spaces, the letter x, a line feed. *)
Definition line (w : nat) : list Z := replicate w ch_space ++ [120; ch_lf].

Definition doc_of (widths : list nat) : list Z := concat (map line widths).

Definition run (fuel : nat) (doc : list Z) : Res (list TokenType) :=
  tr ← drive fuel create (text_of doc); Ok (tokens_of tr).


Definition structural_run (fuel : nat) (doc : list Z) : Res (list TokenType) :=
  ts ← run fuel doc; Ok (structural ts).

(** The change of [indent_depth + pending_dedents] that goes with a
    result. *)
Definition delta (s : Scanner) (r : option TokenType) : Z :=
  match r with
  | Some INDENT => if indent_depth s <? MAX_INDENT_DEPTH then 1 else 0
  | Some DEDENT => -1
  | _ => 0
  end.

(** The measure that goes down with every round of a run. *)
Definition run_measure (s : Scanner) (lx : TSLexer) : nat :=
  (remaining lx * 200 + Z.to_nat (indent_depth s + pending_dedents s))%nat.

(** A document of 101 lines, line [i] indented by [i] spaces: 100 increases
    of the indentation in a row. *)
Definition deep_doc : list Z := doc_of (seq 0 101).

(** The widths 0, 4, 8, 4, 0 written with spaces and LF, with tabs and LF,
    with spaces and CR LF, and with spaces, LF and no terminator after the
    last line. *)
Definition doc_spaces : list Z := doc_of [0; 4; 8; 4; 0]%nat.

Definition doc_tabs : list Z :=
  [120; 10] ++ [9; 120; 10] ++ [9; 9; 120; 10] ++ [9; 120; 10] ++ [120; 10].

Definition doc_crlf : list Z :=
  [120; 13; 10] ++ replicate 4 32 ++ [120; 13; 10]
  ++ replicate 8 32 ++ [120; 13; 10] ++ replicate 4 32 ++ [120; 13; 10]
  ++ [120; 13; 10].

Definition doc_open_end : list Z :=
  [120; 10] ++ replicate 4 32 ++ [120; 10]
  ++ replicate 8 32 ++ [120; 10] ++ replicate 4 32 ++ [120; 10] ++ [120].

(** ** Further notions *)

(** The stack of open blocks is in order: the bottom entry is 0 and every
    entry below the depth is wider than the one under it. *)
Definition sorted_stack (s : Scanner) : Prop :=
  indent_stack s !!! 0%nat = 0 /\
  forall i : nat,
    (0 < i)%nat -> Z.of_nat i < indent_depth s ->
    indent_stack s !!! (i - 1)%nat < indent_stack s !!! i.

(** A sequence of calls of [scan], each with its own cursor and requested
    kinds, the state going from one call to the next; the tokens returned
    are listed with the state their call started from. *)
Fixpoint scan_calls (calls : list (TSLexer * ValidSymbols)) (s : Scanner)
  : Res (list Emission * Scanner) :=
  match calls with
  | [] => Ok ([], s)
  | (lx, v) :: calls' =>
      '(r, s', _) ← scan s lx v;
      '(tr, s'') ← scan_calls calls' s';
      Ok (match r with Some t => (s, t) :: tr | None => tr end, s'')
  end.

(** The width of a run of blanks as line 122-132 count it: a space is 1, a
    tab is 4, in 16 bits. *)
Definition measured_width (blanks : list Z) : Z :=
  u16 (Z.of_nat (length (filter (fun c => c = ch_space) blanks))
       + 4 * Z.of_nat (length (filter (fun c => c = ch_tab) blanks))).

(** Two states that [scan] and [serialize] cannot tell apart: the same
    counters and the same entries below the depth. *)
Definition same_open_blocks (s s' : Scanner) : Prop :=
  pending_dedents s' = pending_dedents s /\
  indent_depth s' = indent_depth s /\
  forall j : nat,
    Z.of_nat j < indent_depth s ->
    indent_stack s' !!! j = indent_stack s !!! j.

(** A line that holds no content: blanks and a terminator (LF or CR LF), or
    blanks and a comment that runs from [#] to such a terminator. *)
Inductive trivia_line : list Z -> Prop :=
| blank_lf (blanks : list Z) :
    Forall is_blank blanks -> trivia_line (blanks ++ [ch_lf])
| blank_crlf (blanks : list Z) :
    Forall is_blank blanks -> trivia_line (blanks ++ [ch_cr; ch_lf])
| comment_lf (blanks body : list Z) :
    Forall is_blank blanks ->
    Forall (fun c => c <> ch_lf /\ c <> ch_cr) body ->
    trivia_line (blanks ++ ch_hash :: body ++ [ch_lf])
| comment_crlf (blanks body : list Z) :
    Forall is_blank blanks ->
    Forall (fun c => c <> ch_lf /\ c <> ch_cr) body ->
    trivia_line (blanks ++ ch_hash :: body ++ [ch_cr; ch_lf]).


(** ** Documents of content lines *)

(** The width of a run of blanks: a space counts 1, a tab 4. *)
Definition width_of (blanks : list Z) : Z :=
  Z.of_nat (length (filter (fun c => c = ch_space) blanks))
  + 4 * Z.of_nat (length (filter (fun c => c = ch_tab) blanks)).

(** What ends a line: LF or CR LF.  Behind either the cursor is in column
    0 again. *)
Definition line_end (term : list Z) : Prop :=
  term = [ch_lf] \/ term = [ch_cr; ch_lf].

(** A content line of width [w] ended by [term]: blanks of that width, then
    the content, which starts with a character that is no blank, no LF, no
    CR and no [#] and holds no LF and no CR, then [term]. *)
Inductive content_line (w : Z) (term : list Z) : list Z -> Prop :=
| content_line_intro (blanks : list Z) (c : Z) (body : list Z) :
    Forall is_blank blanks ->
    width_of blanks = w ->
    ~ is_blank c -> c <> ch_lf -> c <> ch_cr -> c <> ch_hash ->
    Forall (fun d => d <> ch_lf /\ d <> ch_cr) body ->
    content_line w term (blanks ++ c :: body ++ term).

(** The states a run goes through on lines of the widths 0, 4, 8, 4, 0:
    the block of width 4 open, the blocks of widths 4 and 8 open, and the
    two states after the block of width 8 and then that of width 4 are
    closed again. *)
Definition open_4 : Scanner :=
  mkScanner (<[1%nat := 4]> (indent_stack create)) 2 0.

Definition open_4_8 : Scanner :=
  mkScanner (<[2%nat := 8]> (<[1%nat := 4]> (indent_stack create))) 3 0.

Definition closed_8 : Scanner :=
  mkScanner (<[2%nat := 8]> (<[1%nat := 4]> (indent_stack create))) 2 0.

Definition closed_4_8 : Scanner :=
  mkScanner (<[2%nat := 8]> (<[1%nat := 4]> (indent_stack create))) 1 0.
(** * Properties *)

Arguments fuel_of : simpl never.
Arguments u16 : simpl never.

(** ** The result monad *)

Lemma bind_Ok {A B : Type} (c : Res A) (k : A -> Res B) (b : B) :
  c ≫= k = Ok b -> exists a, c = Ok a /\ k a = Ok b.
Proof.
  destruct c as [a| |]; simpl; intros H; try discriminate.
  exists a; split; [reflexivity | exact H].
Qed.

Lemma bind_Ok_l {A B : Type} (a : A) (k : A -> Res B) : Ok a ≫= k = k a.
Proof. reflexivity. Qed.

Tactic Notation "res_simpl" := cbn [mbind Res_bind].
Tactic Notation "res_simpl" "in" hyp(H) := cbn [mbind Res_bind] in H.

Ltac inv_bind H :=
  let a := fresh "a" in
  let Ha := fresh "Ha" in
  apply bind_Ok in H; destruct H as (a & Ha & H).

(** ** 16-bit arithmetic *)

Lemma u16_small (z : Z) : 0 <= z < 65536 -> u16 z = z.
Proof. intros H. unfold u16. apply Z.mod_small. exact H. Qed.

Lemma u16_range (z : Z) : is_u16 (u16 z).
Proof. unfold is_u16, u16. apply Z.mod_pos_bound. lia. Qed.

(** ** Popping levels *)

Lemma pop_levels_spec (fuel : nat) :
  forall (s : Scanner) (indent c : Z) (s' : Scanner) (c' : Z),
    pop_levels fuel s indent c = Ok (s', c') ->
    0 <= c ->
    (1 < indent_depth s <= MAX_INDENT_DEPTH -> c + indent_depth s < 65536) ->
    indent_stack s' = indent_stack s /\
    pending_dedents s' = pending_dedents s /\
    c <= c' /\
    indent_depth s' = indent_depth s - (c' - c) /\
    (c < c' -> 1 <= indent_depth s' /\ indent_depth s <= MAX_INDENT_DEPTH).
Proof.
  induction fuel as [|f IH]; intros s indent c s' c' H Hc Hb; [discriminate|].
  simpl in H.
  destruct (1 <? indent_depth s) eqn:Hd.
  2:{ injection H as <- <-. repeat split; lia. }
  apply Z.ltb_lt in Hd.
  inv_bind H. unfold read_stack in Ha.
  destruct (in_bounds (indent_depth s - 1)) eqn:Hin; [|discriminate].
  injection Ha as <-.
  unfold in_bounds in Hin. apply andb_true_iff in Hin as [_ Hin].
  apply Z.ltb_lt in Hin. unfold MAX_INDENT_DEPTH in *.
  destruct (indent <? _) eqn:Hcmp.
  2:{ injection H as <- <-. repeat split; lia. }
  assert (Hlt : c + indent_depth s < 65536) by (apply Hb; lia).
  rewrite (u16_small (indent_depth s - 1)) in H by lia.
  rewrite (u16_small (c + 1)) in H by lia.
  apply IH in H; simpl in *; [|lia|lia].
  destruct H as (H1 & H2 & H3 & H4 & H5).
  repeat split; try assumption; try lia.
Qed.

Lemma scanner_eq (s s' : Scanner) :
  indent_stack s' = indent_stack s ->
  indent_depth s' = indent_depth s ->
  pending_dedents s' = pending_dedents s ->
  s' = s.
Proof. destruct s, s'; simpl; intros -> -> ->; reflexivity. Qed.

(** ** The line-start block keeps the state unless it returns a token *)

Lemma at_content_keeps (s : Scanner) (indent : Z) (lx : TSLexer)
  (v : ValidSymbols) (e : Exit) (s' : Scanner) (lx' : TSLexer) :
  at_content s indent lx v = Ok (e, s', lx') ->
  e = Return None \/ e = Break ->
  s' = s.
Proof.
  unfold at_content. intros H He.
  destruct (is_eof lx).
  { destruct (_ && _); injection H as <- <- <-;
      [destruct He; discriminate | reflexivity]. }
  inv_bind H.
  destruct (_ && v INDENT).
  { inv_bind H. injection H as <- <- <-. destruct He; discriminate. }
  destruct (_ && v DEDENT); [|injection H as <- <- <-; reflexivity].
  inv_bind H. destruct a0 as [s1 c1].
  destruct (0 <? c1) eqn:Hc.
  { injection H as <- <- <-. destruct He; discriminate. }
  injection H as <- <- <-.
  apply Z.ltb_ge in Hc.
  apply pop_levels_spec in Ha0; [|lia|unfold MAX_INDENT_DEPTH; lia].
  destruct Ha0 as (H1 & H2 & H3 & H4 & _).
  apply scanner_eq; try assumption. lia.
Qed.

Lemma before_newline_keeps (s : Scanner) (lx : TSLexer) (v : ValidSymbols)
  (e : Exit) (s' : Scanner) (lx' : TSLexer) :
  before_newline s lx v = Ok (e, s', lx') ->
  e = Return None \/ e = Break ->
  s' = s.
Proof.
  unfold before_newline, line_start. intros H He.
  destruct (_ && _).
  - inv_bind H. destruct a as [indent lx1].
    eapply at_content_keeps; eassumption.
  - injection H as <- <- <-. reflexivity.
Qed.

(** C1.  Whenever [scan] returns "no match", the scanner state after the
    call is the state before the call, for every state, cursor and set of
    requested kinds. *)
Theorem scan_no_match_keeps_state (s : Scanner) (lx : TSLexer)
  (v : ValidSymbols) (s' : Scanner) (lx' : TSLexer) :
  scan s lx v = Ok (None, s', lx') -> s' = s.
Proof.
  unfold scan. intros H.
  destruct (_ && v DEDENT); [discriminate|].
  inv_bind H. destruct a as [[e s1] lx1].
  destruct e as [r|].
  - injection H as -> <- <-.
    eapply before_newline_keeps; [eassumption | left; reflexivity].
  - inv_bind H. destruct a as [r lx2]. injection H as -> <- <-.
    eapply before_newline_keeps; [eassumption | right; reflexivity].
Qed.

(** Depth 2 over the widths 0 and 4, before a line of width 0, with only
    INDENT requested: the call goes over the blank line and declines. *)
Lemma scan_no_match_keeps_state_witness :
  scan (mkScanner (<[1%nat := 4]> (indent_stack create)) 2 0)
       (text_of [ch_lf; 120]) only_indent
    = Ok (None, mkScanner (<[1%nat := 4]> (indent_stack create)) 2 0,
          mark_end (mkLexer [120] 0 [] None)) /\
  mkScanner (<[1%nat := 4]> (indent_stack create)) 2 0
    = mkScanner (<[1%nat := 4]> (indent_stack create)) 2 0.
Proof.
  split; [vm_compute; reflexivity|].
  apply (scan_no_match_keeps_state
           (mkScanner (<[1%nat := 4]> (indent_stack create)) 2 0)
           (text_of [ch_lf; 120]) only_indent
           (mkScanner (<[1%nat := 4]> (indent_stack create)) 2 0)
           (mark_end (mkLexer [120] 0 [] None))).
  vm_compute. reflexivity.
Defined.

(** C9.  With dedents owed and DEDENT requested, a call decrements
    [pending_dedents] by one and returns DEDENT; whatever the cursor, it is
    handed back as it was and the rest of the state is as before. *)
Theorem scan_owed_dedent (s : Scanner) (lx : TSLexer) (v : ValidSymbols) :
  is_u16 (pending_dedents s) ->
  0 < pending_dedents s ->
  v DEDENT = true ->
  scan s lx v =
    Ok (Some DEDENT,
        mkScanner (indent_stack s) (indent_depth s) (pending_dedents s - 1),
        lx).
Proof.
  intros Hr Hp Hv. unfold scan, is_u16 in *.
  rewrite Hv. replace (0 <? pending_dedents s) with true
    by (symmetry; apply Z.ltb_lt; exact Hp).
  simpl. unfold set_pending. rewrite u16_small by lia. reflexivity.
Qed.

Lemma scan_owed_dedent_witness :
  scan (mkScanner (indent_stack create) 1 2) (text_of [120]) all_valid =
    Ok (Some DEDENT, mkScanner (indent_stack create) 1 1, text_of [120]).
Proof.
  apply (scan_owed_dedent (mkScanner (indent_stack create) 1 2)
           (text_of [120]) all_valid).
  - unfold is_u16; simpl; lia.
  - simpl; lia.
  - reflexivity.
Defined.

(** ** The cursor only moves forward *)

Lemma skip_remaining (lx : TSLexer) :
  (remaining (skip lx) <= remaining lx)%nat.
Proof. destruct lx as [[|c r] col t m]; unfold remaining, skip; simpl; lia. Qed.

Lemma skip_remaining_lt (lx : TSLexer) :
  is_eof lx = false -> (remaining (skip lx) < remaining lx)%nat.
Proof.
  destruct lx as [[|c r] col t m]; unfold remaining, skip, is_eof; simpl;
    [discriminate | lia].
Qed.

Lemma advance_remaining (lx : TSLexer) :
  (remaining (advance lx) <= remaining lx)%nat.
Proof. destruct lx as [[|c r] col t m]; unfold remaining, advance; simpl; lia. Qed.

Lemma lookahead_not_eof (lx : TSLexer) :
  lookahead lx <> 0 -> is_eof lx = false.
Proof.
  unfold lookahead, is_eof. destruct (rest lx); [congruence | reflexivity].
Qed.

Lemma lookahead_is (lx : TSLexer) (c : Z) :
  (lookahead lx =? c) = true -> c <> 0 -> is_eof lx = false.
Proof.
  intros H Hc. apply Z.eqb_eq in H. apply lookahead_not_eof. congruence.
Qed.

(** ** The loops end within their fuel *)

Lemma count_indent_ok (fuel : nat) :
  forall (indent : Z) (lx : TSLexer),
    (remaining lx < fuel)%nat ->
    exists indent' lx',
      count_indent fuel indent lx = Ok (indent', lx') /\
      (remaining lx' <= remaining lx)%nat.
Proof.
  induction fuel as [|f IH]; intros indent lx Hf; [lia|].
  simpl. destruct (negb (is_eof lx) && _) eqn:Hc.
  - apply andb_true_iff in Hc as [He _]. apply negb_true_iff in He.
    pose proof (skip_remaining_lt lx He) as Hlt.
    destruct (IH (if lookahead lx =? ch_space
                  then u16 (indent + 1) else u16 (indent + 4)) (skip lx))
      as (i' & lx' & Heq & Hle); [lia|].
    exists i', lx'. split; [exact Heq | ]. lia.
  - exists indent, lx. split; [reflexivity | lia].
Qed.

Lemma count_indent_u16 (fuel : nat) :
  forall (indent : Z) (lx : TSLexer) (indent' : Z) (lx' : TSLexer),
    count_indent fuel indent lx = Ok (indent', lx') ->
    is_u16 indent -> is_u16 indent'.
Proof.
  induction fuel as [|f IH]; intros indent lx indent' lx' H Hi;
    [discriminate|].
  simpl in H. destruct (negb (is_eof lx) && _).
  - eapply IH; [exact H|]. destruct (lookahead lx =? ch_space); apply u16_range.
  - injection H as <- <-. exact Hi.
Qed.

Lemma skip_comment_ok (fuel : nat) :
  forall lx : TSLexer,
    (remaining lx < fuel)%nat ->
    exists lx', skip_comment fuel lx = Ok lx' /\
                (remaining lx' <= remaining lx)%nat.
Proof.
  induction fuel as [|f IH]; intros lx Hf; [lia|].
  simpl. destruct (negb (is_eof lx) && _ && _) eqn:Hc.
  - apply andb_true_iff in Hc as [Hc _].
    apply andb_true_iff in Hc as [He _]. apply negb_true_iff in He.
    pose proof (skip_remaining_lt lx He) as Hlt.
    destruct (IH (skip lx)) as (lx' & Heq & Hle); [lia|].
    exists lx'. split; [exact Heq | lia].
  - exists lx. split; [reflexivity | lia].
Qed.

Lemma skip_blanks_ok (fuel : nat) :
  forall lx : TSLexer,
    (remaining lx < fuel)%nat ->
    exists lx', skip_blanks fuel lx = Ok lx' /\
                (remaining lx' <= remaining lx)%nat.
Proof.
  induction fuel as [|f IH]; intros lx Hf; [lia|].
  simpl. destruct (_ || _) eqn:Hc.
  - assert (He : is_eof lx = false).
    { apply orb_true_iff in Hc as [Hc|Hc];
        (eapply lookahead_is; [exact Hc | discriminate]). }
    pose proof (skip_remaining_lt lx He) as Hlt.
    destruct (IH (skip lx)) as (lx' & Heq & Hle); [lia|].
    exists lx'. split; [exact Heq | lia].
  - exists lx. split; [reflexivity | lia].
Qed.

Lemma next_line_ok (fuel : nat) :
  forall lx : TSLexer,
    (remaining lx < fuel)%nat ->
    exists indent' lx',
      next_line fuel lx = Ok (indent', lx') /\
      is_u16 indent' /\
      (remaining lx' <= remaining lx)%nat.
Proof.
  induction fuel as [|f IH]; intros lx Hf; [lia|].
  cbn [next_line].
  destruct (count_indent_ok (fuel_of lx) 0 lx) as (i1 & lx1 & Hci & Hle1);
    [unfold fuel_of, remaining; lia|].
  rewrite Hci, bind_Ok_l.
  assert (Hu : is_u16 i1).
  { eapply count_indent_u16; [exact Hci | unfold is_u16; lia]. }
  destruct (lookahead lx1 =? ch_lf) eqn:Hlf.
  { assert (He : is_eof lx1 = false)
      by (eapply lookahead_is; [exact Hlf | discriminate]).
    pose proof (skip_remaining_lt lx1 He).
    destruct (IH (skip lx1)) as (i' & lx' & Heq & Hi' & Hle); [lia|].
    exists i', lx'. repeat split; [exact Heq | apply Hi' | apply Hi' | lia]. }
  destruct (lookahead lx1 =? ch_cr) eqn:Hcr.
  { assert (He : is_eof lx1 = false)
      by (eapply lookahead_is; [exact Hcr | discriminate]).
    pose proof (skip_remaining_lt lx1 He).
    pose proof (skip_remaining (skip lx1)).
    destruct (IH (if lookahead (skip lx1) =? ch_lf
                  then skip (skip lx1) else skip lx1))
      as (i' & lx' & Heq & Hi' & Hle).
    { destruct (lookahead (skip lx1) =? ch_lf); lia. }
    exists i', lx'. repeat split; [exact Heq | apply Hi' | apply Hi' |].
    destruct (lookahead (skip lx1) =? ch_lf); lia. }
  destruct (lookahead lx1 =? ch_hash) eqn:Hh.
  { assert (He : is_eof lx1 = false)
      by (eapply lookahead_is; [exact Hh | discriminate]).
    (* the first round of the comment loop consumes the hash itself *)
    unfold fuel_of. simpl skip_comment. rewrite He, Hlf, Hcr. simpl.
    pose proof (skip_remaining_lt lx1 He) as Hlt.
    destruct (skip_comment_ok (length (rest lx1)) (skip lx1))
      as (lx2 & Hsc & Hle2); [unfold remaining in *; lia|].
    rewrite Hsc. simpl.
    set (lx3 := if (lookahead lx2 =? ch_lf) || (lookahead lx2 =? ch_cr)
                then (if lookahead (skip lx2) =? ch_lf
                      then skip (skip lx2) else skip lx2)
                else lx2).
    assert (Hle3 : (remaining lx3 <= remaining lx2)%nat).
    { unfold lx3. pose proof (skip_remaining lx2).
      pose proof (skip_remaining (skip lx2)).
      destruct (_ || _); [destruct (lookahead (skip lx2) =? ch_lf)|]; lia. }
    destruct (IH lx3) as (i' & lx' & Heq & Hi' & Hle); [lia|].
    exists i', lx'. repeat split; [exact Heq | apply Hi' | apply Hi' | lia]. }
  exists i1, lx1. repeat split; [apply Hu | apply Hu | lia].
Qed.

Lemma pop_levels_ok (fuel : nat) :
  forall (s : Scanner) (indent c : Z),
    (Z.to_nat (indent_depth s) < fuel)%nat ->
    pop_levels fuel s indent c <> OutOfFuel.
Proof.
  induction fuel as [|f IH]; intros s indent c Hf; [lia|].
  simpl. destruct (1 <? indent_depth s) eqn:Hd; [|discriminate].
  apply Z.ltb_lt in Hd.
  unfold read_stack.
  destruct (in_bounds (indent_depth s - 1)); simpl; [|discriminate].
  destruct (indent <? _); [|discriminate].
  apply IH. simpl.
  assert (u16 (indent_depth s - 1) <= indent_depth s - 1).
  { unfold u16. apply Z.mod_le; lia. }
  pose proof (u16_range (indent_depth s - 1)) as Hr. unfold is_u16 in Hr.
  lia.
Qed.

(** [scan] always comes back: it never runs out of the fuel it gives its
    loops. *)
Lemma scan_terminates (s : Scanner) (lx : TSLexer) (v : ValidSymbols) :
  scan s lx v <> OutOfFuel.
Proof.
  unfold scan. destruct (_ && v DEDENT); [discriminate|].
  assert (Hcn : forall lx1, exists r, check_newline lx1 v = Ok r).
  { intros lx1. unfold check_newline. destruct (v NEWLINE); [|eauto].
    destruct (skip_blanks_ok (fuel_of lx1) lx1) as (lx2 & -> & _);
      [unfold fuel_of, remaining; lia|].
    res_simpl. repeat destruct (_ =? _); eauto. destruct (is_eof lx2); eauto. }
  unfold before_newline. destruct (_ && _).
  - unfold line_start.
    destruct (next_line_ok (fuel_of lx) lx) as (i & lx1 & -> & _ & _);
      [unfold fuel_of, remaining; lia|].
    res_simpl. unfold at_content.
    destruct (is_eof lx1).
    { destruct (_ && _); res_simpl; discriminate. }
    unfold read_stack, write_stack.
    destruct (in_bounds (indent_depth s - 1)); res_simpl; [|discriminate].
    destruct (_ && v INDENT).
    { destruct (indent_depth s <? MAX_INDENT_DEPTH); res_simpl;
        [destruct (in_bounds (indent_depth s)); res_simpl|]; discriminate. }
    destruct (_ && v DEDENT).
    2:{ res_simpl. destruct (Hcn (mark_end lx1)) as ([r lx2] & ->).
        discriminate. }
    pose proof (pop_levels_ok (S (Z.to_nat (indent_depth s))) s i 0) as Hp.
    destruct (pop_levels (S (Z.to_nat (indent_depth s))) s i 0)
      as [[s1 c1]| |]; res_simpl; try discriminate.
    + destruct (0 <? c1); res_simpl; [discriminate|].
      destruct (Hcn (mark_end lx1)) as ([r lx2] & ->). discriminate.
    + exfalso. apply Hp; [lia | reflexivity].
  - res_simpl. destruct (Hcn lx) as ([r lx2] & ->). discriminate.
Qed.

(** ** What every state reached from [create] satisfies *)

Lemma create_inv : scan_inv create.
Proof.
  unfold scan_inv, wf_scanner, create; cbn [indent_stack indent_depth
    pending_dedents].
  split; [split; [|split; [|split]]|].
  - apply length_replicate.
  - apply Forall_replicate. unfold is_u16; lia.
  - unfold is_u16; lia.
  - unfold is_u16; lia.
  - unfold MAX_INDENT_DEPTH; lia.
Qed.

Lemma at_content_inv (s : Scanner) (indent : Z) (lx : TSLexer)
  (v : ValidSymbols) (e : Exit) (s' : Scanner) (lx' : TSLexer) :
  scan_inv s -> is_u16 indent ->
  at_content s indent lx v = Ok (e, s', lx') ->
  scan_inv s'.
Proof.
  intros Hinv Hi H.
  destruct e as [[t|]|];
    try (apply at_content_keeps in H as ->; [exact Hinv | tauto]).
  destruct Hinv as ((Hlen & Hall & Hd16 & Hp16) & Hd & Hp).
  unfold at_content, is_u16, MAX_INDENT_DEPTH in *.
  destruct (is_eof lx).
  { destruct (_ && _) eqn:Hc; [|discriminate]. injection H as <- <- <-.
    apply andb_true_iff in Hc as [Hc _]. apply Z.ltb_lt in Hc.
    unfold scan_inv, wf_scanner, is_u16, MAX_INDENT_DEPTH; simpl.
    rewrite u16_small by lia. repeat split; try assumption; lia. }
  inv_bind H.
  destruct (_ && v INDENT).
  { inv_bind H. injection H as <- <- <-.
    destruct (indent_depth s <? 100) eqn:Hlt.
    - apply Z.ltb_lt in Hlt. inv_bind Ha0. injection Ha0 as <-.
      unfold write_stack in Ha1. destruct (in_bounds _); [|discriminate].
      injection Ha1 as <-.
      unfold scan_inv, wf_scanner, is_u16, MAX_INDENT_DEPTH; simpl.
      rewrite u16_small by lia. rewrite length_insert.
      repeat split; try assumption; try lia.
      apply Forall_insert; assumption.
    - injection Ha0 as <-.
      unfold scan_inv, wf_scanner, is_u16, MAX_INDENT_DEPTH.
      repeat split; try assumption; lia. }
  destruct (_ && v DEDENT); [|discriminate].
  inv_bind H. destruct a0 as [s1 c1].
  destruct (0 <? c1) eqn:Hc; [|discriminate].
  apply Z.ltb_lt in Hc. injection H as <- <- <-.
  apply pop_levels_spec in Ha0; [|lia|lia].
  destruct Ha0 as (H1 & H2 & H3 & H4 & H5).
  specialize (H5 Hc).
  unfold scan_inv, wf_scanner, is_u16, MAX_INDENT_DEPTH in *; simpl.
  rewrite u16_small by lia. rewrite H1.
  repeat split; try assumption; lia.
Qed.

Lemma scan_inv_preserved (s : Scanner) (lx : TSLexer) (v : ValidSymbols)
  (r : option TokenType) (s' : Scanner) (lx' : TSLexer) :
  scan_inv s -> scan s lx v = Ok (r, s', lx') -> scan_inv s'.
Proof.
  intros Hinv H. unfold scan in H.
  destruct (_ && v DEDENT) eqn:Hp.
  { injection H as <- <- <-.
    apply andb_true_iff in Hp as [Hp _]. apply Z.ltb_lt in Hp.
    destruct Hinv as ((Hlen & Hall & Hd16 & Hp16) & Hd & Hpp).
    unfold scan_inv, wf_scanner, is_u16, MAX_INDENT_DEPTH in *; simpl.
    rewrite u16_small by lia. repeat split; try assumption; lia. }
  inv_bind H. destruct a as [[e s1] lx1].
  assert (Hs1 : scan_inv s1).
  { unfold before_newline, line_start in Ha.
    destruct (Nat.eqb (get_column lx) 0 && (v INDENT || v DEDENT));
      [|injection Ha as <- <- <-; exact Hinv].
    inv_bind Ha. destruct a as [indent lx0].
    destruct (next_line_ok (fuel_of lx) lx) as (i & lx2 & Heq & Hi & _);
      [unfold fuel_of, remaining; lia|].
    rewrite Heq in Ha0. injection Ha0 as <- <-.
    eapply at_content_inv; eassumption. }
  destruct e.
  - injection H as <- <- <-. exact Hs1.
  - inv_bind H. destruct a as [r1 lx2]. injection H as <- <- <-. exact Hs1.
Qed.

Lemma reachable_inv (s : Scanner) : reachable s -> scan_inv s.
Proof.
  induction 1 as [|s lx v r s' lx' _ IH H].
  - apply create_inv.
  - eapply scan_inv_preserved; eassumption.
Qed.

(** On a state that satisfies the invariant, [scan] never leaves the
    array: every call returns a result. *)
Lemma scan_returns (s : Scanner) (lx : TSLexer) (v : ValidSymbols) :
  1 <= indent_depth s <= MAX_INDENT_DEPTH ->
  exists r s' lx', scan s lx v = Ok (r, s', lx').
Proof.
  intros Hd. pose proof (scan_terminates s lx v) as Ht.
  destruct (scan s lx v) as [[[r s'] lx']| |] eqn:H; [eauto | | congruence].
  exfalso. clear Ht. unfold scan in H.
  destruct (_ && v DEDENT); [discriminate|].
  assert (Hcn : forall lx1 (k : _ -> Res (option TokenType * Scanner * TSLexer)),
             check_newline lx1 v ≫= k = Fault ->
             exists a, k a = Fault).
  { intros lx1 k. unfold check_newline. destruct (v NEWLINE); [|eauto].
    destruct (skip_blanks_ok (fuel_of lx1) lx1) as (lx2 & -> & _);
      [unfold fuel_of, remaining; lia|].
    res_simpl. repeat destruct (_ =? _); eauto. destruct (is_eof lx2); eauto. }
  unfold before_newline in H.
  destruct (Nat.eqb (get_column lx) 0 && (v INDENT || v DEDENT)).
  2:{ res_simpl in H. apply Hcn in H as ([r lx2] & H). discriminate. }
  unfold line_start in H.
  destruct (next_line_ok (fuel_of lx) lx) as (i & lx1 & Heq & _ & _);
    [unfold fuel_of, remaining; lia|].
  rewrite Heq in H. res_simpl in H. unfold at_content in H.
  destruct (is_eof lx1).
  { destruct (_ && _); discriminate. }
  unfold read_stack, write_stack, MAX_INDENT_DEPTH in *.
  replace (in_bounds (indent_depth s - 1)) with true in H
    by (symmetry; unfold in_bounds, MAX_INDENT_DEPTH;
        apply andb_true_iff; split; [apply Z.leb_le | apply Z.ltb_lt]; lia).
  res_simpl in H.
  destruct (_ && v INDENT).
  { destruct (indent_depth s <? 100) eqn:Hlt; [|discriminate].
    apply Z.ltb_lt in Hlt.
    replace (in_bounds (indent_depth s)) with true in H
      by (symmetry; unfold in_bounds, MAX_INDENT_DEPTH;
          apply andb_true_iff; split; [apply Z.leb_le | apply Z.ltb_lt]; lia).
    discriminate. }
  destruct (_ && v DEDENT).
  2:{ res_simpl in H. apply Hcn in H as ([r lx2] & H). discriminate. }
  assert (Hpop : forall fuel s0 c, 1 <= indent_depth s0 <= 100 ->
            pop_levels fuel s0 i c <> Fault).
  { clear. induction fuel as [|f IH]; intros s0 c Hd; [discriminate|].
    simpl. destruct (1 <? indent_depth s0) eqn:H1; [|discriminate].
    apply Z.ltb_lt in H1. unfold read_stack.
    replace (in_bounds (indent_depth s0 - 1)) with true
      by (symmetry; unfold in_bounds, MAX_INDENT_DEPTH;
          apply andb_true_iff; split; [apply Z.leb_le | apply Z.ltb_lt]; lia).
    res_simpl. destruct (i <? _); [|discriminate].
    apply IH. simpl. rewrite u16_small by lia. lia. }
  specialize (Hpop (S (Z.to_nat (indent_depth s))) s 0 Hd).
  destruct (pop_levels (S (Z.to_nat (indent_depth s))) s i 0)
    as [[s1 c1]| |]; [|congruence|discriminate].
  res_simpl in H. destruct (0 <? c1); [discriminate|].
  res_simpl in H. apply Hcn in H as ([r lx2] & H). discriminate.
Qed.

(** C3, as amended.  In every state reached from [create] by [scan] calls,
    [pending_dedents] is below the capacity (it is at most 98) and the depth
    lies between 1 and the capacity.  It need not be below the current
    depth. *)
Theorem reachable_pending_bound (s : Scanner) :
  reachable s ->
  0 <= pending_dedents s < MAX_INDENT_DEPTH - 1 /\
  1 <= indent_depth s <= MAX_INDENT_DEPTH.
Proof.
  intros H. apply reachable_inv in H.
  destruct H as ((_ & _ & _ & Hp) & Hd & Hpp). unfold is_u16 in Hp.
  repeat split; lia.
Qed.

Lemma reachable_pending_bound_witness :
  0 <= pending_dedents create < MAX_INDENT_DEPTH - 1 /\
  1 <= indent_depth create <= MAX_INDENT_DEPTH.
Proof. apply (reachable_pending_bound create). apply reach_create. Defined.

Lemma after_double_dedent_reachable : reachable after_double_dedent.
Proof.
  eapply (reach_scan _ (text_of [120]) all_valid).
  - eapply (reach_scan _ (text_of [32; 32; 32; 32; 120]) all_valid).
    + eapply (reach_scan _ (text_of [32; 32; 120]) all_valid).
      * apply reach_create.
      * vm_compute. reflexivity.
    + vm_compute. reflexivity.
  - vm_compute. reflexivity.
Qed.

(** C3, as stated, fails: after a decrease by two levels from depth 3 the
    depth is 1 and one dedent is pending. *)
Lemma pending_not_below_depth :
  ~ (forall s : Scanner,
       reachable s -> pending_dedents s < indent_depth s).
Proof.
  intros H. specialize (H after_double_dedent after_double_dedent_reachable).
  vm_compute in H. discriminate.
Qed.

(** ** At end of input *)

Lemma eof_lookahead (lx : TSLexer) : is_eof lx = true -> lookahead lx = 0.
Proof.
  destruct lx as [[|c r] col t m]; unfold is_eof, lookahead; simpl;
    [reflexivity | discriminate].
Qed.

Lemma next_line_eof (lx : TSLexer) :
  is_eof lx = true -> next_line (fuel_of lx) lx = Ok (0, lx).
Proof.
  intros He. unfold fuel_of. cbn [next_line]. unfold fuel_of.
  cbn [count_indent]. rewrite He. cbn [negb andb]. res_simpl.
  rewrite (eof_lookahead lx He). reflexivity.
Qed.

Lemma scan_eof_dedent (s : Scanner) (lx : TSLexer) :
  is_eof lx = true -> get_column lx = 0%nat ->
  pending_dedents s = 0 -> 1 < indent_depth s < 65536 ->
  scan s lx only_dedent =
    Ok (Some DEDENT, set_depth s (indent_depth s - 1), lx).
Proof.
  intros He Hc Hp Hd. unfold scan. rewrite Hp. cbn [Z.ltb Z.compare andb].
  unfold before_newline. rewrite Hc. cbn [Nat.eqb only_dedent orb andb].
  unfold line_start. rewrite (next_line_eof lx He). res_simpl.
  unfold at_content. rewrite He.
  replace (1 <? indent_depth s) with true by (symmetry; apply Z.ltb_lt; lia).
  cbn [only_dedent andb]. res_simpl. rewrite u16_small by lia. reflexivity.
Qed.

Lemma scan_eof_done (s : Scanner) (lx : TSLexer) :
  is_eof lx = true -> get_column lx = 0%nat ->
  pending_dedents s = 0 -> indent_depth s = 1 ->
  scan s lx only_dedent = Ok (None, s, lx).
Proof.
  intros He Hc Hp Hd. unfold scan. rewrite Hp. cbn [Z.ltb Z.compare andb].
  unfold before_newline. rewrite Hc. cbn [Nat.eqb only_dedent orb andb].
  unfold line_start. rewrite (next_line_eof lx He). res_simpl.
  unfold at_content. rewrite He, Hd. reflexivity.
Qed.

Lemma eof_dedents_aux (n : nat) :
  forall (s : Scanner) (lx : TSLexer),
    is_eof lx = true -> get_column lx = 0%nat ->
    pending_dedents s = 0 ->
    indent_depth s = Z.of_nat n + 1 -> indent_depth s < 65536 ->
    scan_repeat (n + 1) s lx only_dedent =
      Ok (replicate n (Some DEDENT) ++ [None], set_depth s 1, lx).
Proof.
  induction n as [|n IH]; intros s lx He Hc Hp Hd Hlt.
  - cbn [Nat.add scan_repeat replicate app].
    rewrite scan_eof_done by (try assumption; lia). res_simpl.
    replace (set_depth s 1) with s; [reflexivity|].
    symmetry. apply scanner_eq; simpl; [reflexivity | lia | reflexivity].
  - cbn [Nat.add scan_repeat replicate app].
    rewrite scan_eof_dedent by (try assumption; lia). res_simpl.
    rewrite (IH (set_depth s (indent_depth s - 1)) lx);
      try assumption; simpl; try lia.
    res_simpl. reflexivity.
Qed.

(** C5.  From a state of depth [d > 1] with nothing pending, at end of input
    in column 0, [d - 1] calls with only DEDENT requested each return DEDENT
    and the call after them returns "no match" (the depth is then 1). *)
Theorem eof_dedents (s : Scanner) (lx : TSLexer) :
  is_u16 (indent_depth s) ->
  1 < indent_depth s ->
  pending_dedents s = 0 ->
  is_eof lx = true ->
  get_column lx = 0%nat ->
  scan_repeat (Z.to_nat (indent_depth s - 1) + 1) s lx only_dedent =
    Ok (replicate (Z.to_nat (indent_depth s - 1)) (Some DEDENT) ++ [None],
        set_depth s 1, lx).
Proof.
  intros Hu Hd Hp He Hc. unfold is_u16 in Hu.
  apply eof_dedents_aux; try assumption; lia.
Qed.

Lemma eof_dedents_witness :
  scan_repeat 4 (mkScanner (indent_stack create) 4 0) (text_of []) only_dedent =
    Ok ([Some DEDENT; Some DEDENT; Some DEDENT; None],
        mkScanner (indent_stack create) 1 0, text_of []).
Proof.
  apply (eof_dedents (mkScanner (indent_stack create) 4 0) (text_of [])).
  - unfold is_u16; simpl; lia.
  - simpl; lia.
  - reflexivity.
  - reflexivity.
  - reflexivity.
Defined.

(** ** An increase at full depth *)

(** C10.  At depth 100, a call at line start that does not serve an owed
    dedent, finds a content line whose width [w] exceeds the top of the
    stack and has INDENT requested returns INDENT and leaves the whole
    state, stack and depth included, as it was. *)
Theorem indent_at_capacity (s : Scanner) (lx : TSLexer) (v : ValidSymbols)
  (w : Z) (lx1 : TSLexer) :
  indent_depth s = MAX_INDENT_DEPTH ->
  (0 <? pending_dedents s) && v DEDENT = false ->
  get_column lx = 0%nat ->
  v INDENT = true ->
  next_line (fuel_of lx) lx = Ok (w, lx1) ->
  is_eof lx1 = false ->
  indent_stack s !!! Z.to_nat (MAX_INDENT_DEPTH - 1) < w ->
  scan s lx v = Ok (Some INDENT, s, mark_end lx1).
Proof.
  intros Hd Hp Hc Hv Hn He Hw. unfold scan. rewrite Hp.
  unfold before_newline. rewrite Hc, Hv. cbn [Nat.eqb orb andb].
  unfold line_start. rewrite Hn. res_simpl.
  unfold at_content. rewrite He. unfold read_stack. rewrite Hd.
  change (in_bounds (MAX_INDENT_DEPTH - 1)) with true. res_simpl.
  replace (_ <? w) with true by (symmetry; apply Z.ltb_lt; exact Hw).
  rewrite Hv. cbn [andb]. rewrite Z.ltb_irrefl. res_simpl. reflexivity.
Qed.

Lemma indent_at_capacity_witness :
  scan full_scanner (text_of (line 100)) all_valid =
    Ok (Some INDENT, full_scanner,
        mark_end (mkLexer [120; ch_lf] 100 [] None)).
Proof.
  apply (indent_at_capacity full_scanner (text_of (line 100)) all_valid 100).
  - reflexivity.
  - reflexivity.
  - reflexivity.
  - reflexivity.
  - vm_compute. reflexivity.
  - reflexivity.
  - vm_compute. reflexivity.
Defined.

(** ** Newline recognition *)

Lemma lookahead_cons (lx : TSLexer) (c : Z) :
  (lookahead lx =? c) = true -> c <> 0 ->
  (rest lx = c :: rest (skip lx) /\ token (skip lx) = []) /\
  (rest lx = c :: rest (advance lx) /\ token (advance lx) = token lx ++ [c]).
Proof.
  intros H Hc. apply Z.eqb_eq in H. revert H.
  destruct lx as [[|c0 r] col t m]; unfold lookahead, skip, advance; simpl;
    intros H; [congruence|].
  subst c0. repeat split.
Qed.

Lemma skip_blanks_spec (fuel : nat) :
  forall lx lx2 : TSLexer,
    skip_blanks fuel lx = Ok lx2 ->
    exists blanks,
      rest lx = blanks ++ rest lx2 /\ Forall is_blank blanks /\
      token lx2 = (match blanks with [] => token lx | _ :: _ => [] end) /\
      (lookahead lx2 =? ch_space) = false /\
      (lookahead lx2 =? ch_tab) = false.
Proof.
  induction fuel as [|f IH]; intros lx lx2 H; [discriminate|].
  simpl in H.
  destruct (lookahead lx =? ch_space) eqn:Hs.
  { apply IH in H as (bl & Hr & Hb & Htk & Hl).
    apply lookahead_cons in Hs as [[Hs Ht] _]; [|discriminate].
    exists (ch_space :: bl). rewrite Hs, Hr. split; [reflexivity|].
    split; [constructor; [left; reflexivity | exact Hb]|].
    split; [|exact Hl]. rewrite Htk, Ht. destruct bl; reflexivity. }
  destruct (lookahead lx =? ch_tab) eqn:Ht.
  { apply IH in H as (bl & Hr & Hb & Htk & Hl).
    apply lookahead_cons in Ht as [[Ht Ht'] _]; [|discriminate].
    exists (ch_tab :: bl). rewrite Ht, Hr. split; [reflexivity|].
    split; [constructor; [right; reflexivity | exact Hb]|].
    split; [|exact Hl]. rewrite Htk, Ht'. destruct bl; reflexivity. }
  simpl in H. injection H as <-.
  exists []. repeat split; [constructor | exact Hs | exact Ht].
Qed.

Lemma advance_opt (lx : TSLexer) (c : Z) :
  c <> 0 ->
  exists t, (t = [c] \/
             t = [] /\
             forall tl, rest (if lookahead lx =? c then advance lx else lx)
                        <> c :: tl) /\
    rest lx = t ++ rest (if lookahead lx =? c then advance lx else lx) /\
    token (if lookahead lx =? c then advance lx else lx) = token lx ++ t.
Proof.
  intros Hc. destruct (lookahead lx =? c) eqn:H.
  - apply lookahead_cons in H as [_ [H Ht]]; [|exact Hc].
    exists [c]. split; [left; reflexivity|]. split; assumption.
  - exists []. split.
    + right. split; [reflexivity|]. intros tl Hr.
      apply Z.eqb_neq in H. apply H. unfold lookahead. rewrite Hr.
      reflexivity.
    + split; [reflexivity | symmetry; apply app_nil_r].
Qed.

Lemma check_newline_spec (lx1 : TSLexer) (v : ValidSymbols)
  (r : option TokenType) (lx' : TSLexer) :
  v NEWLINE = true ->
  check_newline lx1 v = Ok (r, lx') ->
  newline_outcome taken_terminators lx1 r lx'.
Proof.
  intros Hv H. unfold check_newline in H. rewrite Hv in H.
  inv_bind H. rename a into lx2.
  apply skip_blanks_spec in Ha as (bl & Hr & Hb & Htk & Hs & Ht).
  unfold newline_outcome, taken_terminators.
  destruct (lookahead lx2 =? ch_lf) eqn:Hlf.
  { injection H as <- <-.
    apply lookahead_cons in Hlf as [_ [Hlf Hlt]]; [|discriminate].
    destruct (advance_opt (advance lx2) ch_cr) as (t & Ht' & Hrt & Htt);
      [discriminate|].
    exists bl, (ch_lf :: t). rewrite Hr, Hlf, Hrt.
    split; [reflexivity|]. split; [exact Hb|].
    split; [rewrite Htt, Hlt, Htk, <- app_assoc; reflexivity|]. left.
    split; [reflexivity|].
    destruct Ht' as [-> | [-> Hno]].
    - split; [simpl; tauto|]. split; [discriminate|].
      intros c tl Hin. exfalso. simpl in Hin.
      destruct Hin as [E|[E|[E|[E|[E|[]]]]]]; discriminate.
    - split; [simpl; tauto|]. split; [discriminate|].
      intros c tl Hin. simpl in Hin.
      destruct Hin as [E|[E|[E|[E|[E|[]]]]]]; try discriminate.
      injection E as <-. apply Hno. }
  destruct (lookahead lx2 =? ch_cr) eqn:Hcr.
  { injection H as <- <-.
    apply lookahead_cons in Hcr as [_ [Hcr Hct]]; [|discriminate].
    destruct (advance_opt (advance lx2) ch_lf) as (t & Ht' & Hrt & Htt);
      [discriminate|].
    exists bl, (ch_cr :: t). rewrite Hr, Hcr, Hrt.
    split; [reflexivity|]. split; [exact Hb|].
    split; [rewrite Htt, Hct, Htk, <- app_assoc; reflexivity|]. left.
    split; [reflexivity|].
    destruct Ht' as [-> | [-> Hno]].
    - split; [simpl; tauto|]. split; [discriminate|].
      intros c tl Hin. exfalso. simpl in Hin.
      destruct Hin as [E|[E|[E|[E|[E|[]]]]]]; discriminate.
    - split; [simpl; tauto|]. split; [discriminate|].
      intros c tl Hin. simpl in Hin.
      destruct Hin as [E|[E|[E|[E|[E|[]]]]]]; try discriminate.
      injection E as <-. apply Hno. }
  assert (Hlx : lx' = lx2) by (destruct (is_eof lx2); congruence).
  subst lx'.
  exists bl, []. split; [exact Hr|]. split; [exact Hb|].
  split; [rewrite app_nil_r; exact Htk|].
  destruct (is_eof lx2) eqn:He; injection H as <-.
  - left. split; [reflexivity|]. split; [simpl; tauto|].
    unfold is_eof in He. destruct (rest lx2); [|discriminate].
    split; [reflexivity | discriminate].
  - right. split; [reflexivity|]. split; [reflexivity|].
    unfold is_eof in He. unfold lookahead in *.
    destruct (rest lx2) as [|c tl]; [discriminate|].
    exists c, tl. split; [reflexivity|].
    apply Z.eqb_neq in Hs, Ht, Hlf, Hcr. unfold is_blank. tauto.
Qed.

(** A text splits in one way only into a run of blanks and a rest that does
    not start with a blank. *)
Lemma blanks_split_unique (b1 : list Z) :
  forall x1 b2 x2 : list Z,
    Forall is_blank b1 -> Forall is_blank b2 ->
    match x1 with [] => True | c :: _ => ~ is_blank c end ->
    match x2 with [] => True | c :: _ => ~ is_blank c end ->
    b1 ++ x1 = b2 ++ x2 ->
    b1 = b2 /\ x1 = x2.
Proof.
  induction b1 as [|c b1 IH]; intros x1 b2 x2 H1 H2 Hx1 Hx2 E.
  - destruct b2 as [|d b2]; [split; [reflexivity | exact E]|].
    exfalso. cbn [app] in E. subst x1.
    apply Forall_cons in H2 as [Hd _]. exact (Hx1 Hd).
  - destruct b2 as [|d b2].
    + exfalso. cbn [app] in E. subst x2.
      apply Forall_cons in H1 as [Hc _]. exact (Hx2 Hc).
    + cbn [app] in E. injection E as <- E.
      apply Forall_cons in H1 as [_ H1]. apply Forall_cons in H2 as [_ H2].
      destruct (IH x1 b2 x2 H1 H2 Hx1 Hx2 E) as [-> ->].
      split; reflexivity.
Qed.

(** The outcome leaves no choice: the result, the terminator taken and the
    text left are fixed by the text the check started on. *)
Lemma newline_outcome_unique (lx1 : TSLexer)
  (r1 r2 : option TokenType) (lxa lxb : TSLexer) :
  newline_outcome taken_terminators lx1 r1 lxa ->
  newline_outcome taken_terminators lx1 r2 lxb ->
  r1 = r2 /\ rest lxa = rest lxb /\ token lxa = token lxb.
Proof.
  intros (b1 & t1 & E1 & B1 & T1 & O1) (b2 & t2 & E2 & B2 & T2 & O2).
  assert (Hnb : forall (t : list Z) (r : option TokenType) (lx : TSLexer),
             (r = Some NEWLINE /\ In t taken_terminators /\
              (t = [] -> rest lx = []) /\
              (forall (c : Z) (tl : list Z),
                 In (t ++ [c]) taken_terminators -> rest lx <> c :: tl)) \/
             (r = None /\ t = [] /\
              exists c tl, rest lx = c :: tl /\
                           ~ is_blank c /\ c <> ch_lf /\ c <> ch_cr) ->
             match t ++ rest lx with [] => True | c :: _ => ~ is_blank c end).
  { intros t r lx [(_ & Hin & He & _) | (_ & -> & c & tl & -> & Hc & _)];
      [|exact Hc].
    simpl in Hin.
    destruct Hin as [<-|[<-|[<-|[<-|[<-|[]]]]]];
      try (cbn [app]; intros [H | H]; discriminate H).
    rewrite He by reflexivity. exact I. }
  rewrite E1 in E2.
  destruct (blanks_split_unique b1 (t1 ++ rest lxa) b2 (t2 ++ rest lxb)
              B1 B2 (Hnb _ _ _ O1) (Hnb _ _ _ O2) E2) as [<- E].
  rewrite T1, T2. clear E1 E2 T1 T2 Hnb B1 B2.
  assert (Ht : r1 = r2 /\ t1 = t2 /\ rest lxa = rest lxb).
  { destruct O1 as [(-> & I1 & N1 & M1) | (-> & -> & c1 & l1 & R1 & C1)];
    destruct O2 as [(-> & I2 & N2 & M2) | (-> & -> & c2 & l2 & R2 & C2)].
    - split; [reflexivity|].
      simpl in I1, I2.
      destruct I1 as [<-|[<-|[<-|[<-|[<-|[]]]]]];
      destruct I2 as [<-|[<-|[<-|[<-|[<-|[]]]]]];
        cbn [app] in E;
        try (split; [reflexivity | congruence]);
        try discriminate E;
        try (rewrite (N1 eq_refl) in E; discriminate E);
        try (rewrite (N2 eq_refl) in E; discriminate E);
        exfalso.
      + injection E as E. apply (M1 ch_cr (rest lxb)); [simpl; tauto | exact E].
      + injection E as E.
        apply (M2 ch_cr (rest lxa)); [simpl; tauto | symmetry; exact E].
      + injection E as E. apply (M1 ch_lf (rest lxb)); [simpl; tauto | exact E].
      + injection E as E.
        apply (M2 ch_lf (rest lxa)); [simpl; tauto | symmetry; exact E].
    - exfalso. cbn [app] in E. rewrite R2 in E.
      simpl in I1.
      destruct I1 as [<-|[<-|[<-|[<-|[<-|[]]]]]]; cbn [app] in E;
        try (injection E as <-; tauto).
      rewrite (N1 eq_refl) in E. discriminate E.
    - exfalso. cbn [app] in E. rewrite R1 in E.
      simpl in I2.
      destruct I2 as [<-|[<-|[<-|[<-|[<-|[]]]]]]; cbn [app] in E;
        try (injection E as ->; tauto).
      rewrite (N2 eq_refl) in E. discriminate E.
    - split; [reflexivity|]. split; [reflexivity | exact E]. }
  destruct Ht as (-> & -> & ->). split; [reflexivity|]. split; reflexivity.
Qed.

(** C7, as amended.  A call that has NEWLINE requested and arrives at
    newline recognition (it serves no owed dedent and the line-start block
    does not return) goes over blanks and then answers NEWLINE exactly when
    the next characters form a lone LF, LF CR, a lone CR, CR LF, or the end
    of input; what it takes into the token as the terminator is exactly
    that form: both characters where LF CR or CR LF stands, LF alone only
    where no CR follows it, CR alone only where no LF follows it, and
    nothing at end of input. *)
Theorem newline_recognition (s : Scanner) (lx : TSLexer) (v : ValidSymbols)
  (s1 : Scanner) (lx1 : TSLexer) :
  (0 <? pending_dedents s) && v DEDENT = false ->
  before_newline s lx v = Ok (Break, s1, lx1) ->
  v NEWLINE = true ->
  exists r lx',
    scan s lx v = Ok (r, s1, lx') /\
    newline_outcome taken_terminators lx1 r lx'.
Proof.
  intros Hp Hb Hv. unfold scan. rewrite Hp, Hb. res_simpl.
  destruct (check_newline lx1 v) as [[r lx']| |] eqn:Hc.
  - exists r, lx'. split; [reflexivity|].
    eapply check_newline_spec; eassumption.
  - exfalso. unfold check_newline in Hc. rewrite Hv in Hc.
    destruct (skip_blanks_ok (fuel_of lx1) lx1) as (lx2 & Heq & _);
      [unfold fuel_of, remaining; lia|].
    rewrite Heq in Hc. res_simpl in Hc.
    destruct (lookahead lx2 =? ch_lf); [discriminate|].
    destruct (lookahead lx2 =? ch_cr); [discriminate|].
    destruct (is_eof lx2); discriminate.
  - exfalso. unfold check_newline in Hc. rewrite Hv in Hc.
    destruct (skip_blanks_ok (fuel_of lx1) lx1) as (lx2 & Heq & _);
      [unfold fuel_of, remaining; lia|].
    rewrite Heq in Hc. res_simpl in Hc.
    destruct (lookahead lx2 =? ch_lf); [discriminate|].
    destruct (lookahead lx2 =? ch_cr); [discriminate|].
    destruct (is_eof lx2); discriminate.
Qed.

Lemma newline_recognition_witness :
  exists r lx',
    scan create (lexer_at [ch_space; ch_cr; ch_lf; 120] 1) all_valid
      = Ok (r, create, lx') /\
    newline_outcome taken_terminators
      (lexer_at [ch_space; ch_cr; ch_lf; 120] 1) r lx'.
Proof.
  apply (newline_recognition create
           (lexer_at [ch_space; ch_cr; ch_lf; 120] 1) all_valid).
  - reflexivity.
  - reflexivity.
  - reflexivity.
Defined.

(** C7, as stated, fails: before LF CR the call answers NEWLINE and takes
    both characters, which is none of the forms the claim lists (a lone LF,
    a lone CR, CR LF, the empty terminator at end of input). *)
Lemma newline_takes_lf_cr :
  ~ (forall (s : Scanner) (lx : TSLexer) (v : ValidSymbols)
            (s1 : Scanner) (lx1 : TSLexer),
       (0 <? pending_dedents s) && v DEDENT = false ->
       before_newline s lx v = Ok (Break, s1, lx1) ->
       v NEWLINE = true ->
       exists r lx',
         scan s lx v = Ok (r, s1, lx') /\
         newline_outcome stated_terminators lx1 r lx').
Proof.
  intros H.
  destruct (H create (lexer_at [ch_lf; ch_cr; 120] 1) all_valid create
              (lexer_at [ch_lf; ch_cr; 120] 1))
    as (r & lx' & Hs & bl & term & Hr & Hb & _ & Ho);
    [reflexivity | reflexivity | reflexivity |].
  vm_compute in Hs. injection Hs as <- <-. simpl in Hr.
  destruct bl as [|b bl].
  - simpl in Hr.
    destruct Ho as [(_ & Hin & _) | (Hn & _)]; [|discriminate].
    unfold stated_terminators in Hin. simpl in Hin.
    destruct Hin as [<-|[<-|[<-|[<-|[]]]]]; discriminate.
  - simpl in Hr. injection Hr as <- _.
    apply Forall_inv in Hb. destruct Hb; discriminate.
Qed.

(** ** Bytes *)

Lemma of_uchar_range (b : byte) : 0 <= of_uchar b < 256.
Proof.
  unfold of_uchar. pose proof (Byte.to_N_bounded b) as H. lia.
Qed.

Lemma of_uchar_to_char (v : Z) : of_uchar (to_char v) = v mod 256.
Proof.
  unfold of_uchar, to_char.
  assert (Hr : 0 <= v mod 256 < 256) by (apply Z.mod_pos_bound; lia).
  destruct (Byte.of_N (Z.to_N (v mod 256))) as [b|] eqn:Hb.
  - apply Byte.to_of_N in Hb. rewrite Hb. lia.
  - apply Byte.of_N_None_iff in Hb. lia.
Qed.

Lemma le16_split (v : Z) :
  0 <= v < 65536 ->
  le16 (to_char (Z.land v 255)) (to_char (Z.land (Z.shiftr v 8) 255)) = v.
Proof.
  intros Hv. unfold le16, u16. rewrite !of_uchar_to_char.
  change 255 with (Z.ones 8). rewrite !Z.land_ones by lia.
  change 256 with (2 ^ 8). change 65536 with (2 ^ 16).
  rewrite !Z.mod_mod by lia.
  rewrite <- (Z.mod_small v (2 ^ 16)) at 3 by (change (2 ^ 16) with 65536; lia).
  apply Z.bits_inj'. intros n Hn.
  rewrite !Z.testbit_mod_pow2 by lia.
  rewrite Z.lor_spec, Z.shiftl_spec by lia.
  rewrite Z.testbit_mod_pow2 by lia.
  destruct (n <? 16) eqn:H16; [|reflexivity].
  apply Z.ltb_lt in H16. cbn [andb].
  destruct (n <? 8) eqn:H8.
  - apply Z.ltb_lt in H8. cbn [andb].
    rewrite (Z.testbit_neg_r _ (n - 8)) by lia. apply orb_false_r.
  - apply Z.ltb_ge in H8. cbn [andb orb].
    rewrite Z.testbit_mod_pow2 by lia.
    replace (n - 8 <? 8) with true by (symmetry; apply Z.ltb_lt; lia).
    cbn [andb]. rewrite Z.shiftr_spec by lia. f_equal. lia.
Qed.

(** ** Decoding *)

Lemma read_byte_ok (buffer : list byte) (pos : Z) :
  0 <= pos < Z.of_nat (length buffer) ->
  read_byte buffer pos = Ok (buffer !!! Z.to_nat pos).
Proof.
  intros H. unfold read_byte.
  replace ((0 <=? pos) && (pos <? Z.of_nat (length buffer))) with true;
    [reflexivity|].
  symmetry. apply andb_true_iff. split; [apply Z.leb_le | apply Z.ltb_lt]; lia.
Qed.

Lemma in_bounds_true (i : Z) :
  0 <= i < MAX_INDENT_DEPTH -> in_bounds i = true.
Proof.
  intros H. unfold in_bounds. apply andb_true_iff.
  split; [apply Z.leb_le | apply Z.ltb_lt]; lia.
Qed.

(** The entries the loop of lines 92-95 restores: entry [j] is read from the
    bytes at [pos + 2 (j - i)] and the next one, as long as both lie inside
    the buffer; every other entry is left alone. *)
Lemma deserialize_loop_spec (buffer : list byte) (fuel : nat) :
  forall (s0 : Scanner) (i pos : Z),
    length (indent_stack s0) = Z.to_nat MAX_INDENT_DEPTH ->
    indent_depth s0 <= MAX_INDENT_DEPTH ->
    0 <= i -> 0 <= pos ->
    (Z.to_nat (indent_depth s0 - i) < fuel)%nat ->
    exists s',
      deserialize_loop fuel s0 buffer i pos = Ok s' /\
      indent_depth s' = indent_depth s0 /\
      pending_dedents s' = pending_dedents s0 /\
      length (indent_stack s') = Z.to_nat MAX_INDENT_DEPTH /\
      forall j : nat,
        indent_stack s' !!! j =
          if (i <=? Z.of_nat j) && (Z.of_nat j <? indent_depth s0) &&
             (pos + 2 * (Z.of_nat j - i) + 1 <? Z.of_nat (length buffer))
          then le16 (buffer !!! Z.to_nat (pos + 2 * (Z.of_nat j - i)))
                    (buffer !!! Z.to_nat (pos + 2 * (Z.of_nat j - i) + 1))
          else indent_stack s0 !!! j.
Proof.
  induction fuel as [|f IH]; intros s0 i pos Hlen Hd Hi Hpos Hf; [lia|].
  cbn [deserialize_loop].
  destruct ((i <? indent_depth s0) && (pos + 1 <? Z.of_nat (length buffer)))
    eqn:Hc.
  - apply andb_true_iff in Hc as [Hc1 Hc2].
    apply Z.ltb_lt in Hc1, Hc2.
    rewrite !read_byte_ok by lia. res_simpl.
    unfold write_stack. rewrite in_bounds_true by lia. res_simpl.
    rewrite (u16_small (i + 1)) by (unfold MAX_INDENT_DEPTH in *; lia).
    fold (le16 (buffer !!! Z.to_nat pos) (buffer !!! Z.to_nat (pos + 1))).
    set (s1 := mkScanner _ _ _).
    destruct (IH s1 (i + 1) (pos + 2)) as (s' & Heq & Hd' & Hp' & Hl' & Hj);
      try (subst s1; simpl; rewrite ?length_insert; first [assumption | lia]).
    exists s'. split; [exact Heq|]. split; [exact Hd'|]. split; [exact Hp'|].
    split; [exact Hl'|].
    intros j. rewrite Hj. subst s1. cbn [indent_depth indent_stack].
    destruct (decide (j = Z.to_nat i)) as [->|Hne].
    + rewrite Z2Nat.id by lia.
      replace (i + 1 <=? i) with false by (symmetry; apply Z.leb_gt; lia).
      cbn [andb]. rewrite list_lookup_total_insert_eq
        by (unfold MAX_INDENT_DEPTH in *; lia).
      rewrite Z.leb_refl.
      replace (i <? indent_depth s0) with true
        by (symmetry; apply Z.ltb_lt; lia).
      replace (pos + 2 * (i - i) + 1) with (pos + 1) by lia.
      replace (pos + 2 * (i - i)) with pos by lia.
      replace (pos + 1 <? Z.of_nat (length buffer)) with true
        by (symmetry; apply Z.ltb_lt; lia).
      reflexivity.
    + rewrite list_lookup_total_insert_ne by congruence.
      replace (pos + 2 + 2 * (Z.of_nat j - (i + 1)))
        with (pos + 2 * (Z.of_nat j - i)) by lia.
      replace (i + 1 <=? Z.of_nat j) with (i <=? Z.of_nat j); [reflexivity|].
      destruct (Z.leb_spec i (Z.of_nat j)); symmetry;
        [apply Z.leb_le | apply Z.leb_gt]; lia.
  - exists s0. repeat split; try assumption.
    intros j.
    destruct ((i <=? Z.of_nat j) && (Z.of_nat j <? indent_depth s0) &&
              (pos + 2 * (Z.of_nat j - i) + 1 <? Z.of_nat (length buffer)))
      eqn:Hc'; [|reflexivity].
    exfalso.
    apply andb_true_iff in Hc' as [Hc' H3].
    apply andb_true_iff in Hc' as [H1 H2].
    apply Z.leb_le in H1. apply Z.ltb_lt in H2, H3.
    apply andb_false_iff in Hc as [Hc|Hc]; apply Z.ltb_ge in Hc; lia.
Qed.

(** A buffer that holds both counters: the depth is clamped and the loop
    restores the entries whose two bytes are there. *)
Lemma deserialize_long (payload : Scanner) (b0 b1 : byte) (tl : list byte) :
  length (indent_stack payload) = Z.to_nat MAX_INDENT_DEPTH ->
  exists s',
    deserialize payload (b0 :: b1 :: tl) = Ok s' /\
    pending_dedents s' = of_uchar b0 /\
    indent_depth s' = Z.min (of_uchar b1) MAX_INDENT_DEPTH /\
    forall j : nat,
      indent_stack s' !!! j =
        if (Z.of_nat j <? indent_depth s') &&
           (2 * Z.of_nat j + 1 <? Z.of_nat (length tl))
        then le16 (tl !!! (2 * j)%nat) (tl !!! (2 * j + 1)%nat)
        else <[0%nat := 0]> (indent_stack payload) !!! j.
Proof.
  intros Hlen. unfold deserialize, write_stack.
  change (in_bounds 0) with true. res_simpl. cbn [Z.to_nat].
  change (Z.of_nat (length (b0 :: b1 :: tl)) =? 0) with false. cbv iota.
  rewrite read_byte_ok by (simpl length; lia). res_simpl.
  replace (Z.of_nat (length (b0 :: b1 :: tl)) <=? 0 + 1) with false
    by (symmetry; apply Z.leb_gt; simpl length; lia).
  rewrite read_byte_ok by (simpl length; lia). res_simpl.
  change (Z.to_nat 0) with 0%nat. change (Z.to_nat (0 + 1)) with 1%nat.
  change ((b0 :: b1 :: tl) !!! 0%nat) with b0.
  change ((b0 :: b1 :: tl) !!! 1%nat) with b1.
  pose proof (of_uchar_range b0) as Hb0.
  pose proof (of_uchar_range b1) as Hb1.
  rewrite !u16_small by lia.
  cbn [set_depth set_pending indent_depth indent_stack pending_dedents].
  set (d := Z.min (of_uchar b1) MAX_INDENT_DEPTH).
  set (s0 := if MAX_INDENT_DEPTH <? of_uchar b1 then _ else _).
  assert (Hs0 : s0 = mkScanner (<[0%nat := 0]> (indent_stack payload))
                       d (of_uchar b0)).
  { subst s0 d. unfold set_depth. cbn [indent_stack pending_dedents].
    destruct (Z.ltb_spec MAX_INDENT_DEPTH (of_uchar b1)).
    - rewrite Z.min_r by lia. reflexivity.
    - rewrite Z.min_l by lia. reflexivity. }
  rewrite Hs0. cbn [indent_depth].
  destruct (deserialize_loop_spec (b0 :: b1 :: tl) (S (Z.to_nat d))
              (mkScanner (<[0%nat := 0]> (indent_stack payload))
                 d (of_uchar b0)) 0 (0 + 1 + 1))
    as (s' & Heq & Hd' & Hp' & Hl' & Hj);
    try (cbn [indent_depth indent_stack]; rewrite ?length_insert;
         first [assumption | subst d; lia]).
  exists s'. split; [exact Heq|].
  split; [exact Hp'|]. split; [exact Hd'|].
  intros j. rewrite Hj, Hd'. cbn [indent_depth indent_stack].
  replace (0 <=? Z.of_nat j) with true by (symmetry; apply Z.leb_le; lia).
  cbn [andb].
  replace (0 + 1 + 1 + 2 * (Z.of_nat j - 0) + 1 <?
           Z.of_nat (length (b0 :: b1 :: tl)))
    with (2 * Z.of_nat j + 1 <? Z.of_nat (length tl)).
  2:{ simpl length.
      destruct (Z.ltb_spec (2 * Z.of_nat j + 1) (Z.of_nat (length tl)));
        symmetry; [apply Z.ltb_lt | apply Z.ltb_ge]; lia. }
  replace (Z.to_nat (0 + 1 + 1 + 2 * (Z.of_nat j - 0)))
    with (S (S (2 * j))) by lia.
  replace (Z.to_nat (0 + 1 + 1 + 2 * (Z.of_nat j - 0) + 1))
    with (S (S (2 * j + 1))) by lia.
  reflexivity.
Qed.

(** C8.  [deserialize] returns a state for every buffer, without reading
    outside the buffer or the stack.  An empty buffer gives the fresh state
    (nothing pending, depth 1, bottom entry 0); a buffer of one byte gives
    that byte as [pending_dedents] and the fresh depth and bottom entry; a
    declared depth above 100 becomes 100; entry [j] below the depth is
    restored exactly when its two bytes lie inside the buffer, and is
    otherwise left as it was after the reset. *)
Theorem deserialize_defensive (payload : Scanner) (buffer : list byte) :
  length (indent_stack payload) = Z.to_nat MAX_INDENT_DEPTH ->
  exists s',
    deserialize payload buffer = Ok s' /\
    (buffer = [] ->
       pending_dedents s' = 0 /\ indent_depth s' = 1 /\
       indent_stack s' !!! 0%nat = 0 /\
       indent_stack s' = <[0%nat := 0]> (indent_stack payload)) /\
    (forall b, buffer = [b] ->
       pending_dedents s' = of_uchar b /\ indent_depth s' = 1 /\
       indent_stack s' !!! 0%nat = 0 /\
       indent_stack s' = <[0%nat := 0]> (indent_stack payload)) /\
    (forall b0 b1 tl, buffer = b0 :: b1 :: tl ->
       pending_dedents s' = of_uchar b0 /\
       indent_depth s' = Z.min (of_uchar b1) MAX_INDENT_DEPTH /\
       forall j : nat,
         indent_stack s' !!! j =
           if (Z.of_nat j <? indent_depth s') &&
              (2 * Z.of_nat j + 1 <? Z.of_nat (length tl))
           then le16 (tl !!! (2 * j)%nat) (tl !!! (2 * j + 1)%nat)
           else <[0%nat := 0]> (indent_stack payload) !!! j).
Proof.
  intros Hlen.
  assert (Hbot : <[0%nat := 0]> (indent_stack payload) !!! 0%nat = 0).
  { apply list_lookup_total_insert_eq. rewrite Hlen.
    unfold MAX_INDENT_DEPTH. lia. }
  destruct buffer as [|b0 [|b1 tl]].
  - eexists. split; [reflexivity|]. split; [|split]; [|discriminate..].
    intros _. simpl. repeat split. exact Hbot.
  - eexists. split; [reflexivity|]. split; [discriminate|].
    split; [|discriminate].
    intros b [= <-]. simpl. rewrite u16_small;
      [repeat split; exact Hbot|].
    pose proof (of_uchar_range b0). lia.
  - destruct (deserialize_long payload b0 b1 tl Hlen)
      as (s' & Heq & Hp' & Hd' & Hj).
    exists s'. split; [exact Heq|].
    split; [discriminate|]. split; [discriminate|].
    intros c0 c1 tl' [= <- <- <-]. repeat split; assumption.
Qed.

Lemma deserialize_defensive_witness :
  exists s',
    deserialize create [x02; xff; x04] = Ok s' /\
    pending_dedents s' = 2 /\ indent_depth s' = 100 /\
    indent_stack s' !!! 0%nat = 0 /\ indent_stack s' !!! 1%nat = 0.
Proof.
  destruct (deserialize_defensive create [x02; xff; x04])
    as (s' & Heq & _ & _ & H3); [reflexivity|].
  exists s'. split; [exact Heq|].
  destruct (H3 x02 xff [x04] eq_refl) as (Hp & Hd & Hj).
  split; [exact Hp|]. split; [exact Hd|].
  split; [rewrite (Hj 0%nat) | rewrite (Hj 1%nat)]; rewrite Hd; reflexivity.
Defined.

(** ** Encoding *)

Lemma length_encode_entries (l : list Z) :
  length (encode_entries l) = (2 * length l)%nat.
Proof.
  unfold encode_entries. induction l as [|v l IH]; simpl; [reflexivity|].
  simpl in IH. rewrite IH. lia.
Qed.

Lemma lookup_encode_entries (l : list Z) :
  forall j : nat,
    (j < length l)%nat ->
    encode_entries l !!! (2 * j)%nat = to_char (Z.land (l !!! j) 255) /\
    encode_entries l !!! (2 * j + 1)%nat
      = to_char (Z.land (Z.shiftr (l !!! j) 8) 255).
Proof.
  induction l as [|v l IH]; intros j Hj; simpl in Hj; [lia|].
  destruct j as [|j].
  - split; reflexivity.
  - replace (2 * S j)%nat with (S (S (2 * j))) by lia.
    replace (S (S (2 * j)) + 1)%nat with (S (S (2 * j + 1))) by lia.
    apply (IH j). lia.
Qed.

Section CodecProperties.

Variable BUFFER_SIZE : Z.
Hypothesis buffer_fits : 2 * MAX_INDENT_DEPTH + 2 <= BUFFER_SIZE.

Lemma push_byte_ok (buf : list byte) (b : byte) :
  Z.of_nat (length buf) < BUFFER_SIZE ->
  push_byte BUFFER_SIZE buf b = Ok (buf ++ [b]).
Proof.
  intros H. unfold push_byte.
  replace (Z.of_nat (length buf) <? BUFFER_SIZE) with true; [reflexivity|].
  symmetry. apply Z.ltb_lt. exact H.
Qed.

Lemma serialize_loop_spec (s : Scanner) (fuel : nat) :
  forall (i : nat) (buf : list byte),
    indent_depth s <= MAX_INDENT_DEPTH ->
    Z.of_nat i <= indent_depth s ->
    length buf = (2 + 2 * i)%nat ->
    (Z.to_nat (indent_depth s) - i < fuel)%nat ->
    serialize_loop BUFFER_SIZE fuel s (Z.of_nat i) buf =
      Ok (buf ++ encode_entries
                   (take (Z.to_nat (indent_depth s) - i)
                         (drop i (map (fun k => indent_stack s !!! k)
                                      (seq 0 (Z.to_nat MAX_INDENT_DEPTH)))))).
Proof.
  induction fuel as [|f IH]; intros i buf Hd Hi Hlen Hf; [lia|].
  cbn [serialize_loop]. unfold MAX_INDENT_DEPTH in *.
  destruct (Z.ltb_spec (Z.of_nat i) (indent_depth s)) as [Hlt|Hge].
  - replace (Z.of_nat (length buf) <? BUFFER_SIZE) with true
      by (symmetry; apply Z.ltb_lt; lia).
    cbn [andb]. unfold read_stack.
    rewrite in_bounds_true by (unfold MAX_INDENT_DEPTH; lia).
    res_simpl. rewrite Nat2Z.id.
    rewrite push_byte_ok by lia. res_simpl.
    rewrite push_byte_ok by (rewrite length_app; simpl; lia). res_simpl.
    rewrite u16_small by lia.
    replace (Z.of_nat i + 1) with (Z.of_nat (S i)) by lia.
    rewrite IH; try lia.
    2:{ rewrite !length_app. simpl. lia. }
    f_equal. rewrite <- !app_assoc. f_equal.
    replace (Z.to_nat (indent_depth s) - i)%nat
      with (S (Z.to_nat (indent_depth s) - S i)) by lia.
    rewrite (drop_S _ (indent_stack s !!! i) i).
    2:{ rewrite list_lookup_fmap, lookup_seq_lt by lia. reflexivity. }
    reflexivity.
  - cbn [andb]. replace (Z.to_nat (indent_depth s) - i)%nat with 0%nat by lia.
    rewrite take_0. unfold encode_entries. simpl. rewrite app_nil_r.
    reflexivity.
Qed.

(** The bytes [serialize] writes: the two counters, then the entries below
    the depth, two bytes each. *)
Lemma serialize_spec (s : Scanner) :
  0 <= indent_depth s <= MAX_INDENT_DEPTH ->
  serialize BUFFER_SIZE s =
    Ok (to_char (pending_dedents s) :: to_char (indent_depth s) ::
        encode_entries
          (map (fun k => indent_stack s !!! k)
               (seq 0 (Z.to_nat (indent_depth s))))).
Proof.
  intros Hd. unfold serialize, MAX_INDENT_DEPTH in *.
  rewrite push_byte_ok by (simpl; lia). res_simpl.
  rewrite push_byte_ok by (simpl; lia). res_simpl.
  rewrite (serialize_loop_spec s _ 0%nat);
    try (unfold MAX_INDENT_DEPTH; simpl; lia).
  f_equal. cbn [app]. do 3 f_equal.
  rewrite Nat.sub_0_r, drop_0, <- fmap_take, take_seq.
  f_equal. f_equal. unfold MAX_INDENT_DEPTH. lia.
Qed.

(** C2.  For a state whose fields are 16-bit values, whose depth is at
    most 100 and whose [pending_dedents] is at most 255, [serialize]
    returns a buffer from which [deserialize] (into any scanner) restores
    the same [pending_dedents], the same depth and the same stack entries
    below the depth.  Every state reached from [create] is such a state. *)
Theorem deserialize_serialize (payload s : Scanner) :
  wf_scanner s ->
  indent_depth s <= MAX_INDENT_DEPTH ->
  pending_dedents s <= 255 ->
  length (indent_stack payload) = Z.to_nat MAX_INDENT_DEPTH ->
  exists buffer s',
    serialize BUFFER_SIZE s = Ok buffer /\
    deserialize payload buffer = Ok s' /\
    pending_dedents s' = pending_dedents s /\
    indent_depth s' = indent_depth s /\
    forall j : nat,
      Z.of_nat j < indent_depth s ->
      indent_stack s' !!! j = indent_stack s !!! j.
Proof.
  intros (Hlen & Hall & Hd16 & Hp16) Hd Hp Hpl.
  unfold is_u16, MAX_INDENT_DEPTH in *.
  eexists.
  destruct (deserialize_long payload
              (to_char (pending_dedents s)) (to_char (indent_depth s))
              (encode_entries
                 (map (fun k => indent_stack s !!! k)
                    (seq 0 (Z.to_nat (indent_depth s))))) Hpl)
    as (s' & Heq & Hp' & Hd' & Hj).
  exists s'. split; [apply serialize_spec; unfold MAX_INDENT_DEPTH; lia|].
  split; [exact Heq|].
  rewrite !of_uchar_to_char in *.
  rewrite Z.mod_small in Hp' by lia.
  rewrite Z.mod_small in Hd' by lia.
  rewrite Z.min_l in Hd' by (unfold MAX_INDENT_DEPTH; lia).
  split; [exact Hp'|]. split; [exact Hd'|].
  intros j Hjd. rewrite Hj, Hd'.
  rewrite length_encode_entries, length_map, length_seq.
  replace (Z.of_nat j <? indent_depth s) with true
    by (symmetry; apply Z.ltb_lt; lia).
  replace (2 * Z.of_nat j + 1 <? Z.of_nat (2 * Z.to_nat (indent_depth s)))
    with true by (symmetry; apply Z.ltb_lt; lia).
  cbn [andb].
  destruct (lookup_encode_entries
              (map (fun k => indent_stack s !!! k)
                 (seq 0 (Z.to_nat (indent_depth s)))) j) as [-> ->].
  { rewrite length_map, length_seq. lia. }
  rewrite (list_lookup_total_fmap (fun k => indent_stack s !!! k)
             (seq 0 (Z.to_nat (indent_depth s))) j)
    by (rewrite length_seq; lia).
  rewrite lookup_total_seq_lt by lia. cbn [Nat.add].
  apply le16_split.
  apply (Forall_lookup_total_1 _ _ j) in Hall; [exact Hall | lia].
Qed.

End CodecProperties.

Lemma deserialize_serialize_witness :
  exists buffer s',
    serialize 1024 after_double_dedent = Ok buffer /\
    deserialize create buffer = Ok s' /\
    pending_dedents s' = pending_dedents after_double_dedent /\
    indent_depth s' = indent_depth after_double_dedent /\
    forall j : nat,
      Z.of_nat j < indent_depth after_double_dedent ->
      indent_stack s' !!! j = indent_stack after_double_dedent !!! j.
Proof.
  apply (deserialize_serialize 1024).
  - unfold MAX_INDENT_DEPTH; lia.
  - unfold wf_scanner, is_u16. split; [reflexivity|].
    split; [|simpl; lia].
    apply (bool_decide_unpack (Forall (fun z => 0 <= z < 65536) _)).
    vm_compute. exact I.
  - vm_compute. discriminate.
  - vm_compute. discriminate.
  - reflexivity.
Defined.

(** ** Runs over a document *)

Lemma drive_fuel_mono (f : nat) :
  forall (f' : nat) (s : Scanner) (lx : TSLexer) (tr : list Emission),
    drive f s lx = Ok tr -> (f <= f')%nat -> drive f' s lx = Ok tr.
Proof.
  induction f as [|f IH]; intros f' s lx tr H Hle; [discriminate|].
  destruct f' as [|f']; [lia|].
  cbn [drive] in *.
  destruct (is_eof lx && (indent_depth s =? 1)); [exact H|].
  destruct (scan s (start_token lx) all_valid) as [[[r s'] lx']| |];
    res_simpl in H; res_simpl; try discriminate.
  destruct r as [t|].
  - inv_bind H. rewrite (IH f' _ _ _ Ha) by lia. exact H.
  - apply IH; [exact H | lia].
Qed.

Lemma count_token_cons (t u : TokenType) (ts : list TokenType) :
  count_token t (u :: ts) =
    ((if decide (u = t) then 1 else 0) + count_token t ts)%nat.
Proof.
  unfold count_token. rewrite filter_cons.
  destruct (decide (u = t)); reflexivity.
Qed.

Lemma capped_indents_cons (e : Emission) (tr : list Emission) :
  capped_indents (e :: tr) =
    ((if capped e then 1 else 0) + capped_indents tr)%nat.
Proof.
  unfold capped_indents. rewrite filter_cons.
  destruct (capped e); simpl.
  - destruct (decide (true = true)); [reflexivity | congruence].
  - destruct (decide (false = true)); [discriminate | reflexivity].
Qed.

Lemma at_content_step (s : Scanner) (indent : Z) (lx : TSLexer)
  (e : Exit) (s' : Scanner) (lx' : TSLexer) :
  scan_inv s -> pending_dedents s = 0 ->
  at_content s indent lx all_valid = Ok (e, s', lx') ->
  match e with
  | Return r =>
      indent_depth s' + pending_dedents s'
        = indent_depth s + delta s r /\
      (0 < pending_dedents s' ->
         r = Some DEDENT /\ rest (token_end lx') <> [])
  | Break => s' = s /\ lx' = mark_end lx /\ is_eof lx = false
  end.
Proof.
  intros ((Hlen & Hall & Hd16 & Hp16) & Hd & Hpp) Hp0 H.
  unfold at_content, is_u16, MAX_INDENT_DEPTH in *.
  destruct (is_eof lx) eqn:He.
  { destruct (1 <? indent_depth s) eqn:H1; cbn [all_valid andb] in H;
      injection H as <- <- <-; simpl.
    - apply Z.ltb_lt in H1. rewrite u16_small by lia. split; lia.
    - split; lia. }
  inv_bind H. cbn [all_valid] in H. rewrite !andb_true_r in H.
  destruct (a <? indent) eqn:Hgt.
  { inv_bind H. injection H as <- <- <-. unfold delta, MAX_INDENT_DEPTH.
    destruct (indent_depth s <? 100) eqn:Hlt.
    - inv_bind Ha0. injection Ha0 as <-.
      unfold write_stack in Ha1. destruct (in_bounds _); [|discriminate].
      injection Ha1 as <-. apply Z.ltb_lt in Hlt. simpl.
      rewrite u16_small by lia. split; lia.
    - injection Ha0 as <-. split; lia. }
  destruct (indent <? a) eqn:Hlt.
  2:{ injection H as <- <- <-. repeat split. }
  inv_bind H. destruct a0 as [s1 c1].
  apply pop_levels_spec in Ha0; [|lia|unfold MAX_INDENT_DEPTH; lia].
  destruct Ha0 as (H1 & H2 & H3 & H4 & H5).
  destruct (0 <? c1) eqn:Hc; injection H as <- <- <-.
  - apply Z.ltb_lt in Hc. specialize (H5 Hc).
    unfold MAX_INDENT_DEPTH in H5. simpl.
    rewrite u16_small by lia. split; [lia|].
    intros _. split; [reflexivity|].
    unfold is_eof in He. destruct (rest lx); [discriminate | congruence].
  - apply Z.ltb_ge in Hc. split; [|split; reflexivity].
    apply scanner_eq; [assumption | lia | assumption].
Qed.

Lemma check_newline_result (lx : TSLexer) (v : ValidSymbols)
  (r : option TokenType) (lx' : TSLexer) :
  check_newline lx v = Ok (r, lx') -> r = Some NEWLINE \/ r = None.
Proof.
  unfold check_newline. intros H.
  destruct (v NEWLINE); [|injection H as <- <-; right; reflexivity].
  inv_bind H.
  destruct (lookahead a =? ch_lf); [injection H as <- <-; left; reflexivity|].
  destruct (lookahead a =? ch_cr); [injection H as <- <-; left; reflexivity|].
  destruct (is_eof a); injection H as <- <-; [left | right]; reflexivity.
Qed.

(** One call with every kind requested. *)
Lemma scan_all_valid_step (s : Scanner) (lx : TSLexer)
  (r : option TokenType) (s' : Scanner) (lx' : TSLexer) :
  scan_inv s -> marked lx = None ->
  scan s lx all_valid = Ok (r, s', lx') ->
  indent_depth s' + pending_dedents s'
    = indent_depth s + pending_dedents s + delta s r /\
  (0 < pending_dedents s ->
     r = Some DEDENT /\ rest (token_end lx') = rest lx) /\
  (pending_dedents s = 0 -> 0 < pending_dedents s' ->
     r = Some DEDENT /\ rest (token_end lx') <> []).
Proof.
  intros Hinv Hm H.
  pose proof Hinv as ((Hlen & Hall & Hd16 & Hp16) & Hd & Hpp).
  unfold is_u16 in *. unfold scan in H. cbn [all_valid] in H.
  rewrite andb_true_r in H.
  destruct (0 <? pending_dedents s) eqn:Hp.
  { apply Z.ltb_lt in Hp. injection H as <- <- <-. simpl.
    rewrite u16_small by lia. split; [lia|]. split; [|lia].
    intros _. split; [reflexivity|]. unfold token_end. rewrite Hm.
    reflexivity. }
  apply Z.ltb_ge in Hp. assert (Hp0 : pending_dedents s = 0) by lia.
  inv_bind H. destruct a as [[e s1] lx1].
  unfold before_newline in Ha.
  destruct (Nat.eqb (get_column lx) 0 && (all_valid INDENT || all_valid DEDENT)).
  - unfold line_start in Ha. inv_bind Ha. destruct a as [indent lx0].
    apply at_content_step in Ha; [|exact Hinv|exact Hp0].
    destruct e as [r0|].
    + injection H as <- <- <-. destruct Ha as [He Hpos].
      split; [lia|]. split; [lia|]. intros _. exact Hpos.
    + destruct Ha as (-> & -> & He).
      inv_bind H. destruct a as [r1 lx2]. injection H as <- <- <-.
      apply check_newline_result in Ha as [-> | ->]; simpl;
        (split; [lia|]; split; lia).
  - injection Ha as <- <- <-.
    inv_bind H. destruct a as [r1 lx2]. injection H as <- <- <-.
    apply check_newline_result in Ha as [-> | ->]; simpl;
      (split; [lia|]; split; lia).
Qed.



(** ** Runs over documents that end with a line feed *)

Lemma ends_lf_skip (lx : TSLexer) : ends_lf lx -> ends_lf (skip lx).
Proof.
  destruct lx as [[|c [|c' r]] col t m]; unfold ends_lf, skip; simpl;
    try tauto.
  intros [= ->]. reflexivity.
Qed.

Lemma ends_lf_advance (lx : TSLexer) : ends_lf lx -> ends_lf (advance lx).
Proof.
  destruct lx as [[|c [|c' r]] col t m]; unfold ends_lf, advance; simpl;
    try tauto.
  intros [= ->]. reflexivity.
Qed.

Lemma marked_skip (lx : TSLexer) : marked (skip lx) = marked lx.
Proof. destruct lx as [[|c r] col t m]; reflexivity. Qed.

Lemma marked_advance (lx : TSLexer) : marked (advance lx) = marked lx.
Proof. destruct lx as [[|c r] col t m]; reflexivity. Qed.

Lemma count_indent_props (fuel : nat) :
  forall (indent : Z) (lx : TSLexer) (indent' : Z) (lx' : TSLexer),
    count_indent fuel indent lx = Ok (indent', lx') ->
    (ends_lf lx -> ends_lf lx') /\
    marked lx' = marked lx /\
    (remaining lx' <= remaining lx)%nat /\
    (remaining lx' = remaining lx -> indent' = indent) /\
    (is_eof lx' = true \/
     ((lookahead lx' =? ch_space) = false /\
      (lookahead lx' =? ch_tab) = false)).
Proof.
  induction fuel as [|f IH]; intros indent lx indent' lx' H; [discriminate|].
  cbn [count_indent] in H.
  destruct (is_eof lx) eqn:He; cbn [negb andb] in H.
  { injection H as <- <-. repeat split; try tauto; try lia. }
  destruct ((lookahead lx =? ch_space) || (lookahead lx =? ch_tab)) eqn:Hb.
  - apply IH in H as (H1 & H2 & H3 & H4 & H5).
    pose proof (skip_remaining_lt lx He) as P1.
    split; [intros HL; apply H1, ends_lf_skip, HL|].
    split; [rewrite H2; apply marked_skip|].
    split; [lia|]. split; [lia | exact H5].
  - injection H as <- <-. apply orb_false_iff in Hb.
    repeat split; try tauto; try lia.
Qed.

Lemma skip_comment_props (fuel : nat) :
  forall lx lx' : TSLexer,
    skip_comment fuel lx = Ok lx' ->
    (ends_lf lx -> ends_lf lx') /\
    marked lx' = marked lx /\
    (remaining lx' <= remaining lx)%nat.
Proof.
  induction fuel as [|f IH]; intros lx lx' H; [discriminate|].
  cbn [skip_comment] in H.
  destruct (negb (is_eof lx) && negb (lookahead lx =? ch_lf)
            && negb (lookahead lx =? ch_cr)).
  - apply IH in H as (H1 & H2 & H3). pose proof (skip_remaining lx) as P1.
    split; [intros HL; apply H1, ends_lf_skip, HL|].
    split; [rewrite H2; apply marked_skip | lia].
  - injection H as <-. repeat split; try tauto; lia.
Qed.

Lemma next_line_props (fuel : nat) :
  forall (lx : TSLexer) (indent : Z) (lx1 : TSLexer),
    next_line fuel lx = Ok (indent, lx1) ->
    (ends_lf lx -> ends_lf lx1) /\
    marked lx1 = marked lx /\
    (remaining lx1 <= remaining lx)%nat /\
    (remaining lx1 = remaining lx -> indent = 0) /\
    (lookahead lx1 =? ch_lf) = false /\
    (lookahead lx1 =? ch_cr) = false /\
    (is_eof lx1 = true \/
     ((lookahead lx1 =? ch_space) = false /\
      (lookahead lx1 =? ch_tab) = false)).
Proof.
  induction fuel as [|f IH]; intros lx indent lx1 H; [discriminate|].
  cbn [next_line] in H. inv_bind H. destruct a as [i0 lx0].
  apply count_indent_props in Ha as (C1 & C2 & C3 & C4 & C5).
  destruct (lookahead lx0 =? ch_lf) eqn:Hlf.
  { assert (He : is_eof lx0 = false)
      by (eapply lookahead_is; [exact Hlf | discriminate]).
    pose proof (skip_remaining_lt lx0 He) as P1.
    apply IH in H as (H1 & H2 & H3 & H4 & H5).
    split; [intros HL; apply H1, ends_lf_skip, C1, HL|].
    split; [rewrite H2, marked_skip; exact C2|].
    split; [lia|]. split; [lia | exact H5]. }
  destruct (lookahead lx0 =? ch_cr) eqn:Hcr.
  { assert (He : is_eof lx0 = false)
      by (eapply lookahead_is; [exact Hcr | discriminate]).
    pose proof (skip_remaining_lt lx0 He) as P1.
    pose proof (skip_remaining (skip lx0)) as P2.
    apply IH in H as (H1 & H2 & H3 & H4 & H5).
    destruct (lookahead (skip lx0) =? ch_lf).
    - split; [intros HL; apply H1, ends_lf_skip, ends_lf_skip, C1, HL|].
      split; [rewrite H2, !marked_skip; exact C2|].
      split; [lia|]. split; [lia | exact H5].
    - split; [intros HL; apply H1, ends_lf_skip, C1, HL|].
      split; [rewrite H2, marked_skip; exact C2|].
      split; [lia|]. split; [lia | exact H5]. }
  destruct (lookahead lx0 =? ch_hash) eqn:Hh.
  { assert (He : is_eof lx0 = false)
      by (eapply lookahead_is; [exact Hh | discriminate]).
    inv_bind H. rename a into lx2.
    (* the first round of the comment loop consumes the hash itself *)
    unfold fuel_of in Ha. cbn [skip_comment] in Ha.
    rewrite He, Hlf, Hcr in Ha. cbn [negb andb] in Ha.
    apply skip_comment_props in Ha as (S1 & S2 & S3).
    pose proof (skip_remaining_lt lx0 He) as P1.
    pose proof (skip_remaining lx2) as P2.
    pose proof (skip_remaining (skip lx2)) as P3.
    apply IH in H as (H1 & H2 & H3 & H4 & H5).
    destruct ((lookahead lx2 =? ch_lf) || (lookahead lx2 =? ch_cr));
      [destruct (lookahead (skip lx2) =? ch_lf)|].
    - split; [intros HL;
              apply H1, ends_lf_skip, ends_lf_skip, S1, ends_lf_skip, C1, HL|].
      split; [rewrite H2, !marked_skip, S2, marked_skip; exact C2|].
      split; [lia|]. split; [lia | exact H5].
    - split; [intros HL; apply H1, ends_lf_skip, S1, ends_lf_skip, C1, HL|].
      split; [rewrite H2, marked_skip, S2, marked_skip; exact C2|].
      split; [lia|]. split; [lia | exact H5].
    - split; [intros HL; apply H1, S1, ends_lf_skip, C1, HL|].
      split; [rewrite H2, S2, marked_skip; exact C2|].
      split; [lia|]. split; [lia | exact H5]. }
  injection H as <- <-.
  split; [exact C1|]. split; [exact C2|]. split; [exact C3|].
  split; [exact C4|]. split; [exact Hlf|]. split; [exact Hcr | exact C5].
Qed.

Lemma skip_blanks_props (fuel : nat) :
  forall lx lx' : TSLexer,
    skip_blanks fuel lx = Ok lx' ->
    (ends_lf lx -> ends_lf lx') /\
    marked lx' = marked lx /\
    (remaining lx' <= remaining lx)%nat /\
    (remaining lx' = remaining lx -> lx' = lx).
Proof.
  induction fuel as [|f IH]; intros lx lx' H; [discriminate|].
  cbn [skip_blanks] in H.
  destruct ((lookahead lx =? ch_space) || (lookahead lx =? ch_tab)) eqn:Hb.
  - assert (He : is_eof lx = false).
    { apply orb_true_iff in Hb as [Hb|Hb];
        (eapply lookahead_is; [exact Hb | discriminate]). }
    pose proof (skip_remaining_lt lx He) as P1.
    apply IH in H as (H1 & H2 & H3 & H4).
    split; [intros HL; apply H1, ends_lf_skip, HL|].
    split; [rewrite H2; apply marked_skip|]. split; lia.
  - injection H as <-. repeat split; try tauto; lia.
Qed.

(** A NEWLINE either takes at least one character or is answered at end of
    input without moving; "no match" is answered before a character. *)
Lemma check_newline_props (lx : TSLexer) (r : option TokenType)
  (lx' : TSLexer) :
  check_newline lx all_valid = Ok (r, lx') ->
  (ends_lf lx -> ends_lf lx') /\
  marked lx' = marked lx /\
  (r = Some NEWLINE ->
     (remaining lx' < remaining lx)%nat \/ (lx' = lx /\ is_eof lx = true)) /\
  (r = None -> is_eof lx = false).
Proof.
  unfold check_newline. cbn [all_valid]. intros H.
  inv_bind H. rename a into lx2.
  apply skip_blanks_props in Ha as (B1 & B2 & B3 & B4).
  destruct (lookahead lx2 =? ch_lf) eqn:Hlf.
  { assert (He : is_eof lx2 = false)
      by (eapply lookahead_is; [exact Hlf | discriminate]).
    injection H as <- <-.
    assert (P1 : (remaining (advance lx2) < remaining lx2)%nat).
    { destruct lx2 as [[|c r0] col t m]; [discriminate|].
      unfold remaining, advance; simpl; lia. }
    pose proof (advance_remaining (advance lx2)) as P2.
    destruct (lookahead (advance lx2) =? ch_cr).
    - split; [intros HL; apply ends_lf_advance, ends_lf_advance, B1, HL|].
      split; [rewrite !marked_advance; exact B2|].
      split; [intros _; left; lia | discriminate].
    - split; [intros HL; apply ends_lf_advance, B1, HL|].
      split; [rewrite marked_advance; exact B2|].
      split; [intros _; left; lia | discriminate]. }
  destruct (lookahead lx2 =? ch_cr) eqn:Hcr.
  { assert (He : is_eof lx2 = false)
      by (eapply lookahead_is; [exact Hcr | discriminate]).
    injection H as <- <-.
    assert (P1 : (remaining (advance lx2) < remaining lx2)%nat).
    { destruct lx2 as [[|c r0] col t m]; [discriminate|].
      unfold remaining, advance; simpl; lia. }
    pose proof (advance_remaining (advance lx2)) as P2.
    destruct (lookahead (advance lx2) =? ch_lf).
    - split; [intros HL; apply ends_lf_advance, ends_lf_advance, B1, HL|].
      split; [rewrite !marked_advance; exact B2|].
      split; [intros _; left; lia | discriminate].
    - split; [intros HL; apply ends_lf_advance, B1, HL|].
      split; [rewrite marked_advance; exact B2|].
      split; [intros _; left; lia | discriminate]. }
  destruct (is_eof lx2) eqn:He; injection H as <- <-.
  - split; [exact B1|]. split; [exact B2|]. split; [|discriminate].
    intros _.
    destruct (Nat.eq_dec (remaining lx2) (remaining lx)) as [Heq|Hne].
    + right. rewrite (B4 Heq) in *. split; [reflexivity | exact He].
    + left. lia.
  - split; [exact B1|]. split; [exact B2|]. split; [discriminate|].
    intros _.
    destruct (is_eof lx) eqn:He0; [|reflexivity].
    assert (Heq : remaining lx2 = remaining lx).
    { unfold remaining, is_eof in *.
      destruct (rest lx) eqn:Hr; [|discriminate].
      try rewrite Hr in B3. simpl in *. lia. }
    rewrite (B4 Heq) in He. congruence.
Qed.

Lemma check_newline_content (lx : TSLexer) (v : ValidSymbols) :
  is_eof lx = false ->
  (lookahead lx =? ch_space) = false -> (lookahead lx =? ch_tab) = false ->
  (lookahead lx =? ch_lf) = false -> (lookahead lx =? ch_cr) = false ->
  exists lx', check_newline lx v = Ok (None, lx').
Proof.
  intros He Hs Ht Hlf Hcr. unfold check_newline, fuel_of.
  destruct (v NEWLINE); [|eauto].
  cbn [skip_blanks]. rewrite Hs, Ht. cbn [orb]. res_simpl.
  rewrite Hlf, Hcr, He. eauto.
Qed.

Lemma at_content_cursor (s : Scanner) (indent : Z) (lx : TSLexer)
  (v : ValidSymbols) (e : Exit) (s' : Scanner) (lx' : TSLexer) :
  at_content s indent lx v = Ok (e, s', lx') ->
  (is_eof lx = true /\ lx' = lx /\ exists r, e = Return r) \/
  (is_eof lx = false /\ lx' = mark_end lx).
Proof.
  unfold at_content. intros H. destruct (is_eof lx).
  - left. destruct (_ && _); injection H as <- <- <-; eauto.
  - right. split; [reflexivity|]. inv_bind H.
    destruct (_ && v INDENT); [inv_bind H; congruence|].
    destruct (_ && v DEDENT); [|congruence].
    inv_bind H. destruct a0 as [s1 c1]. destruct (0 <? c1); congruence.
Qed.

Lemma at_content_indent (s : Scanner) (indent : Z) (lx : TSLexer)
  (v : ValidSymbols) (s' : Scanner) (lx' : TSLexer) :
  scan_inv s ->
  at_content s indent lx v = Ok (Return (Some INDENT), s', lx') ->
  0 < indent.
Proof.
  intros ((Hlen & Hall & _) & Hd & _) H. unfold at_content in H.
  destruct (is_eof lx).
  { destruct (_ && _); discriminate. }
  inv_bind H. unfold read_stack in Ha.
  destruct (in_bounds (indent_depth s - 1)); [|discriminate].
  injection Ha as <-.
  assert (Hr : is_u16 (indent_stack s !!! Z.to_nat (indent_depth s - 1))).
  { apply Forall_lookup_total_1; [exact Hall|].
    rewrite Hlen. unfold MAX_INDENT_DEPTH in *. lia. }
  unfold is_u16 in Hr.
  destruct (_ <? indent) eqn:Hlt.
  - apply Z.ltb_lt in Hlt. lia.
  - cbn [andb] in H. destruct (_ && v DEDENT); [|discriminate].
    inv_bind H. destruct a as [s1 c1]. destruct (0 <? c1); discriminate.
Qed.

(** One call of a run moves the cursor forward, or stays and lowers
    [indent_depth + pending_dedents]; it declines at end of input only at
    depth 1. *)
Lemma scan_progress (s : Scanner) (lx : TSLexer)
  (r : option TokenType) (s' : Scanner) (lx' : TSLexer) :
  scan_inv s -> marked lx = None -> ends_lf lx ->
  scan s lx all_valid = Ok (r, s', lx') ->
  match r with
  | Some _ =>
      ends_lf (token_end lx') /\
      ((remaining (token_end lx') < remaining lx)%nat \/
       ((remaining (token_end lx') <= remaining lx)%nat /\
        indent_depth s' + pending_dedents s'
          < indent_depth s + pending_dedents s))
  | None => is_eof lx = true -> indent_depth s = 1
  end.
Proof.
  intros Hinv Hm HL H.
  pose proof (scan_all_valid_step s lx r s' lx' Hinv Hm H) as (Hsum & _ & _).
  pose proof Hinv as ((Hlen & Hall & Hd16 & Hp16) & Hd & Hpp).
  unfold is_u16 in *. unfold scan in H. cbn [all_valid] in H.
  rewrite andb_true_r in H.
  destruct (0 <? pending_dedents s) eqn:Hp.
  { injection H as <- <- <-. unfold token_end. rewrite Hm.
    split; [exact HL|]. right. split; [unfold remaining; simpl; lia|].
    simpl in Hsum |- *. lia. }
  inv_bind H. destruct a as [[e s1] lx1].
  unfold before_newline in Ha. cbn [all_valid orb] in Ha.
  rewrite andb_true_r in Ha.
  destruct (Nat.eqb (get_column lx) 0) eqn:Hcol.
  - unfold line_start in Ha. inv_bind Ha. destruct a as [indent lx0].
    apply next_line_props in Ha0 as (N1 & N2 & N3 & N4 & N5 & N6 & N7).
    rewrite Hm in N2. specialize (N1 HL).
    pose proof (at_content_cursor _ _ _ _ _ _ _ Ha) as Hcur.
    destruct e as [r0|].
    + injection H as -> -> ->.
      destruct r as [t|].
      * assert (Hte : token_end lx' = lexer_at (rest lx0) (column lx0)).
        { destruct Hcur as [(_ & -> & _) | (_ & ->)]; unfold token_end;
            [rewrite N2|]; reflexivity. }
        rewrite Hte. split; [exact N1|].
        destruct t.
        -- left. apply at_content_indent in Ha; [|exact Hinv].
           unfold remaining in *. simpl.
           destruct (Nat.eq_dec (length (rest lx0)) (length (rest lx)))
             as [Heq|Hne]; [|lia].
           specialize (N4 Heq). lia.
        -- right. split; [exact N3|]. simpl in Hsum. lia.
        -- exfalso. unfold at_content in Ha. destruct (is_eof lx0).
           { destruct (_ && _); discriminate. }
           inv_bind Ha.
           destruct (_ && all_valid INDENT); [inv_bind Ha; discriminate|].
           destruct (_ && all_valid DEDENT); [|discriminate].
           inv_bind Ha. destruct a0 as [s2 c2].
           destruct (0 <? c2); discriminate.
      * intros He. destruct Hcur as [(He0 & _ & _) | (He0 & _)].
        -- unfold at_content in Ha. rewrite He0 in Ha.
           destruct (1 <? indent_depth s) eqn:H1; cbn [all_valid andb] in Ha;
             [discriminate|].
           apply Z.ltb_ge in H1. lia.
        -- exfalso. unfold is_eof, remaining in *.
           destruct (rest lx); [|discriminate].
           destruct (rest lx0); [discriminate | simpl in N3; lia].
    + destruct Hcur as [(_ & _ & r0 & Hr0) | (He0 & ->)]; [discriminate|].
      destruct N7 as [N7 | [N7 N8]]; [congruence|].
      destruct (check_newline_content (mark_end lx0) all_valid)
        as (lx2 & Hcn); try assumption.
      rewrite Hcn in H. res_simpl in H. injection H as <- <- <-.
      intros He. exfalso. unfold is_eof, remaining in *.
      destruct (rest lx); [|discriminate].
      destruct (rest lx0); [discriminate | simpl in N3; lia].
  - injection Ha as <- <- <-.
    inv_bind H. destruct a as [r1 lx2]. injection H as -> <- ->.
    pose proof (check_newline_result _ _ _ _ Ha) as Hres.
    apply check_newline_props in Ha as (K1 & K2 & K3 & K4).
    assert (Hne : is_eof lx = false).
    { unfold ends_lf in HL. unfold is_eof. unfold get_column in Hcol.
      destruct (rest lx); [|reflexivity].
      rewrite HL in Hcol. discriminate. }
    destruct r as [t|].
    + assert (Hte : token_end lx' = lexer_at (rest lx') (column lx')).
      { unfold token_end. rewrite K2, Hm. reflexivity. }
      rewrite Hte. split; [exact (K1 HL)|].
      left.
      destruct (Hres) as [Ht | Ht]; [|discriminate].
      destruct (K3 Ht) as [Hlt | [_ He]]; [exact Hlt | congruence].
    + intros He. congruence.
Qed.
Lemma drive_ends_aux (fuel : nat) :
  forall (s : Scanner) (lx : TSLexer),
    scan_inv s -> ends_lf lx ->
    (run_measure s lx < fuel)%nat ->
    exists tr, drive fuel s lx = Ok tr.
Proof.
  induction fuel as [|f IH]; intros s lx Hinv HL Hf; [lia|].
  cbn [drive].
  destruct (is_eof lx && (indent_depth s =? 1)) eqn:Hstop; [eauto|].
  pose proof Hinv as ((_ & _ & Hd16 & Hp16) & Hd & Hpp).
  destruct (scan_returns s (start_token lx) all_valid Hd)
    as (r & s' & lx' & Hscan).
  rewrite Hscan. res_simpl.
  pose proof (scan_inv_preserved _ _ _ _ _ _ Hinv Hscan) as Hinv'.
  pose proof Hinv' as ((_ & _ & Hd16' & Hp16') & Hd' & Hpp').
  pose proof (scan_progress s (start_token lx) r s' lx' Hinv eq_refl HL Hscan)
    as Hprog.
  pose proof (scan_all_valid_step s (start_token lx) r s' lx' Hinv eq_refl
                Hscan) as (Hsum & _ & _).
  unfold is_u16, MAX_INDENT_DEPTH, run_measure in *.
  change (remaining (start_token lx)) with (remaining lx) in Hprog.
  change (is_eof (start_token lx)) with (is_eof lx) in Hprog.
  destruct r as [t|].
  - destruct Hprog as (HL' & Hstep).
    destruct (IH s' (token_end lx') Hinv' HL') as (tr & ->);
      [destruct Hstep as [Hlt | [Hle Hlt]]; lia|].
    res_simpl. eauto.
  - assert (He : is_eof lx = false).
    { destruct (is_eof lx) eqn:He; [|reflexivity].
      specialize (Hprog eq_refl). rewrite Hprog in Hstop. discriminate. }
    apply IH; [exact Hinv'| |].
    + unfold content_step, token_end. rewrite marked_advance.
      apply (ends_lf_advance (start_token lx)) in HL.
      exact HL.
    + assert (Hlt : (remaining (content_step lx) < remaining lx)%nat).
      { unfold content_step, token_end. rewrite marked_advance.
        destruct lx as [[|c r0] col t m]; [discriminate|].
        unfold remaining; simpl; lia. }
      simpl in Hsum. lia.
Qed.

(** Over a document that is empty or ends with LF the run ends: with
    enough fuel [drive] returns its emissions. *)
Lemma drive_ends (doc : list Z) :
  ends_lf (text_of doc) ->
  exists fuel tr, drive fuel create (text_of doc) = Ok tr.
Proof.
  intros HL. exists (S (run_measure create (text_of doc))).
  apply drive_ends_aux; [apply create_inv | exact HL | lia].
Qed.

(** ** Runs over concrete documents *)



Lemma deep_doc_counts :
  (ts ← run (60 * 100)%nat deep_doc;
   Ok (count_token INDENT ts, count_token DEDENT ts)) = Ok (100%nat, 99%nat).
Proof. vm_compute. reflexivity. Qed.

(** The run over four ways of writing lines of the widths 0, 4, 8, 4, 0
    (spaces and LF, tabs, CR LF, no terminator behind the last line),
    evaluated. *)
Lemma run_0_4_8_4_0_examples :
  run 64 doc_spaces
    = Ok [NEWLINE; INDENT; NEWLINE; INDENT; NEWLINE;
          DEDENT; NEWLINE; DEDENT; NEWLINE] /\
  structural_run 64 doc_spaces = Ok [INDENT; INDENT; DEDENT; DEDENT] /\
  structural_run 64 doc_tabs = Ok [INDENT; INDENT; DEDENT; DEDENT] /\
  structural_run 64 doc_crlf = Ok [INDENT; INDENT; DEDENT; DEDENT] /\
  structural_run 64 doc_open_end = Ok [INDENT; INDENT; DEDENT; DEDENT].
Proof.
  split; [vm_compute; reflexivity|].
  split; [vm_compute; reflexivity|].
  split; [vm_compute; reflexivity|].
  split; vm_compute; reflexivity.
Qed.

(** A run need not end: at end of input behind an unterminated line, with
    a block still open, every call answers NEWLINE and the depth stays. *)
Lemma drive_may_not_end (fuel : nat) :
  drive fuel (mkScanner (indent_stack create) 2 0) (lexer_at [] 1) = OutOfFuel.
Proof.
  induction fuel as [|f IH]; [reflexivity|].
  cbn [drive].
  change (is_eof (lexer_at [] 1) &&
          (indent_depth (mkScanner (indent_stack create) 2 0) =? 1))
    with false. cbv iota.
  replace (scan (mkScanner (indent_stack create) 2 0)
             (start_token (lexer_at [] 1)) all_valid)
    with (Ok (Some NEWLINE, mkScanner (indent_stack create) 2 0,
              lexer_at [] 1) : Res (option TokenType * Scanner * TSLexer))
    by (vm_compute; reflexivity).
  res_simpl. change (token_end (lexer_at [] 1)) with (lexer_at [] 1).
  rewrite IH. reflexivity.
Qed.

(** * Further properties of the scanner *)

(** ** What a call does to the state *)

Lemma at_content_effect (s : Scanner) (indent : Z) (lx : TSLexer)
  (v : ValidSymbols) (e : Exit) (s' : Scanner) (lx' : TSLexer) :
  scan_inv s ->
  (v DEDENT = true -> pending_dedents s = 0) ->
  at_content s indent lx v = Ok (e, s', lx') ->
  match e with
  | Return r =>
      r <> Some NEWLINE /\
      indent_depth s' + pending_dedents s'
        = indent_depth s + pending_dedents s + delta s r /\
      (forall j : nat, Z.of_nat j < indent_depth s ->
                       indent_stack s' !!! j = indent_stack s !!! j)
  | Break => s' = s
  end.
Proof.
  intros ((Hlen & Hall & Hd16 & Hp16) & Hd & Hpp) Hp0 H.
  unfold at_content, is_u16, MAX_INDENT_DEPTH in *.
  destruct (is_eof lx) eqn:He.
  { destruct ((1 <? indent_depth s) && v DEDENT) eqn:Hc;
      injection H as <- <- <-; simpl.
    - apply andb_true_iff in Hc as [H1 Hv]. apply Z.ltb_lt in H1.
      rewrite u16_small by lia. repeat split; [discriminate | lia].
    - repeat split; [discriminate | lia]. }
  inv_bind H.
  destruct ((a <? indent) && v INDENT) eqn:Hgt.
  { inv_bind H. injection H as <- <- <-. unfold delta, MAX_INDENT_DEPTH.
    split; [discriminate|].
    destruct (indent_depth s <? 100) eqn:Hlt.
    - inv_bind Ha0. injection Ha0 as <-.
      unfold write_stack in Ha1. destruct (in_bounds _); [|discriminate].
      injection Ha1 as <-. apply Z.ltb_lt in Hlt. simpl.
      rewrite u16_small by lia. split; [lia|].
      intros j Hj. apply list_lookup_total_insert_ne. lia.
    - injection Ha0 as <-. split; [lia | reflexivity]. }
  destruct ((indent <? a) && v DEDENT) eqn:Hlt.
  2:{ injection H as <- <- <-. reflexivity. }
  apply andb_true_iff in Hlt as [_ Hv]. specialize (Hp0 Hv).
  inv_bind H. destruct a0 as [s1 c1].
  apply pop_levels_spec in Ha0; [|lia|unfold MAX_INDENT_DEPTH; lia].
  destruct Ha0 as (H1 & H2 & H3 & H4 & H5).
  destruct (0 <? c1) eqn:Hc; injection H as <- <- <-.
  - apply Z.ltb_lt in Hc. specialize (H5 Hc).
    unfold MAX_INDENT_DEPTH in H5. simpl.
    rewrite u16_small by lia. split; [discriminate|]. split; [lia|].
    intros j _. rewrite H1. reflexivity.
  - apply Z.ltb_ge in Hc.
    apply scanner_eq; [assumption | lia | assumption].
Qed.

Lemma scan_effect_aux (s : Scanner) (lx : TSLexer) (v : ValidSymbols)
  (r : option TokenType) (s' : Scanner) (lx' : TSLexer) :
  scan_inv s ->
  scan s lx v = Ok (r, s', lx') ->
  indent_depth s' + pending_dedents s'
    = indent_depth s + pending_dedents s + delta s r /\
  (forall j : nat, Z.of_nat j < indent_depth s ->
                   indent_stack s' !!! j = indent_stack s !!! j) /\
  (r = Some NEWLINE -> s' = s).
Proof.
  intros Hinv H.
  pose proof Hinv as ((Hlen & Hall & Hd16 & Hp16) & Hd & Hpp).
  unfold is_u16 in *. unfold scan in H.
  destruct ((0 <? pending_dedents s) && v DEDENT) eqn:Hp.
  { apply andb_true_iff in Hp as [Hp _]. apply Z.ltb_lt in Hp.
    injection H as <- <- <-. simpl. rewrite u16_small by lia.
    split; [lia|]. split; [reflexivity | discriminate]. }
  assert (Hp0 : v DEDENT = true -> pending_dedents s = 0).
  { intros Hv. rewrite Hv, andb_true_r in Hp. apply Z.ltb_ge in Hp. lia. }
  inv_bind H. destruct a as [[e s1] lx1].
  assert (He : match e with
               | Return r0 =>
                   r0 <> Some NEWLINE /\
                   indent_depth s1 + pending_dedents s1
                     = indent_depth s + pending_dedents s + delta s r0 /\
                   (forall j : nat, Z.of_nat j < indent_depth s ->
                        indent_stack s1 !!! j = indent_stack s !!! j)
               | Break => s1 = s
               end).
  { unfold before_newline, line_start in Ha.
    destruct (Nat.eqb (get_column lx) 0 && (v INDENT || v DEDENT)).
    - inv_bind Ha. destruct a as [indent lx0].
      eapply at_content_effect; eassumption.
    - injection Ha as <- <- <-. reflexivity. }
  destruct e as [r0|].
  - injection H as <- <- <-. destruct He as (Hn & Hsum & Hfr).
    split; [exact Hsum|]. split; [exact Hfr | congruence].
  - subst s1. inv_bind H. destruct a as [r1 lx2]. injection H as <- <- <-.
    apply check_newline_result in Ha0 as [-> | ->]; simpl;
      (split; [lia|]; split; reflexivity).
Qed.

(** X3.  On a state within the invariant, whatever kinds are requested, a
    call that returns DEDENT lowers [indent_depth + pending_dedents] by
    exactly one, a call that returns INDENT raises it by one (by nothing at
    depth 100), any other call leaves it; and no call changes a stack entry
    below the depth it started from. *)
Theorem scan_token_effect (s : Scanner) (lx : TSLexer) (v : ValidSymbols)
  (r : option TokenType) (s' : Scanner) (lx' : TSLexer) :
  scan_inv s ->
  scan s lx v = Ok (r, s', lx') ->
  indent_depth s' + pending_dedents s'
    = indent_depth s + pending_dedents s + delta s r /\
  (forall j : nat, Z.of_nat j < indent_depth s ->
                   indent_stack s' !!! j = indent_stack s !!! j).
Proof.
  intros Hinv H.
  destruct (scan_effect_aux s lx v r s' lx' Hinv H) as (H1 & H2 & _).
  split; assumption.
Qed.

Lemma scan_token_effect_witness :
  indent_depth after_double_dedent + (pending_dedents after_double_dedent - 1)
    = indent_depth after_double_dedent + pending_dedents after_double_dedent
      + delta after_double_dedent (Some DEDENT) /\
  (forall j : nat, Z.of_nat j < indent_depth after_double_dedent ->
     indent_stack after_double_dedent !!! j
       = indent_stack after_double_dedent !!! j).
Proof.
  apply (scan_token_effect after_double_dedent (text_of [120]) all_valid
           (Some DEDENT)
           (mkScanner (indent_stack after_double_dedent)
              (indent_depth after_double_dedent)
              (pending_dedents after_double_dedent - 1))
           (text_of [120])).
  - unfold scan_inv, wf_scanner, is_u16, MAX_INDENT_DEPTH.
    split; [|simpl; lia]. split; [reflexivity|].
    split; [|simpl; lia].
    apply (bool_decide_unpack (Forall (fun z => 0 <= z < 65536) _)).
    vm_compute. exact I.
  - vm_compute. reflexivity.
Defined.

(** X14.  A call that returns NEWLINE leaves the scanner state as it was,
    for every state, cursor and set of requested kinds. *)
Theorem newline_keeps_state (s : Scanner) (lx : TSLexer) (v : ValidSymbols)
  (s' : Scanner) (lx' : TSLexer) :
  scan s lx v = Ok (Some NEWLINE, s', lx') -> s' = s.
Proof.
  unfold scan. intros H.
  destruct ((0 <? pending_dedents s) && v DEDENT); [discriminate|].
  inv_bind H. destruct a as [[e s1] lx1].
  destruct e as [r0|].
  - exfalso. injection H as -> <- <-.
    unfold before_newline, line_start in Ha.
    destruct (Nat.eqb (get_column lx) 0 && (v INDENT || v DEDENT));
      [|discriminate].
    inv_bind Ha. destruct a as [indent lx0].
    unfold at_content in Ha. destruct (is_eof lx0).
    { destruct (_ && _); discriminate. }
    inv_bind Ha.
    destruct (_ && v INDENT); [inv_bind Ha; discriminate|].
    destruct (_ && v DEDENT); [|discriminate].
    inv_bind Ha. destruct a0 as [s2 c2]. destruct (0 <? c2); discriminate.
  - inv_bind H. destruct a as [r lx2]. injection H as _ <- _.
    eapply before_newline_keeps; [eassumption | right; reflexivity].
Qed.

Lemma newline_keeps_state_witness :
  mkScanner (<[1%nat := 4]> (indent_stack create)) 2 0
    = mkScanner (<[1%nat := 4]> (indent_stack create)) 2 0.
Proof.
  apply (newline_keeps_state
           (mkScanner (<[1%nat := 4]> (indent_stack create)) 2 0)
           (lexer_at [ch_space; ch_cr; ch_lf; 120] 5) all_valid
           (mkScanner (<[1%nat := 4]> (indent_stack create)) 2 0)
           (mkLexer [120] 0 [ch_cr; ch_lf] None)).
  vm_compute. reflexivity.
Defined.

Lemma at_content_bounds (s : Scanner) (indent : Z) (lx : TSLexer)
  (v : ValidSymbols) (e : Exit) (s' : Scanner) (lx' : TSLexer) :
  wf_scanner s -> 1 <= indent_depth s <= MAX_INDENT_DEPTH ->
  is_u16 indent ->
  at_content s indent lx v = Ok (e, s', lx') ->
  wf_scanner s' /\ 1 <= indent_depth s' <= MAX_INDENT_DEPTH /\
  pending_dedents s' <= Z.max (pending_dedents s) (MAX_INDENT_DEPTH - 2).
Proof.
  intros Hwf Hd Hi H.
  destruct e as [[t|]|];
    try (apply at_content_keeps in H as ->;
         [split; [exact Hwf | split; [exact Hd | lia]] | tauto]).
  destruct Hwf as (Hlen & Hall & Hd16 & Hp16).
  unfold at_content, is_u16, MAX_INDENT_DEPTH in *.
  destruct (is_eof lx).
  { destruct (_ && _) eqn:Hc; [|discriminate]. injection H as <- <- <-.
    apply andb_true_iff in Hc as [Hc _]. apply Z.ltb_lt in Hc.
    unfold wf_scanner, is_u16, MAX_INDENT_DEPTH; simpl.
    rewrite u16_small by lia.
    split; [split; [assumption | split; [assumption | lia]] | lia]. }
  inv_bind H.
  destruct (_ && v INDENT).
  { inv_bind H. injection H as <- <- <-.
    destruct (indent_depth s <? 100) eqn:Hlt.
    - apply Z.ltb_lt in Hlt. inv_bind Ha0. injection Ha0 as <-.
      unfold write_stack in Ha1. destruct (in_bounds _); [|discriminate].
      injection Ha1 as <-.
      unfold wf_scanner, is_u16, MAX_INDENT_DEPTH; simpl.
      rewrite u16_small by lia. rewrite length_insert.
      split; [|lia]. split; [assumption|].
      split; [apply Forall_insert; assumption | lia].
    - injection Ha0 as <-.
      unfold wf_scanner, is_u16, MAX_INDENT_DEPTH.
      split; [|lia]. split; [assumption|]. split; [assumption | lia]. }
  destruct (_ && v DEDENT); [|discriminate].
  inv_bind H. destruct a0 as [s1 c1].
  destruct (0 <? c1) eqn:Hc; [|discriminate].
  apply Z.ltb_lt in Hc. injection H as <- <- <-.
  apply pop_levels_spec in Ha0; [|lia|lia].
  destruct Ha0 as (H1 & H2 & H3 & H4 & H5).
  specialize (H5 Hc).
  unfold wf_scanner, is_u16, MAX_INDENT_DEPTH in *; simpl.
  rewrite u16_small by lia. rewrite H1.
  split; [|lia]. split; [assumption|]. split; [assumption | lia].
Qed.

(** X1.  On every state of the struct (100 entries of 16 bits, two 16-bit
    counters) whose depth lies between 1 and 100, whatever
    [pending_dedents] holds, every call returns: no access leaves the
    array and no loop runs on.  The state it leaves is such a state again,
    and its [pending_dedents] is at most the larger of 98 and the value
    before the call. *)
Theorem scan_in_bounds_returns (s : Scanner) (lx : TSLexer)
  (v : ValidSymbols) :
  wf_scanner s ->
  1 <= indent_depth s <= MAX_INDENT_DEPTH ->
  exists r s' lx',
    scan s lx v = Ok (r, s', lx') /\
    wf_scanner s' /\
    1 <= indent_depth s' <= MAX_INDENT_DEPTH /\
    pending_dedents s' <= Z.max (pending_dedents s) (MAX_INDENT_DEPTH - 2).
Proof.
  intros Hwf Hd.
  destruct (scan_returns s lx v Hd) as (r & s' & lx' & H).
  exists r, s', lx'. split; [exact H|].
  unfold scan in H.
  destruct ((0 <? pending_dedents s) && v DEDENT) eqn:Hp.
  { injection H as <- <- <-.
    apply andb_true_iff in Hp as [Hp _]. apply Z.ltb_lt in Hp.
    destruct Hwf as (Hlen & Hall & Hd16 & Hp16).
    unfold wf_scanner, is_u16, MAX_INDENT_DEPTH in *; simpl.
    rewrite u16_small by lia.
    split; [|lia]. split; [assumption|]. split; [assumption | lia]. }
  inv_bind H. destruct a as [[e s1] lx1].
  assert (Hs1 : wf_scanner s1 /\ 1 <= indent_depth s1 <= MAX_INDENT_DEPTH /\
                pending_dedents s1
                  <= Z.max (pending_dedents s) (MAX_INDENT_DEPTH - 2)).
  { unfold before_newline, line_start in Ha.
    destruct (Nat.eqb (get_column lx) 0 && (v INDENT || v DEDENT)).
    2:{ injection Ha as <- <- <-.
        split; [exact Hwf | split; [exact Hd | lia]]. }
    inv_bind Ha. destruct a as [indent lx0].
    destruct (next_line_ok (fuel_of lx) lx) as (i & lx2 & Heq & Hi & _);
      [unfold fuel_of, remaining; lia|].
    rewrite Heq in Ha0. injection Ha0 as <- <-.
    eapply at_content_bounds; eassumption. }
  destruct e.
  - injection H as <- <- <-. exact Hs1.
  - inv_bind H. destruct a as [r1 lx2]. injection H as <- <- <-. exact Hs1.
Qed.

(** A state with 99 owed dedents, more than any call leaves behind. *)
Lemma scan_in_bounds_returns_witness :
  exists r s' lx',
    scan (mkScanner (indent_stack full_scanner) 3 99)
         (text_of (line 3)) all_valid = Ok (r, s', lx') /\
    wf_scanner s' /\
    1 <= indent_depth s' <= MAX_INDENT_DEPTH /\
    pending_dedents s'
      <= Z.max (pending_dedents (mkScanner (indent_stack full_scanner) 3 99))
               (MAX_INDENT_DEPTH - 2).
Proof.
  apply (scan_in_bounds_returns
           (mkScanner (indent_stack full_scanner) 3 99)
           (text_of (line 3)) all_valid).
  - unfold wf_scanner, is_u16.
    split; [reflexivity|]. split; [|simpl; lia].
    apply (bool_decide_unpack (Forall (fun z => 0 <= z < 65536) _)).
    vm_compute. exact I.
  - unfold MAX_INDENT_DEPTH; simpl; lia.
Defined.

(** ** The stack stays in order *)

Lemma sorted_stack_shrink (s s' : Scanner) :
  sorted_stack s ->
  indent_stack s' = indent_stack s ->
  indent_depth s' <= indent_depth s ->
  sorted_stack s'.
Proof.
  intros [H0 Hs] Hst Hd. unfold sorted_stack. rewrite Hst.
  split; [exact H0|]. intros i Hi Hlt. apply Hs; lia.
Qed.

Lemma at_content_sorted (s : Scanner) (indent : Z) (lx : TSLexer)
  (v : ValidSymbols) (e : Exit) (s' : Scanner) (lx' : TSLexer) :
  scan_inv s -> sorted_stack s ->
  at_content s indent lx v = Ok (e, s', lx') ->
  sorted_stack s'.
Proof.
  intros Hinv Hsorted H.
  pose proof Hinv as ((Hlen & Hall & Hd16 & Hp16) & Hd & Hpp).
  unfold at_content, is_u16, MAX_INDENT_DEPTH in *.
  destruct (is_eof lx).
  { destruct ((1 <? indent_depth s) && v DEDENT) eqn:Hc;
      injection H as <- <- <-; [|exact Hsorted].
    apply andb_true_iff in Hc as [H1 _]. apply Z.ltb_lt in H1.
    apply (sorted_stack_shrink s); [exact Hsorted | reflexivity|].
    simpl. rewrite u16_small by lia. lia. }
  inv_bind H. unfold read_stack in Ha.
  destruct (in_bounds (indent_depth s - 1)); [|discriminate].
  injection Ha as <-.
  destruct ((_ <? indent) && v INDENT) eqn:Hgt.
  { inv_bind H. injection H as <- <- <-.
    apply andb_true_iff in Hgt as [Hgt _]. apply Z.ltb_lt in Hgt.
    destruct (indent_depth s <? 100) eqn:Hlt.
    2:{ injection Ha as <-. exact Hsorted. }
    apply Z.ltb_lt in Hlt. inv_bind Ha. injection Ha as <-.
    unfold write_stack in Ha0. destruct (in_bounds _); [|discriminate].
    injection Ha0 as <-. destruct Hsorted as [H0 Hs].
    unfold sorted_stack. simpl. rewrite u16_small by lia.
    split.
    - rewrite list_lookup_total_insert_ne by lia. exact H0.
    - intros i Hi Hilt.
      destruct (decide (i = Z.to_nat (indent_depth s))) as [->|Hne].
      + rewrite list_lookup_total_insert_eq by lia.
        rewrite list_lookup_total_insert_ne by lia.
        replace (Z.to_nat (indent_depth s) - 1)%nat
          with (Z.to_nat (indent_depth s - 1)) by lia.
        exact Hgt.
      + rewrite !list_lookup_total_insert_ne by lia. apply Hs; lia. }
  destruct ((indent <? _) && v DEDENT); [|injection H as <- <- <-; exact Hsorted].
  inv_bind H. destruct a as [s1 c1].
  apply pop_levels_spec in Ha; [|lia|unfold MAX_INDENT_DEPTH; lia].
  destruct Ha as (H1 & H2 & H3 & H4 & H5).
  assert (Hs1 : sorted_stack s1)
    by (apply (sorted_stack_shrink s); [exact Hsorted | exact H1 | lia]).
  destruct (0 <? c1); injection H as <- <- <-; exact Hs1.
Qed.

Lemma scan_sorted (s : Scanner) (lx : TSLexer) (v : ValidSymbols)
  (r : option TokenType) (s' : Scanner) (lx' : TSLexer) :
  scan_inv s -> sorted_stack s ->
  scan s lx v = Ok (r, s', lx') -> sorted_stack s'.
Proof.
  intros Hinv Hsorted H. unfold scan in H.
  destruct ((0 <? pending_dedents s) && v DEDENT).
  { injection H as <- <- <-. exact Hsorted. }
  inv_bind H. destruct a as [[e s1] lx1].
  assert (Hs1 : sorted_stack s1).
  { unfold before_newline, line_start in Ha.
    destruct (Nat.eqb (get_column lx) 0 && (v INDENT || v DEDENT));
      [|injection Ha as <- <- <-; exact Hsorted].
    inv_bind Ha. destruct a as [indent lx0].
    eapply at_content_sorted; eassumption. }
  destruct e.
  - injection H as <- <- <-. exact Hs1.
  - inv_bind H. destruct a as [r1 lx2]. injection H as <- <- <-. exact Hs1.
Qed.

Lemma create_sorted : sorted_stack create.
Proof.
  split; [reflexivity|]. intros i Hi Hlt. simpl in Hlt. lia.
Qed.

(** X2.  In every state reached from [create] the bottom entry of the stack
    is 0 and each entry below the depth is strictly wider than the entry
    under it. *)
Theorem reachable_stack_sorted (s : Scanner) :
  reachable s -> sorted_stack s.
Proof.
  induction 1 as [|s lx v r s' lx' Hr IH H].
  - apply create_sorted.
  - eapply scan_sorted; [apply reachable_inv; exact Hr | exact IH | exact H].
Qed.

Lemma reachable_stack_sorted_witness : sorted_stack after_double_dedent.
Proof.
  apply (reachable_stack_sorted after_double_dedent).
  eapply (reach_scan _ (text_of [120]) all_valid).
  - eapply (reach_scan _ (text_of [32; 32; 32; 32; 120]) all_valid).
    + eapply (reach_scan _ (text_of [32; 32; 120]) all_valid).
      * apply reach_create.
      * vm_compute. reflexivity.
    + vm_compute. reflexivity.
  - vm_compute. reflexivity.
Defined.

(** ** Any sequence of calls *)

(** X4.  Over any sequence of calls from a state within the invariant,
    whatever the cursors and the requested kinds: the DEDENT tokens returned,
    plus the INDENT tokens returned at depth 100, plus the final
    [indent_depth + pending_dedents], equal the INDENT tokens returned plus
    the initial [indent_depth + pending_dedents]. *)
Theorem scan_calls_balance (calls : list (TSLexer * ValidSymbols)) :
  forall (s : Scanner) (tr : list Emission) (s' : Scanner),
    scan_inv s ->
    scan_calls calls s = Ok (tr, s') ->
    Z.of_nat (count_token DEDENT (tokens_of tr))
      + Z.of_nat (capped_indents tr)
      + (indent_depth s' + pending_dedents s')
    = Z.of_nat (count_token INDENT (tokens_of tr))
      + (indent_depth s + pending_dedents s).
Proof.
  induction calls as [|[lx v] calls IH]; intros s tr s' Hinv H.
  - injection H as <- <-.
    change (count_token DEDENT (tokens_of [])) with 0%nat.
    change (count_token INDENT (tokens_of [])) with 0%nat.
    change (capped_indents []) with 0%nat. lia.
  - cbn [scan_calls] in H. inv_bind H. destruct a as [[r s1] lx1].
    inv_bind H. destruct a as [tr1 s2]. injection H as <- <-.
    pose proof (scan_inv_preserved _ _ _ _ _ _ Hinv Ha) as Hinv1.
    destruct (scan_effect_aux _ _ _ _ _ _ Hinv Ha) as (Hsum & _ & _).
    specialize (IH s1 tr1 s2 Hinv1 Ha0).
    destruct r as [t|]; [|simpl in Hsum; lia].
    unfold tokens_of in *. cbn [map snd].
    rewrite !count_token_cons, capped_indents_cons.
    unfold capped. cbn [fst snd]. unfold delta, MAX_INDENT_DEPTH in *.
    destruct t.
    + rewrite bool_decide_eq_true_2 by reflexivity. cbn [andb].
      destruct (decide (INDENT = DEDENT)); [discriminate|].
      destruct (decide (INDENT = INDENT)); [|congruence].
      destruct (Z.ltb_spec (indent_depth s) 100);
        [replace (100 <=? indent_depth s) with false
           by (symmetry; apply Z.leb_gt; lia)
        |replace (100 <=? indent_depth s) with true
           by (symmetry; apply Z.leb_le; lia)]; lia.
    + rewrite bool_decide_eq_false_2 by discriminate. cbn [andb].
      destruct (decide (DEDENT = DEDENT)); [|congruence].
      destruct (decide (DEDENT = INDENT)); [discriminate|]. lia.
    + rewrite bool_decide_eq_false_2 by discriminate. cbn [andb].
      destruct (decide (NEWLINE = DEDENT)); [discriminate|].
      destruct (decide (NEWLINE = INDENT)); [discriminate|]. lia.
Qed.

Lemma scan_calls_balance_witness :
  Z.of_nat (count_token DEDENT (tokens_of
     [(create, INDENT);
      (mkScanner (<[1%nat := 3]> (indent_stack create)) 2 0, DEDENT)]))
    + Z.of_nat (capped_indents
     [(create, INDENT);
      (mkScanner (<[1%nat := 3]> (indent_stack create)) 2 0, DEDENT)])
    + (1 + 0)
  = Z.of_nat (count_token INDENT (tokens_of
     [(create, INDENT);
      (mkScanner (<[1%nat := 3]> (indent_stack create)) 2 0, DEDENT)]))
    + (indent_depth create + pending_dedents create).
Proof.
  apply (scan_calls_balance
           [(text_of (line 3), only_indent); (text_of [120], only_dedent)]
           create
           [(create, INDENT);
            (mkScanner (<[1%nat := 3]> (indent_stack create)) 2 0, DEDENT)]
           (mkScanner (<[1%nat := 3]> (indent_stack create)) 1 0)).
  - unfold scan_inv, wf_scanner, is_u16, MAX_INDENT_DEPTH.
    split; [|simpl; lia]. split; [reflexivity|].
    split; [|simpl; lia].
    apply (bool_decide_unpack (Forall (fun z => 0 <= z < 65536) _)).
    vm_compute. exact I.
  - vm_compute. reflexivity.
Defined.

(** ** Measuring a line *)

Lemma u16_add_l (a b : Z) : u16 (u16 a + b) = u16 (a + b).
Proof. unfold u16. apply Zplus_mod_idemp_l. Qed.

(** The raw width of a run of blanks, before it is cut to 16 bits. *)
Lemma raw_width_cons (c : Z) (blanks : list Z) :
  is_blank c ->
  Z.of_nat (length (filter (fun c => c = ch_space) (c :: blanks)))
    + 4 * Z.of_nat (length (filter (fun c => c = ch_tab) (c :: blanks)))
  = (if c =? ch_space then 1 else 4)
    + (Z.of_nat (length (filter (fun c => c = ch_space) blanks))
       + 4 * Z.of_nat (length (filter (fun c => c = ch_tab) blanks))).
Proof.
  intros [-> | ->]; rewrite !filter_cons; simpl.
  - destruct (decide (ch_space = ch_space)); [|congruence].
    destruct (decide (ch_space = ch_tab)); [discriminate|]. simpl length. lia.
  - destruct (decide (ch_tab = ch_space)); [discriminate|].
    destruct (decide (ch_tab = ch_tab)); [|congruence]. simpl length. lia.
Qed.

Lemma count_indent_blanks (blanks : list Z) :
  forall (fuel : nat) (indent : Z) (rest0 : list Z) (col : nat)
         (tok : list Z) (m : option (list Z * nat * list Z)),
    Forall is_blank blanks ->
    match rest0 with [] => True | c :: _ => ~ is_blank c end ->
    is_u16 indent ->
    (length (blanks ++ rest0) < fuel)%nat ->
    count_indent fuel indent (mkLexer (blanks ++ rest0) col tok m) =
      Ok (u16 (indent
               + (Z.of_nat (length (filter (fun c => c = ch_space) blanks))
                  + 4 * Z.of_nat (length (filter (fun c => c = ch_tab) blanks)))),
          mkLexer rest0 (col + length blanks)
                  (match blanks with [] => tok | _ :: _ => [] end) m).
Proof.
  induction blanks as [|c bl IH]; intros fuel indent rest0 col tok m Hb Hr Hi Hf.
  - destruct fuel as [|f]; [simpl in Hf; lia|].
    cbn [count_indent app].
    replace (col + length (@nil Z))%nat with col by (simpl; lia).
    change (Z.of_nat (length (filter (fun c => c = ch_space) (@nil Z)))
            + 4 * Z.of_nat (length (filter (fun c => c = ch_tab) (@nil Z))))
      with 0.
    rewrite Z.add_0_r, (u16_small indent) by exact Hi.
    destruct rest0 as [|c0 r0]; [reflexivity|].
    unfold is_eof, lookahead; cbn [rest negb andb].
    replace ((c0 =? ch_space) || (c0 =? ch_tab)) with false; [reflexivity|].
    symmetry. apply orb_false_iff. unfold is_blank in Hr.
    split; apply Z.eqb_neq; tauto.
  - destruct fuel as [|f]; [simpl in Hf; lia|].
    apply Forall_cons in Hb as [Hc Hbl].
    cbn [count_indent app]. unfold is_eof, lookahead; cbn [rest negb andb].
    replace ((c =? ch_space) || (c =? ch_tab)) with true
      by (symmetry; apply orb_true_iff; destruct Hc as [-> | ->];
          [left | right]; reflexivity).
    unfold skip; cbn [rest column marked].
    assert (Hnl : next_column c col = S col).
    { unfold next_column. destruct Hc as [-> | ->]; reflexivity. }
    rewrite Hnl.
    rewrite IH; try assumption.
    2:{ destruct (c =? ch_space); apply u16_range. }
    2:{ simpl in Hf. lia. }
    rewrite raw_width_cons by exact Hc.
    f_equal. f_equal.
    + destruct (c =? ch_space); rewrite u16_add_l; f_equal; lia.
    + f_equal; [simpl; lia | destruct bl; reflexivity].
Qed.

(** X8.  On a cursor that stands before blanks followed by a character
    that is not a blank (or by the end of input), the width counted is the
    number of spaces plus four times the number of tabs, modulo 65536; the
    cursor is left behind the blanks. *)
Theorem count_indent_width (blanks rest0 : list Z) (col : nat) :
  Forall is_blank blanks ->
  match rest0 with [] => True | c :: _ => ~ is_blank c end ->
  count_indent (fuel_of (lexer_at (blanks ++ rest0) col)) 0
               (lexer_at (blanks ++ rest0) col) =
    Ok (measured_width blanks,
        mkLexer rest0 (col + length blanks) [] None).
Proof.
  intros Hb Hr. unfold lexer_at, fuel_of, measured_width. cbn [rest].
  rewrite count_indent_blanks; try assumption;
    [|unfold is_u16; lia|lia].
  rewrite Z.add_0_l. f_equal. f_equal. destruct blanks; reflexivity.
Qed.

Lemma count_indent_width_witness :
  count_indent
    (fuel_of (lexer_at ([ch_tab; ch_space; ch_space] ++ [120; ch_lf]) 0)) 0
    (lexer_at ([ch_tab; ch_space; ch_space] ++ [120; ch_lf]) 0) =
  Ok (measured_width [ch_tab; ch_space; ch_space],
      mkLexer [120; ch_lf] (0 + length [ch_tab; ch_space; ch_space]) [] None).
Proof.
  apply (count_indent_width [ch_tab; ch_space; ch_space] [120; ch_lf] 0).
  - repeat constructor; unfold is_blank; tauto.
  - unfold is_blank, ch_space, ch_tab. intros [H | H]; discriminate.
Defined.

(** A line of 65536 spaces is measured as width 0. *)
Lemma measured_width_wraps : measured_width (replicate (256 * 256) ch_space) = 0.
Proof. vm_compute. reflexivity. Qed.

(** ** Blank lines and comment lines *)

Lemma next_line_S (f : nat) (lx : TSLexer) :
  next_line (S f) lx =
    ('(indent, lx) ← count_indent (fuel_of lx) 0 lx;
     if lookahead lx =? ch_lf then
       next_line f (skip lx)
     else if lookahead lx =? ch_cr then
       let lx := skip lx in
       let lx := if lookahead lx =? ch_lf then skip lx else lx in
       next_line f lx
     else if lookahead lx =? ch_hash then
       lx ← skip_comment (fuel_of lx) lx;
       let lx :=
         if (lookahead lx =? ch_lf) || (lookahead lx =? ch_cr) then
           let lx := skip lx in
           if lookahead lx =? ch_lf then skip lx else lx
         else lx in
       next_line f lx
     else Ok (indent, lx)).
Proof. reflexivity. Qed.

Lemma next_line_mono (f : nat) :
  forall (lx : TSLexer) (r : Z * TSLexer),
    next_line f lx = Ok r -> next_line (S f) lx = Ok r.
Proof.
  induction f as [|f IH]; intros lx r H; [discriminate|].
  rewrite next_line_S in H. rewrite (next_line_S (S f)).
  destruct (count_indent (fuel_of lx) 0 lx) as [[i lx0]| |];
    res_simpl in H; res_simpl; try discriminate.
  destruct (lookahead lx0 =? ch_lf); [apply IH; exact H|].
  destruct (lookahead lx0 =? ch_cr); [apply IH; exact H|].
  destruct (lookahead lx0 =? ch_hash); [|exact H].
  destruct (skip_comment (fuel_of lx0) lx0) as [lx2| |];
    res_simpl in H; res_simpl; try discriminate.
  apply IH. exact H.
Qed.

Lemma next_line_fuel (f1 f2 : nat) (lx : TSLexer) :
  (remaining lx < f1)%nat -> (remaining lx < f2)%nat ->
  next_line f1 lx = next_line f2 lx.
Proof.
  assert (Hup : forall k f r, next_line f lx = Ok r ->
                              next_line (k + f) lx = Ok r).
  { induction k as [|k IHk]; intros f r H; [exact H|].
    apply next_line_mono, IHk, H. }
  intros H1 H2.
  destruct (next_line_ok f1 lx H1) as (i1 & l1 & E1 & _).
  destruct (next_line_ok f2 lx H2) as (i2 & l2 & E2 & _).
  rewrite E1, E2.
  destruct (Nat.le_ge_cases f1 f2) as [Hle | Hle].
  - apply (Hup (f2 - f1)%nat) in E1.
    replace (f2 - f1 + f1)%nat with f2 in E1 by lia. congruence.
  - apply (Hup (f1 - f2)%nat) in E2.
    replace (f1 - f2 + f2)%nat with f1 in E2 by lia. congruence.
Qed.

Lemma skip_comment_body (body : list Z) :
  forall (fuel : nat) (c0 : Z) (t : list Z) (col : nat) (tok : list Z)
         (m : option (list Z * nat * list Z)),
    Forall (fun c => c <> ch_lf /\ c <> ch_cr) body ->
    c0 = ch_lf \/ c0 = ch_cr ->
    (length (body ++ c0 :: t) < fuel)%nat ->
    skip_comment fuel (mkLexer (body ++ c0 :: t) col tok m) =
      Ok (mkLexer (c0 :: t) (col + length body)
                  (match body with [] => tok | _ :: _ => [] end) m).
Proof.
  induction body as [|c bl IH]; intros fuel c0 t col tok m Hb Hc Hf.
  - destruct fuel as [|f]; [simpl in Hf; lia|].
    cbn [skip_comment app]. unfold is_eof, lookahead; cbn [rest negb andb].
    replace (col + length (@nil Z))%nat with col by (simpl; lia).
    destruct Hc as [-> | ->]; reflexivity.
  - destruct fuel as [|f]; [simpl in Hf; lia|].
    apply Forall_cons in Hb as [[Hlf Hcr] Hbl].
    cbn [skip_comment app]. unfold is_eof, lookahead; cbn [rest negb andb].
    replace (c =? ch_lf) with false by (symmetry; apply Z.eqb_neq; exact Hlf).
    replace (c =? ch_cr) with false by (symmetry; apply Z.eqb_neq; exact Hcr).
    cbn [negb andb]. unfold skip; cbn [rest column marked].
    assert (Hnl : next_column c col = S col).
    { unfold next_column.
      replace (c =? ch_lf) with false
        by (symmetry; apply Z.eqb_neq; exact Hlf). reflexivity. }
    rewrite Hnl, IH; [|exact Hbl|exact Hc|simpl in Hf; lia].
    f_equal. f_equal; [simpl; lia | destruct bl; reflexivity].
Qed.

Lemma not_blank_lf : ~ is_blank ch_lf.
Proof. unfold is_blank. intros [H | H]; discriminate. Qed.

Lemma not_blank_cr : ~ is_blank ch_cr.
Proof. unfold is_blank. intros [H | H]; discriminate. Qed.

Lemma not_blank_hash : ~ is_blank ch_hash.
Proof. unfold is_blank. intros [H | H]; discriminate. Qed.

Lemma skip_cons (c : Z) (r : list Z) (col : nat) (tok : list Z)
  (m : option (list Z * nat * list Z)) :
  skip (mkLexer (c :: r) col tok m) = mkLexer r (next_column c col) [] m.
Proof. reflexivity. Qed.

Lemma lookahead_cons_mk (c : Z) (r : list Z) (col : nat) (tok : list Z)
  (m : option (list Z * nat * list Z)) :
  lookahead (mkLexer (c :: r) col tok m) = c.
Proof. reflexivity. Qed.

Lemma blank_lf_skipped (bl t : list Z) (f : nat) :
  Forall is_blank bl ->
  (length (bl ++ ch_lf :: t) < f)%nat ->
  next_line f (lexer_at (bl ++ ch_lf :: t) 0) =
    next_line (fuel_of (lexer_at t 0)) (lexer_at t 0).
Proof.
  intros Hb Hf. destruct f as [|f]; [lia|].
  rewrite next_line_S. unfold lexer_at at 1 2.
  rewrite (count_indent_blanks bl _ 0 (ch_lf :: t));
    [|exact Hb|exact not_blank_lf|unfold is_u16; lia
     |unfold fuel_of; cbn [rest]; lia].
  res_simpl. unfold lookahead at 1; cbn [rest].
  change (ch_lf =? ch_lf) with true. cbv iota.
  unfold skip; cbn [rest column marked]. fold (lexer_at t 0).
  apply next_line_fuel; unfold remaining, fuel_of, lexer_at; cbn [rest];
    rewrite length_app in Hf; simpl in Hf; lia.
Qed.

(** Behind a line without content the loop is where it would be had it
    started on the text after that line. *)
Lemma trivia_line_skipped (l : list Z) :
  trivia_line l ->
  forall (t : list Z) (f : nat),
    (length (l ++ t) < f)%nat ->
    next_line f (lexer_at (l ++ t) 0) =
      next_line (fuel_of (lexer_at t 0)) (lexer_at t 0).
Proof.
  intros Hl t f Hf. destruct f as [|f]; [lia|].
  rewrite next_line_S. unfold lexer_at at 1 2. unfold fuel_of at 1.
  cbn [rest].
  destruct Hl as [bl Hb | bl Hb | bl body Hb Hbody | bl body Hb Hbody];
    repeat first [rewrite <- app_assoc in Hf |- * | progress cbn [app] in Hf |- * ].
  - rewrite (count_indent_blanks bl _ 0 (ch_lf :: t));
      [|exact Hb|exact not_blank_lf|unfold is_u16; lia|unfold fuel_of; cbn [rest]; lia].
    res_simpl. unfold lookahead at 1; cbn [rest].
    change (ch_lf =? ch_lf) with true. cbv iota.
    unfold skip; cbn [rest column marked]. fold (lexer_at t 0).
    apply next_line_fuel; unfold remaining, fuel_of, lexer_at; cbn [rest];
      rewrite length_app in Hf; simpl in Hf; lia.
  - rewrite (count_indent_blanks bl _ 0 (ch_cr :: ch_lf :: t));
      [|exact Hb|exact not_blank_cr|unfold is_u16; lia
       |unfold fuel_of; cbn [rest]; lia].
    res_simpl. unfold lookahead at 1; cbn [rest].
    change (ch_cr =? ch_lf) with false. cbv iota.
    unfold lookahead at 1; cbn [rest].
    change (ch_cr =? ch_cr) with true. cbv iota zeta.
    unfold skip at 2 3 4; cbn [rest column marked].
    unfold lookahead at 1; cbn [rest].
    change (ch_lf =? ch_lf) with true. cbv iota.
    unfold skip; cbn [rest column marked]. fold (lexer_at t 0).
    apply next_line_fuel; unfold remaining, fuel_of, lexer_at; cbn [rest];
      rewrite length_app in Hf; simpl in Hf; lia.
  - rewrite (count_indent_blanks bl _ 0 (ch_hash :: body ++ ch_lf :: t));
      [|exact Hb|exact not_blank_hash|unfold is_u16; lia
       |unfold fuel_of; cbn [rest]; lia].
    res_simpl. rewrite !lookahead_cons_mk.
    change (ch_hash =? ch_lf) with false.
    change (ch_hash =? ch_cr) with false.
    change (ch_hash =? ch_hash) with true. cbv iota.
    unfold fuel_of; cbn [rest].
    rewrite (skip_comment_body (ch_hash :: body) _ ch_lf t);
      [|constructor; [split; discriminate | exact Hbody]
       |left; reflexivity|simpl; lia].
    res_simpl. cbv zeta. rewrite !lookahead_cons_mk.
    change (ch_lf =? ch_lf) with true. cbn [orb]. cbv iota.
    rewrite !skip_cons. change (next_column ch_lf _) with 0%nat.
    rewrite !length_app in Hf. simpl in Hf. rewrite length_app in Hf.
    simpl in Hf.
    destruct t as [|c t'].
    + change (lookahead (mkLexer [] 0 [] None) =? ch_lf) with false.
      cbv iota. fold (lexer_at [] 0).
      apply next_line_fuel; unfold remaining, fuel_of, lexer_at; cbn [rest];
        simpl; lia.
    + rewrite lookahead_cons_mk.
      destruct (c =? ch_lf) eqn:Hc.
      * apply Z.eqb_eq in Hc. subst c.
        rewrite skip_cons. change (next_column ch_lf 0) with 0%nat.
        fold (lexer_at t' 0).
        etransitivity;
          [|symmetry; apply (blank_lf_skipped [] t');
            [constructor | unfold fuel_of, lexer_at; cbn [rest app]; lia]].
        apply next_line_fuel; unfold remaining, fuel_of, lexer_at;
          cbn [rest]; simpl in Hf; lia.
      * fold (lexer_at (c :: t') 0).
        apply next_line_fuel; unfold remaining, fuel_of, lexer_at;
          cbn [rest]; simpl in *; lia.
  - rewrite (count_indent_blanks bl _ 0
               (ch_hash :: body ++ ch_cr :: ch_lf :: t));
      [|exact Hb|exact not_blank_hash|unfold is_u16; lia
       |unfold fuel_of; cbn [rest]; lia].
    res_simpl. rewrite !lookahead_cons_mk.
    change (ch_hash =? ch_lf) with false.
    change (ch_hash =? ch_cr) with false.
    change (ch_hash =? ch_hash) with true. cbv iota.
    unfold fuel_of; cbn [rest].
    rewrite (skip_comment_body (ch_hash :: body) _ ch_cr (ch_lf :: t));
      [|constructor; [split; discriminate | exact Hbody]
       |right; reflexivity|simpl; lia].
    res_simpl. cbv zeta. rewrite !lookahead_cons_mk.
    change (ch_cr =? ch_lf) with false.
    change (ch_cr =? ch_cr) with true. cbn [orb]. cbv iota.
    rewrite !skip_cons, !lookahead_cons_mk.
    change (ch_lf =? ch_lf) with true. cbv iota.
    rewrite ?skip_cons. change (next_column ch_lf _) with 0%nat.
    fold (lexer_at t 0).
    rewrite !length_app in Hf. simpl in Hf. rewrite length_app in Hf.
    simpl in Hf.
    apply next_line_fuel; unfold remaining, fuel_of, lexer_at; cbn [rest];
      lia.
Qed.

Lemma trivia_lines_skipped (ls : list (list Z)) (t : list Z) :
  Forall trivia_line ls ->
  forall f : nat,
    (length (concat ls ++ t) < f)%nat ->
    next_line f (lexer_at (concat ls ++ t) 0) =
      next_line (fuel_of (lexer_at t 0)) (lexer_at t 0).
Proof.
  induction 1 as [|l ls Hl _ IH]; intros f Hf.
  - apply next_line_fuel; unfold remaining, fuel_of, lexer_at; cbn [rest];
      simpl in *; lia.
  - cbn [concat] in *. rewrite <- app_assoc in *.
    rewrite (trivia_line_skipped l Hl (concat ls ++ t) f Hf).
    apply IH. unfold fuel_of, lexer_at; cbn [rest]. lia.
Qed.

(** X7.  Blank lines and comment lines before a text are invisible to the
    line-start analysis: a call at column 0 that does not serve an owed
    dedent and has INDENT or DEDENT requested returns exactly what it
    returns on the text without those lines (same token, same state, same
    cursor). *)
Theorem trivia_lines_invisible (ls : list (list Z)) (t : list Z)
  (s : Scanner) (v : ValidSymbols) :
  Forall trivia_line ls ->
  (0 <? pending_dedents s) && v DEDENT = false ->
  v INDENT || v DEDENT = true ->
  scan s (text_of (concat ls ++ t)) v = scan s (text_of t) v.
Proof.
  intros Hls Hp Hv. unfold scan. rewrite Hp.
  unfold before_newline, text_of.
  change (get_column (lexer_at (concat ls ++ t) 0)) with 0%nat.
  change (get_column (lexer_at t 0)) with 0%nat.
  rewrite Hv. cbn [Nat.eqb andb]. unfold line_start.
  rewrite (trivia_lines_skipped ls t Hls); [reflexivity|].
  unfold fuel_of, lexer_at; cbn [rest]. lia.
Qed.

Lemma trivia_lines_invisible_witness :
  scan create
    (text_of (concat [[ch_space] ++ [ch_lf];
                      [] ++ ch_hash :: [120; 120] ++ [ch_lf]]
              ++ [ch_space; ch_space; 120])) all_valid
  = scan create (text_of [ch_space; ch_space; 120]) all_valid.
Proof.
  apply (trivia_lines_invisible
           [[ch_space] ++ [ch_lf]; [] ++ ch_hash :: [120; 120] ++ [ch_lf]]
           [ch_space; ch_space; 120] create all_valid).
  - constructor; [|constructor; [|constructor]].
    + apply blank_lf. repeat constructor.
    + apply comment_lf; [constructor|].
      repeat constructor; discriminate.
  - reflexivity.
  - reflexivity.
Defined.

(** ** The decision at a content line *)

Lemma check_newline_content_same (lx : TSLexer) (v : ValidSymbols) :
  is_eof lx = false ->
  (lookahead lx =? ch_space) = false -> (lookahead lx =? ch_tab) = false ->
  (lookahead lx =? ch_lf) = false -> (lookahead lx =? ch_cr) = false ->
  check_newline lx v = Ok (None, lx).
Proof.
  intros He Hs Ht Hlf Hcr. unfold check_newline, fuel_of.
  destruct (v NEWLINE); [|reflexivity].
  cbn [skip_blanks]. rewrite Hs, Ht. cbn [orb]. res_simpl.
  rewrite Hlf, Hcr, He. reflexivity.
Qed.

Lemma pop_levels_returns (fuel : nat) :
  forall (s : Scanner) (w c : Z),
    1 <= indent_depth s <= MAX_INDENT_DEPTH ->
    (Z.to_nat (indent_depth s) < fuel)%nat ->
    exists s' c', pop_levels fuel s w c = Ok (s', c').
Proof.
  induction fuel as [|f IH]; intros s w c Hd Hf; [lia|].
  cbn [pop_levels]. unfold MAX_INDENT_DEPTH in *.
  destruct (1 <? indent_depth s) eqn:H1; [|eauto].
  apply Z.ltb_lt in H1. unfold read_stack.
  rewrite in_bounds_true by (unfold MAX_INDENT_DEPTH; lia). res_simpl.
  destruct (w <? _); [|eauto].
  apply IH; simpl; rewrite u16_small by lia; lia.
Qed.

(** Where the pop loop stops: at depth 1 or under an entry that is not
    wider than the line; every level it popped was wider. *)
Lemma pop_levels_popped (fuel : nat) :
  forall (s : Scanner) (w c : Z) (s' : Scanner) (c' : Z),
    pop_levels fuel s w c = Ok (s', c') ->
    (indent_depth s' <= 1 \/
     indent_stack s !!! Z.to_nat (indent_depth s' - 1) <= w) /\
    (forall j : nat,
       indent_depth s' <= Z.of_nat j < indent_depth s ->
       w < indent_stack s !!! j).
Proof.
  induction fuel as [|f IH]; intros s w c s' c' H; [discriminate|].
  cbn [pop_levels] in H.
  destruct (1 <? indent_depth s) eqn:H1.
  2:{ injection H as <- <-. apply Z.ltb_ge in H1. split; [left; lia|].
      intros j Hj. lia. }
  apply Z.ltb_lt in H1. inv_bind H. unfold read_stack in Ha.
  destruct (in_bounds (indent_depth s - 1)) eqn:Hin; [|discriminate].
  injection Ha as <-.
  unfold in_bounds in Hin. apply andb_true_iff in Hin as [_ Hin].
  apply Z.ltb_lt in Hin. unfold MAX_INDENT_DEPTH in Hin.
  destruct (w <? _) eqn:Hlt.
  - apply Z.ltb_lt in Hlt. apply IH in H. simpl in H.
    rewrite u16_small in H by lia. destruct H as [Hstop Hpop].
    split; [exact Hstop|].
    intros j Hj.
    destruct (decide (Z.of_nat j = indent_depth s - 1)) as [Heq|Hne].
    + replace j with (Z.to_nat (indent_depth s - 1)) by lia. exact Hlt.
    + apply Hpop. lia.
  - injection H as <- <-. apply Z.ltb_ge in Hlt.
    split; [right; exact Hlt|]. intros j Hj. lia.
Qed.

(** X5.  A call at line start that does not serve an owed dedent and finds
    a content line of width [w] decides by the top [t] of the stack alone:
    INDENT when [t < w] and INDENT is requested (pushing [w] below depth
    100), DEDENT when [w < t], DEDENT is requested and a level is open, and
    otherwise "no match" with the state untouched; never NEWLINE.  In each
    case the cursor is left marked at the first character of the
    content. *)
Theorem content_line_decision (s : Scanner) (lx : TSLexer)
  (v : ValidSymbols) (w : Z) (lx1 : TSLexer) :
  scan_inv s ->
  (0 <? pending_dedents s) && v DEDENT = false ->
  get_column lx = 0%nat ->
  v INDENT || v DEDENT = true ->
  next_line (fuel_of lx) lx = Ok (w, lx1) ->
  is_eof lx1 = false ->
  exists r s',
    scan s lx v = Ok (r, s', mark_end lx1) /\
    (indent_stack s !!! Z.to_nat (indent_depth s - 1) < w /\
     v INDENT = true ->
       r = Some INDENT /\
       s' = if indent_depth s <? MAX_INDENT_DEPTH
            then mkScanner (<[Z.to_nat (indent_depth s) := w]> (indent_stack s))
                           (indent_depth s + 1) (pending_dedents s)
            else s) /\
    (w < indent_stack s !!! Z.to_nat (indent_depth s - 1) /\
     v DEDENT = true /\ 1 < indent_depth s ->
       r = Some DEDENT) /\
    (~ (indent_stack s !!! Z.to_nat (indent_depth s - 1) < w /\
        v INDENT = true) /\
     ~ (w < indent_stack s !!! Z.to_nat (indent_depth s - 1) /\
        v DEDENT = true /\ 1 < indent_depth s) ->
       r = None /\ s' = s).
Proof.
  intros Hinv Hp Hc Hv Hn He.
  pose proof Hinv as ((Hlen & Hall & Hd16 & Hp16) & Hd & Hpp).
  unfold is_u16 in *.
  pose proof (next_line_props _ _ _ _ Hn) as (_ & _ & _ & _ & Nlf & Ncr & Nb).
  destruct Nb as [Nb | [Nsp Ntab]]; [congruence|].
  assert (Hcn : check_newline (mark_end lx1) v = Ok (None, mark_end lx1))
    by (apply check_newline_content_same; assumption).
  unfold scan. rewrite Hp. unfold before_newline. rewrite Hc, Hv.
  cbn [Nat.eqb andb]. unfold line_start. rewrite Hn. res_simpl.
  unfold at_content. rewrite He. unfold read_stack.
  rewrite in_bounds_true by lia. res_simpl.
  set (top := indent_stack s !!! Z.to_nat (indent_depth s - 1)).
  destruct (Z.ltb_spec top w) as [Hgt | Hle]; cbn [andb].
  - destruct (v INDENT) eqn:Hvi.
    + (* INDENT *)
      unfold MAX_INDENT_DEPTH in *.
      destruct (Z.ltb_spec (indent_depth s) 100) as [Hlt | Hge].
      * unfold write_stack. rewrite in_bounds_true
          by (unfold MAX_INDENT_DEPTH; lia).
        res_simpl. unfold set_depth; cbn [indent_stack pending_dedents].
        rewrite u16_small by lia.
        eexists _, _. split; [reflexivity|].
        split; [intros _; split; reflexivity|].
        split; [intros (H1 & _); lia | intros [H1 _]; tauto].
      * res_simpl. eexists _, _. split; [reflexivity|].
        split; [intros _; split; reflexivity|].
        split; [intros (H1 & _); lia | intros [H1 _]; tauto].
    + replace (w <? top) with false by (symmetry; apply Z.ltb_ge; lia).
      cbn [andb]. res_simpl. rewrite Hcn. res_simpl.
      eexists _, _. split; [reflexivity|].
      split; [intros [_ H1]; discriminate|].
      split; [intros (H1 & _); lia | intros _; split; reflexivity].
  - destruct ((w <? top) && v DEDENT) eqn:Hde.
    + apply andb_true_iff in Hde as [Hlt Hvd]. apply Z.ltb_lt in Hlt.
      destruct (pop_levels_returns (S (Z.to_nat (indent_depth s))) s w 0 Hd)
        as (s2 & c2 & Hpop); [lia|].
      rewrite Hpop. res_simpl.
      pose proof Hpop as Hspec.
      apply pop_levels_spec in Hspec; [|lia|unfold MAX_INDENT_DEPTH; lia].
      destruct Hspec as (H1 & H2 & H3 & H4 & H5).
      destruct (Z.ltb_spec 0 c2) as [Hc2 | Hc2].
      * eexists _, _. split; [reflexivity|].
        split; [intros [H6 _]; lia|].
        split; [intros _; reflexivity|].
        intros [_ Hno]. exfalso. apply Hno.
        split; [exact Hlt|]. split; [exact Hvd|].
        specialize (H5 Hc2). lia.
      * res_simpl. rewrite Hcn. res_simpl.
        assert (Hs2 : s2 = s)
          by (apply scanner_eq; [assumption | lia | assumption]).
        subst s2.
        assert (Hd1 : ~ 1 < indent_depth s).
        { intros Hd1. cbn [pop_levels] in Hpop.
          replace (1 <? indent_depth s) with true in Hpop
            by (symmetry; apply Z.ltb_lt; lia).
          unfold read_stack in Hpop.
          rewrite in_bounds_true in Hpop by lia. res_simpl in Hpop.
          fold top in Hpop.
          replace (w <? top) with true in Hpop
            by (symmetry; apply Z.ltb_lt; lia).
          apply pop_levels_spec in Hpop; simpl;
            [|unfold u16; apply Z.mod_pos_bound; lia
             |intros _; rewrite !u16_small; unfold MAX_INDENT_DEPTH in *; lia].
          destruct Hpop as (_ & _ & Hge & _).
          rewrite u16_small in Hge by lia. lia. }
        eexists _, _. split; [reflexivity|].
        split; [intros [H6 _]; lia|].
        split; [intros (_ & _ & H6); tauto | intros _; split; reflexivity].
    + res_simpl. rewrite Hcn. res_simpl.
      eexists _, _. split; [reflexivity|].
      split; [intros [H6 _]; lia|].
      split; [|intros _; split; reflexivity].
      intros (H6 & H7 & _). apply andb_false_iff in Hde as [Hde | Hde];
        [apply Z.ltb_ge in Hde; lia | congruence].
Qed.

Lemma content_line_decision_witness :
  exists r s',
    scan create (text_of (line 3)) all_valid
      = Ok (r, s', mark_end (mkLexer [120; ch_lf] 3 [] None)) /\
    (indent_stack create !!! Z.to_nat (indent_depth create - 1) < 3 /\
     all_valid INDENT = true ->
       r = Some INDENT /\
       s' = if indent_depth create <? MAX_INDENT_DEPTH
            then mkScanner
                   (<[Z.to_nat (indent_depth create) := 3]> (indent_stack create))
                   (indent_depth create + 1) (pending_dedents create)
            else create) /\
    (3 < indent_stack create !!! Z.to_nat (indent_depth create - 1) /\
     all_valid DEDENT = true /\ 1 < indent_depth create ->
       r = Some DEDENT) /\
    (~ (indent_stack create !!! Z.to_nat (indent_depth create - 1) < 3 /\
        all_valid INDENT = true) /\
     ~ (3 < indent_stack create !!! Z.to_nat (indent_depth create - 1) /\
        all_valid DEDENT = true /\ 1 < indent_depth create) ->
       r = None /\ s' = create).
Proof.
  apply (content_line_decision create (text_of (line 3)) all_valid 3
           (mkLexer [120; ch_lf] 3 [] None)).
  - unfold scan_inv, wf_scanner, is_u16, MAX_INDENT_DEPTH.
    split; [|simpl; lia]. split; [reflexivity|].
    split; [|simpl; lia].
    apply (bool_decide_unpack (Forall (fun z => 0 <= z < 65536) _)).
    vm_compute. exact I.
  - reflexivity.
  - reflexivity.
  - reflexivity.
  - vm_compute. reflexivity.
  - reflexivity.
Defined.

(** ** A decrease by several levels *)

Lemma owed_dedents_repeat (n : nat) :
  forall (s : Scanner) (lx : TSLexer) (v : ValidSymbols),
    v DEDENT = true ->
    pending_dedents s = Z.of_nat n -> pending_dedents s < 65536 ->
    scan_repeat n s lx v =
      Ok (replicate n (Some DEDENT), set_pending s 0, lx).
Proof.
  induction n as [|n IH]; intros s lx v Hv Hp Hlt.
  - cbn [scan_repeat replicate].
    replace (set_pending s 0) with s; [reflexivity|].
    symmetry. apply scanner_eq; simpl; [reflexivity | reflexivity | lia].
  - cbn [scan_repeat replicate]. unfold scan. rewrite Hv.
    replace (0 <? pending_dedents s) with true
      by (symmetry; apply Z.ltb_lt; lia).
    cbn [andb]. res_simpl.
    rewrite IH; [|exact Hv|simpl; rewrite u16_small by lia; lia
                 |simpl; rewrite u16_small by lia; lia].
    res_simpl. reflexivity.
Qed.

(** X6.  From a state reached in order, with nothing owed, a content line
    at line start whose width [w] is below the top of the stack gives, over
    [k] successive calls with DEDENT requested, exactly [k] DEDENT tokens,
    where the [k] levels popped are the open levels wider than [w]: the
    depth drops by [k], the new top is not wider than [w], nothing is owed
    any more, and the stack entries are untouched. *)
Theorem dedent_levels_one_per_call (s : Scanner) (lx : TSLexer)
  (v : ValidSymbols) (w : Z) (lx1 : TSLexer) :
  scan_inv s -> sorted_stack s ->
  pending_dedents s = 0 ->
  get_column lx = 0%nat ->
  v DEDENT = true ->
  next_line (fuel_of lx) lx = Ok (w, lx1) ->
  is_eof lx1 = false ->
  w < indent_stack s !!! Z.to_nat (indent_depth s - 1) ->
  exists (k : nat) (s' : Scanner),
    (1 <= k)%nat /\
    scan_repeat k s lx v
      = Ok (replicate k (Some DEDENT), s', mark_end lx1) /\
    indent_depth s' = indent_depth s - Z.of_nat k /\
    1 <= indent_depth s' /\
    pending_dedents s' = 0 /\
    indent_stack s' = indent_stack s /\
    indent_stack s !!! Z.to_nat (indent_depth s' - 1) <= w /\
    (forall j : nat,
       indent_depth s' <= Z.of_nat j < indent_depth s ->
       w < indent_stack s !!! j).
Proof.
  intros Hinv [Hbot Hsorted] Hp0 Hc Hv Hn He Hlt.
  pose proof Hinv as ((Hlen & Hall & Hd16 & Hp16) & Hd & Hpp).
  unfold is_u16, MAX_INDENT_DEPTH in *.
  assert (Hw : 0 <= w).
  { destruct (next_line_ok (fuel_of lx) lx) as (i & l & E & Hi & _);
      [unfold fuel_of, remaining; lia|].
    rewrite Hn in E. injection E as <- <-. unfold is_u16 in Hi. lia. }
  destruct (pop_levels_returns (S (Z.to_nat (indent_depth s))) s w 0)
    as (s2 & c2 & Hpop); [unfold MAX_INDENT_DEPTH; lia | lia |].
  pose proof (pop_levels_popped _ _ _ _ _ _ Hpop) as [Hstop Hpopped].
  pose proof Hpop as Hspec.
  apply pop_levels_spec in Hspec; [|lia|unfold MAX_INDENT_DEPTH; lia].
  destruct Hspec as (H1 & H2 & H3 & H4 & H5).
  assert (Hc2 : 0 < c2).
  { (* the top itself is wider than the line, and it is not the bottom *)
    destruct (Z.lt_ge_cases 0 c2) as [|Hz]; [assumption|exfalso].
    assert (Hd2 : indent_depth s2 = indent_depth s) by lia.
    rewrite Hd2 in Hstop. destruct Hstop as [Hone | Htop]; [|lia].
    assert (indent_depth s = 1) by lia.
    replace (Z.to_nat (indent_depth s - 1)) with 0%nat in Hlt by lia.
    lia. }
  specialize (H5 Hc2). unfold MAX_INDENT_DEPTH in H5.
  assert (Hfirst :
    scan s lx v = Ok (Some DEDENT, set_pending s2 (c2 - 1), mark_end lx1)).
  { unfold scan. rewrite Hp0. cbn [Z.ltb Z.compare andb].
    unfold before_newline. rewrite Hc, Hv, orb_true_r.
    cbn [Nat.eqb andb]. unfold line_start. rewrite Hn. res_simpl.
    unfold at_content. rewrite He. unfold read_stack.
    rewrite in_bounds_true by (unfold MAX_INDENT_DEPTH; lia). res_simpl.
    replace (_ <? w) with false by (symmetry; apply Z.ltb_ge; lia).
    cbn [andb].
    replace (w <? _) with true by (symmetry; apply Z.ltb_lt; lia).
    rewrite Hv. cbn [andb]. rewrite Hpop. res_simpl.
    replace (0 <? c2) with true by (symmetry; apply Z.ltb_lt; lia).
    rewrite u16_small by lia. reflexivity. }
  exists (S (Z.to_nat (c2 - 1))), (set_pending s2 0).
  split; [lia|]. split.
  { cbn [scan_repeat replicate]. rewrite Hfirst. res_simpl.
    rewrite (owed_dedents_repeat (Z.to_nat (c2 - 1)));
      [|exact Hv|simpl; lia|simpl; lia].
    res_simpl. reflexivity. }
  simpl. split; [lia|]. split; [lia|]. split; [reflexivity|].
  split; [exact H1|]. split; [|exact Hpopped].
  destruct Hstop as [Hone | Htop]; [|exact Htop].
  replace (Z.to_nat (indent_depth s2 - 1)) with 0%nat by lia. lia.
Qed.

Lemma dedent_levels_one_per_call_witness :
  exists (k : nat) (s' : Scanner),
    (1 <= k)%nat /\
    scan_repeat k (mkScanner (<[2%nat := 4]> (<[1%nat := 2]> (indent_stack create))) 3 0)
      (text_of [120]) all_valid
      = Ok (replicate k (Some DEDENT), s', mark_end (text_of [120])) /\
    indent_depth s' = 3 - Z.of_nat k /\
    1 <= indent_depth s' /\
    pending_dedents s' = 0 /\
    indent_stack s' = <[2%nat := 4]> (<[1%nat := 2]> (indent_stack create)) /\
    <[2%nat := 4]> (<[1%nat := 2]> (indent_stack create))
      !!! Z.to_nat (indent_depth s' - 1) <= 0 /\
    (forall j : nat,
       indent_depth s' <= Z.of_nat j < 3 ->
       0 < <[2%nat := 4]> (<[1%nat := 2]> (indent_stack create)) !!! j).
Proof.
  apply (dedent_levels_one_per_call
           (mkScanner (<[2%nat := 4]> (<[1%nat := 2]> (indent_stack create))) 3 0)
           (text_of [120]) all_valid 0 (text_of [120])).
  - unfold scan_inv, wf_scanner, is_u16, MAX_INDENT_DEPTH.
    split; [|simpl; lia]. split; [reflexivity|].
    split; [|simpl; lia].
    apply (bool_decide_unpack (Forall (fun z => 0 <= z < 65536) _)).
    vm_compute. exact I.
  - split; [reflexivity|]. simpl. intros i Hi Hlt.
    destruct i as [|[|[|i]]]; [lia | vm_compute; reflexivity
                               | vm_compute; reflexivity | lia].
  - reflexivity.
  - reflexivity.
  - reflexivity.
  - vm_compute. reflexivity.
  - reflexivity.
  - vm_compute. reflexivity.
Defined.

(** * Further properties of the codec *)

Lemma to_char_of_uchar (b : byte) : to_char (of_uchar b) = b.
Proof.
  unfold to_char, of_uchar.
  pose proof (Byte.to_N_bounded b) as Hb.
  rewrite Z.mod_small by lia. rewrite N2Z.id, Byte.of_to_N. reflexivity.
Qed.

Lemma testbit_uchar_high (b : byte) (n : Z) :
  8 <= n -> Z.testbit (of_uchar b) n = false.
Proof.
  intros Hn. pose proof (of_uchar_range b) as Hr.
  rewrite <- (Z.mod_small (of_uchar b) (2 ^ 8))
    by (change (2 ^ 8) with 256; lia).
  rewrite Z.testbit_mod_pow2 by lia.
  replace (n <? 8) with false by (symmetry; apply Z.ltb_ge; lia).
  reflexivity.
Qed.

Lemma le16_low (lo hi : byte) : Z.land (le16 lo hi) 255 = of_uchar lo.
Proof.
  pose proof (of_uchar_range lo) as Hlo.
  unfold le16, u16. change 255 with (Z.ones 8). rewrite Z.land_ones by lia.
  change 65536 with (2 ^ 16).
  transitivity (of_uchar lo mod 2 ^ 8);
    [|apply Z.mod_small; change (2 ^ 8) with 256; lia].
  apply Z.bits_inj'. intros n Hn.
  rewrite !Z.testbit_mod_pow2 by lia.
  destruct (n <? 8) eqn:H8; [|reflexivity].
  apply Z.ltb_lt in H8. cbn [andb].
  replace (n <? 16) with true by (symmetry; apply Z.ltb_lt; lia).
  cbn [andb]. rewrite Z.lor_spec, Z.shiftl_spec by lia.
  rewrite (Z.testbit_neg_r _ (n - 8)) by lia. apply orb_false_r.
Qed.

Lemma le16_high (lo hi : byte) :
  Z.land (Z.shiftr (le16 lo hi) 8) 255 = of_uchar hi.
Proof.
  pose proof (of_uchar_range hi) as Hhi.
  unfold le16, u16. change 255 with (Z.ones 8). rewrite Z.land_ones by lia.
  change 65536 with (2 ^ 16).
  transitivity (of_uchar hi mod 2 ^ 8);
    [|apply Z.mod_small; change (2 ^ 8) with 256; lia].
  apply Z.bits_inj'. intros n Hn.
  rewrite !Z.testbit_mod_pow2 by lia.
  destruct (n <? 8) eqn:H8; [|reflexivity].
  apply Z.ltb_lt in H8. cbn [andb].
  rewrite Z.shiftr_spec by lia.
  rewrite Z.testbit_mod_pow2 by lia.
  replace (n + 8 <? 16) with true by (symmetry; apply Z.ltb_lt; lia).
  cbn [andb]. rewrite Z.lor_spec, Z.shiftl_spec by lia.
  rewrite testbit_uchar_high by lia. cbn [orb]. f_equal. lia.
Qed.

(** ** What [deserialize] hands back *)

Lemma deserialize_loop_wf (fuel : nat) :
  forall (s : Scanner) (buffer : list byte) (i pos : Z) (s' : Scanner),
    deserialize_loop fuel s buffer i pos = Ok s' ->
    indent_depth s' = indent_depth s /\
    pending_dedents s' = pending_dedents s /\
    length (indent_stack s') = length (indent_stack s) /\
    (Forall is_u16 (indent_stack s) -> Forall is_u16 (indent_stack s')).
Proof.
  induction fuel as [|f IH]; intros s buffer i pos s' H; [discriminate|].
  cbn [deserialize_loop] in H.
  destruct ((i <? indent_depth s) && (pos + 1 <? Z.of_nat (length buffer))).
  2:{ injection H as <-. tauto. }
  inv_bind H. inv_bind H. inv_bind H.
  unfold write_stack in Ha1. destruct (in_bounds i); [|discriminate].
  injection Ha1 as <-. apply IH in H. simpl in H.
  rewrite length_insert in H. destruct H as (H1 & H2 & H3 & H4).
  repeat split; try assumption.
  intros Hall. apply H4. apply Forall_insert; [exact Hall | apply u16_range].
Qed.

Lemma deserialize_returns (payload : Scanner) (buffer : list byte) :
  length (indent_stack payload) = Z.to_nat MAX_INDENT_DEPTH ->
  exists s', deserialize payload buffer = Ok s'.
Proof.
  intros Hlen. destruct buffer as [|b0 [|b1 tl]].
  - eexists. reflexivity.
  - eexists. reflexivity.
  - destruct (deserialize_long payload b0 b1 tl Hlen) as (s' & Heq & _).
    exists s'. exact Heq.
Qed.

(** X11.  For every buffer, [deserialize] into a scanner returns a state of
    the struct's value set whose depth is at most 100 (it may be 0) and
    whose [pending_dedents] is at most 255; it never reads outside the
    buffer or the stack. *)
Theorem deserialize_bounds (payload : Scanner) (buffer : list byte) :
  wf_scanner payload ->
  exists s',
    deserialize payload buffer = Ok s' /\
    wf_scanner s' /\
    0 <= indent_depth s' <= MAX_INDENT_DEPTH /\
    0 <= pending_dedents s' <= 255.
Proof.
  intros (Hlen & Hall & Hd16 & Hp16).
  destruct (deserialize_returns payload buffer Hlen) as (s' & Heq).
  exists s'. split; [exact Heq|].
  unfold deserialize, write_stack in Heq.
  change (in_bounds 0) with true in Heq. res_simpl in Heq.
  cbn [Z.to_nat] in Heq.
  assert (Hz : Forall is_u16 (<[0%nat := 0]> (indent_stack payload)))
    by (apply Forall_insert; [exact Hall | unfold is_u16; lia]).
  unfold wf_scanner, is_u16, MAX_INDENT_DEPTH in *.
  destruct (Z.of_nat (length buffer) =? 0).
  { injection Heq as <-. simpl. rewrite length_insert.
    repeat split; try assumption; lia. }
  inv_bind Heq. pose proof (of_uchar_range a) as Ra.
  rewrite u16_small in Heq by lia.
  destruct (Z.of_nat (length buffer) <=? 0 + 1).
  { injection Heq as <-. simpl. rewrite length_insert.
    repeat split; try assumption; lia. }
  inv_bind Heq. pose proof (of_uchar_range a0) as Rb.
  rewrite u16_small in Heq by lia.
  apply deserialize_loop_wf in Heq.
  destruct Heq as (H1 & H2 & H3 & H4).
  unfold set_depth, set_pending in H1, H2, H3, H4.
  cbn [indent_depth indent_stack pending_dedents] in H1, H2, H3, H4.
  destruct (100 <? of_uchar a0) eqn:Hclamp;
    cbn [indent_depth indent_stack pending_dedents] in H1, H2, H3, H4;
    rewrite length_insert in H3;
    [|apply Z.ltb_ge in Hclamp];
    (split; [split; [congruence | split; [apply H4, Hz | split; lia]]
            | split; lia]).
Qed.

Lemma deserialize_bounds_witness :
  exists s',
    deserialize create [xff; xff; x01] = Ok s' /\
    wf_scanner s' /\
    0 <= indent_depth s' <= MAX_INDENT_DEPTH /\
    0 <= pending_dedents s' <= 255.
Proof.
  apply (deserialize_bounds create [xff; xff; x01]).
  unfold wf_scanner, is_u16. split; [reflexivity|].
  split; [|simpl; lia].
  apply (bool_decide_unpack (Forall (fun z => 0 <= z < 65536) _)).
  vm_compute. exact I.
Defined.

(** X12.  [deserialize] takes a depth byte of 0 as it is: a buffer whose
    second byte is 0 gives depth 0, and on a state of depth 0 a call
    at line start that finds a content line reads [indent_stack[-1]]
    (line 174), outside the array. *)
Theorem depth_zero_faults (payload : Scanner) (b0 : byte) (tl : list byte) :
  length (indent_stack payload) = Z.to_nat MAX_INDENT_DEPTH ->
  exists s0,
    deserialize payload (b0 :: x00 :: tl) = Ok s0 /\
    indent_depth s0 = 0 /\
    forall (lx : TSLexer) (v : ValidSymbols) (w : Z) (lx1 : TSLexer),
      (0 <? pending_dedents s0) && v DEDENT = false ->
      get_column lx = 0%nat ->
      v INDENT || v DEDENT = true ->
      next_line (fuel_of lx) lx = Ok (w, lx1) ->
      is_eof lx1 = false ->
      scan s0 lx v = Fault.
Proof.
  intros Hlen.
  destruct (deserialize_long payload b0 x00 tl Hlen)
    as (s0 & Heq & _ & Hd & _).
  change (Z.min (of_uchar x00) MAX_INDENT_DEPTH) with 0 in Hd.
  exists s0. split; [exact Heq|]. split; [exact Hd|].
  intros lx v w lx1 Hp Hc Hv Hn He.
  unfold scan. rewrite Hp. unfold before_newline. rewrite Hc, Hv.
  cbn [Nat.eqb andb]. unfold line_start. rewrite Hn. res_simpl.
  unfold at_content. rewrite He. unfold read_stack. rewrite Hd.
  reflexivity.
Qed.

Lemma depth_zero_faults_witness :
  exists s0,
    deserialize create [x00; x00] = Ok s0 /\
    indent_depth s0 = 0 /\
    scan s0 (text_of [120]) all_valid = Fault.
Proof.
  destruct (depth_zero_faults create x00 [] eq_refl) as (s0 & Heq & Hd & Hf).
  exists s0. split; [exact Heq|]. split; [exact Hd|].
  apply (Hf (text_of [120]) all_valid 0 (text_of [120])).
  - vm_compute in Heq. injection Heq as <-. reflexivity.
  - reflexivity.
  - reflexivity.
  - vm_compute. reflexivity.
  - reflexivity.
Defined.

(** ** Buffers and states that correspond *)

Lemma same_open_blocks_entries (s s' : Scanner) (n : nat) :
  (forall j : nat, (j < n)%nat ->
     indent_stack s' !!! j = indent_stack s !!! j) ->
  map (fun k => indent_stack s' !!! k) (seq 0 n)
    = map (fun k => indent_stack s !!! k) (seq 0 n).
Proof.
  intros H. apply map_ext_in. intros k Hk. apply in_seq in Hk.
  apply H. lia.
Qed.

Section CodecMore.

Variable BUFFER_SIZE : Z.
Hypothesis buffer_fits : 2 * MAX_INDENT_DEPTH + 2 <= BUFFER_SIZE.

(** X13.  For a state of depth at most 100, [serialize] returns two bytes
    for the counters and two for each open level, [2 + 2 * depth] bytes in
    all; the entries at and above the depth do not enter: two states with
    the same counters and the same entries below the depth give the same
    bytes. *)
Theorem serialize_open_blocks (s s' : Scanner) :
  0 <= indent_depth s <= MAX_INDENT_DEPTH ->
  same_open_blocks s s' ->
  exists buffer,
    serialize BUFFER_SIZE s = Ok buffer /\
    serialize BUFFER_SIZE s' = Ok buffer /\
    Z.of_nat (length buffer) = 2 + 2 * indent_depth s.
Proof.
  intros Hd (Hp & Hd' & Hj).
  eexists. split; [apply (serialize_spec BUFFER_SIZE buffer_fits s Hd)|].
  split.
  - rewrite (serialize_spec BUFFER_SIZE buffer_fits s') by lia.
    rewrite Hp, Hd'.
    rewrite (same_open_blocks_entries s s' (Z.to_nat (indent_depth s)));
      [reflexivity|].
    intros j Hlt. apply Hj. lia.
  - cbn [length]. rewrite length_encode_entries, length_map, length_seq. lia.
Qed.

(** X9.  A buffer of the layout [serialize] writes (pending byte, depth
    byte [d] at most 100, then exactly [2 d] bytes) is given back unchanged
    by [serialize] after [deserialize]. *)
Theorem serialize_deserialize (payload : Scanner) (b0 b1 : byte)
  (tl : list byte) :
  length (indent_stack payload) = Z.to_nat MAX_INDENT_DEPTH ->
  of_uchar b1 <= MAX_INDENT_DEPTH ->
  Z.of_nat (length tl) = 2 * of_uchar b1 ->
  exists s',
    deserialize payload (b0 :: b1 :: tl) = Ok s' /\
    serialize BUFFER_SIZE s' = Ok (b0 :: b1 :: tl).
Proof.
  intros Hlen Hb1 Htl.
  destruct (deserialize_long payload b0 b1 tl Hlen)
    as (s' & Heq & Hp & Hd & Hj).
  pose proof (of_uchar_range b1) as Hr1.
  rewrite Z.min_l in Hd by lia.
  exists s'. split; [exact Heq|].
  rewrite (serialize_spec BUFFER_SIZE buffer_fits s') by lia.
  rewrite Hp, Hd, !to_char_of_uchar. do 3 f_equal.
  apply (list_eq_same_length _ _ (length tl)); [reflexivity| |].
  { rewrite length_encode_entries, length_map, length_seq. lia. }
  intros i x y Hi Hx Hy.
  apply list_lookup_total_correct in Hx, Hy. subst x y.
  set (l := map (fun k => indent_stack s' !!! k)
                (seq 0 (Z.to_nat (of_uchar b1)))).
  assert (Hll : length l = Z.to_nat (of_uchar b1))
    by (unfold l; rewrite length_map, length_seq; reflexivity).
  assert (Hlk : forall j, (j < Z.to_nat (of_uchar b1))%nat ->
                          l !!! j = le16 (tl !!! (2 * j)%nat)
                                         (tl !!! (2 * j + 1)%nat)).
  { intros j Hjlt. unfold l.
    rewrite (list_lookup_total_fmap (fun k => indent_stack s' !!! k)
               (seq 0 (Z.to_nat (of_uchar b1))) j)
      by (rewrite length_seq; lia).
    rewrite lookup_total_seq_lt by lia. cbn [Nat.add].
    rewrite Hj, Hd.
    replace (Z.of_nat j <? of_uchar b1) with true
      by (symmetry; apply Z.ltb_lt; lia).
    replace (2 * Z.of_nat j + 1 <? Z.of_nat (length tl)) with true
      by (symmetry; apply Z.ltb_lt; lia).
    reflexivity. }
  destruct (Nat.Even_or_Odd i) as [[j ->] | [j ->]].
  - destruct (lookup_encode_entries l j) as [E _]; [lia|].
    rewrite E, Hlk by lia. rewrite le16_low. apply to_char_of_uchar.
  - destruct (lookup_encode_entries l j) as [_ E]; [lia|].
    rewrite E, Hlk by lia. rewrite le16_high. apply to_char_of_uchar.
Qed.

End CodecMore.

Lemma serialize_open_blocks_witness :
  exists buffer,
    serialize 1024 create = Ok buffer /\
    serialize 1024 (mkScanner (<[5%nat := 9]> (indent_stack create)) 1 0)
      = Ok buffer /\
    Z.of_nat (length buffer) = 2 + 2 * indent_depth create.
Proof.
  apply (serialize_open_blocks 1024).
  - unfold MAX_INDENT_DEPTH; lia.
  - unfold MAX_INDENT_DEPTH; simpl; lia.
  - split; [reflexivity|]. split; [reflexivity|].
    intros j Hj. simpl in Hj.
    replace j with 0%nat by lia. reflexivity.
Defined.

Lemma serialize_deserialize_witness :
  exists s',
    deserialize create [x01; x02; x00; x00; x04; x00] = Ok s' /\
    serialize 1024 s' = Ok [x01; x02; x00; x00; x04; x00].
Proof.
  apply (serialize_deserialize 1024).
  - unfold MAX_INDENT_DEPTH; lia.
  - reflexivity.
  - vm_compute. discriminate.
  - reflexivity.
Defined.

(** ** Scanning from a restored state *)

Lemma same_open_blocks_depth (s s0 : Scanner) (d : Z) :
  same_open_blocks s s0 -> d <= indent_depth s ->
  same_open_blocks (set_depth s d) (set_depth s0 d).
Proof.
  intros (Hp & Hd & Hj) Hle. unfold same_open_blocks. simpl.
  split; [exact Hp|]. split; [reflexivity|].
  intros j Hlt. apply Hj. lia.
Qed.

Lemma pop_levels_same (fuel : nat) :
  forall (s s0 : Scanner) (w c : Z) (s1 : Scanner) (c1 : Z),
    same_open_blocks s s0 ->
    pop_levels fuel s w c = Ok (s1, c1) ->
    exists s01,
      pop_levels fuel s0 w c = Ok (s01, c1) /\
      same_open_blocks s1 s01 /\
      indent_stack s1 = indent_stack s /\
      indent_stack s01 = indent_stack s0.
Proof.
  induction fuel as [|f IH]; intros s s0 w c s1 c1 Hsame H; [discriminate|].
  pose proof Hsame as (Hp & Hd & Hj).
  cbn [pop_levels] in *. rewrite Hd.
  destruct (1 <? indent_depth s) eqn:H1.
  2:{ injection H as <- <-. exists s0. repeat split; assumption. }
  apply Z.ltb_lt in H1. inv_bind H. unfold read_stack in *.
  destruct (in_bounds (indent_depth s - 1)) eqn:Hin; [|discriminate].
  injection Ha as <-. res_simpl.
  unfold in_bounds in Hin. apply andb_true_iff in Hin as [_ Hin].
  apply Z.ltb_lt in Hin. unfold MAX_INDENT_DEPTH in Hin.
  rewrite (Hj (Z.to_nat (indent_depth s - 1))) by lia.
  destruct (w <? _).
  - apply (IH (set_depth s (u16 (indent_depth s - 1)))
              (set_depth s0 (u16 (indent_depth s - 1)))) in H.
    + destruct H as (s01 & E & Hs & St1 & St2).
      exists s01. split; [exact E|]. split; [exact Hs|].
      split; assumption.
    + apply same_open_blocks_depth; [exact Hsame|].
      rewrite u16_small by lia. lia.
  - injection H as <- <-. exists s0. repeat split; assumption.
Qed.

Lemma at_content_same (s s0 : Scanner) (w : Z) (lx : TSLexer)
  (v : ValidSymbols) (e : Exit) (s' : Scanner) (lx' : TSLexer) :
  same_open_blocks s s0 ->
  length (indent_stack s) = Z.to_nat MAX_INDENT_DEPTH ->
  length (indent_stack s0) = Z.to_nat MAX_INDENT_DEPTH ->
  at_content s w lx v = Ok (e, s', lx') ->
  exists s0',
    at_content s0 w lx v = Ok (e, s0', lx') /\
    same_open_blocks s' s0' /\
    length (indent_stack s') = Z.to_nat MAX_INDENT_DEPTH /\
    length (indent_stack s0') = Z.to_nat MAX_INDENT_DEPTH.
Proof.
  intros Hsame Hl Hl0 H. pose proof Hsame as (Hp & Hd & Hj).
  unfold at_content in *. rewrite Hd.
  destruct (is_eof lx).
  { destruct ((1 <? indent_depth s) && v DEDENT) eqn:Hc;
      injection H as <- <- <-.
    - apply andb_true_iff in Hc as [H1 _]. apply Z.ltb_lt in H1.
      eexists. split; [reflexivity|]. split; [|split; assumption].
      apply same_open_blocks_depth; [exact Hsame|].
      unfold u16.
      destruct (Z.lt_ge_cases (indent_depth s - 1) 65536);
        [rewrite Z.mod_small by lia; lia|].
      pose proof (Z.mod_pos_bound (indent_depth s - 1) 65536). lia.
    - exists s0. repeat split; assumption. }
  inv_bind H. unfold read_stack in *.
  destruct (in_bounds (indent_depth s - 1)) eqn:Hin; [|discriminate].
  injection Ha as <-. res_simpl.
  unfold in_bounds in Hin. apply andb_true_iff in Hin as [Hin0 Hin].
  apply Z.leb_le in Hin0. apply Z.ltb_lt in Hin.
  unfold MAX_INDENT_DEPTH in *.
  rewrite (Hj (Z.to_nat (indent_depth s - 1))) by lia.
  destruct ((_ <? w) && v INDENT).
  { inv_bind H. injection H as <- <- <-.
    destruct (indent_depth s <? 100) eqn:Hlt.
    - apply Z.ltb_lt in Hlt. inv_bind Ha. injection Ha as <-.
      unfold write_stack in *. rewrite ?Hd.
      destruct (in_bounds (indent_depth s)); [|discriminate].
      injection Ha0 as <-. res_simpl.
      eexists. split; [reflexivity|]. simpl. rewrite !length_insert.
      split; [|split; assumption].
      unfold same_open_blocks. simpl.
      split; [exact Hp|]. split; [reflexivity|].
      rewrite u16_small by lia. intros j Hjlt.
      destruct (decide (j = Z.to_nat (indent_depth s))) as [->|Hne].
      + rewrite !list_lookup_total_insert_eq by lia. reflexivity.
      + rewrite !list_lookup_total_insert_ne by lia. apply Hj. lia.
    - injection Ha as <-. res_simpl. exists s0. repeat split; assumption. }
  destruct ((w <? _) && v DEDENT).
  2:{ injection H as <- <- <-. exists s0. repeat split; assumption. }
  inv_bind H. destruct a as [s1 c1].
  destruct (pop_levels_same _ _ _ _ _ _ _ Hsame Ha)
    as (s01 & E & (Hp1 & Hd1 & Hj1) & St1 & St2).
  rewrite E. res_simpl.
  destruct (0 <? c1); injection H as <- <- <-.
  - eexists. split; [reflexivity|]. simpl. rewrite St1, St2.
    split; [|split; assumption].
    unfold same_open_blocks. simpl. rewrite Hd1, St1, St2.
    split; [reflexivity|]. split; [reflexivity|].
    intros j Hjlt. rewrite <- St1, <- St2. apply Hj1. exact Hjlt.
  - exists s01. rewrite St1, St2.
    repeat split; try assumption.
Qed.

(** [scan] reads the counters and the entries below the depth, nothing
    else of the state. *)
Lemma scan_same_open_blocks (s s0 : Scanner) (lx : TSLexer)
  (v : ValidSymbols) (r : option TokenType) (s' : Scanner) (lx' : TSLexer) :
  same_open_blocks s s0 ->
  length (indent_stack s) = Z.to_nat MAX_INDENT_DEPTH ->
  length (indent_stack s0) = Z.to_nat MAX_INDENT_DEPTH ->
  scan s lx v = Ok (r, s', lx') ->
  exists s0',
    scan s0 lx v = Ok (r, s0', lx') /\
    same_open_blocks s' s0' /\
    length (indent_stack s') = Z.to_nat MAX_INDENT_DEPTH /\
    length (indent_stack s0') = Z.to_nat MAX_INDENT_DEPTH.
Proof.
  intros Hsame Hl Hl0 H. pose proof Hsame as (Hp & Hd & Hj).
  unfold scan in *. rewrite Hp.
  destruct ((0 <? pending_dedents s) && v DEDENT).
  { injection H as <- <- <-. eexists. split; [reflexivity|].
    split; [|split; assumption].
    unfold same_open_blocks. simpl. repeat split; assumption. }
  inv_bind H. destruct a as [[e s1] lx1].
  assert (Hb : exists s01,
             before_newline s0 lx v = Ok (e, s01, lx1) /\
             same_open_blocks s1 s01 /\
             length (indent_stack s1) = Z.to_nat MAX_INDENT_DEPTH /\
             length (indent_stack s01) = Z.to_nat MAX_INDENT_DEPTH).
  { unfold before_newline, line_start in *.
    destruct (Nat.eqb (get_column lx) 0 && (v INDENT || v DEDENT)).
    - inv_bind Ha. destruct a as [w lx0]. rewrite Ha0. res_simpl.
      eapply at_content_same; eassumption.
    - injection Ha as <- <- <-. exists s0. repeat split; assumption. }
  destruct Hb as (s01 & E & Hs1 & L1 & L01). rewrite E. res_simpl.
  destruct e as [r0|].
  - injection H as <- <- <-. exists s01. repeat split; try assumption;
      apply Hs1.
  - inv_bind H. destruct a as [r1 lx2]. injection H as <- <- <-.
    rewrite Ha0. res_simpl. exists s01.
    repeat split; try assumption; apply Hs1.
Qed.

Lemma deserialize_length (payload : Scanner) (buffer : list byte)
  (s' : Scanner) :
  deserialize payload buffer = Ok s' ->
  length (indent_stack s') = length (indent_stack payload).
Proof.
  unfold deserialize, write_stack. change (in_bounds 0) with true.
  res_simpl. intros H.
  destruct (Z.of_nat (length buffer) =? 0).
  { injection H as <-. simpl. apply length_insert. }
  inv_bind H.
  destruct (Z.of_nat (length buffer) <=? 0 + 1).
  { injection H as <-. simpl. apply length_insert. }
  inv_bind H. apply deserialize_loop_wf in H as (_ & _ & H & _).
  rewrite H.
  destruct (MAX_INDENT_DEPTH <? _); simpl; apply length_insert.
Qed.

Section Resume.

Variable BUFFER_SIZE : Z.
Hypothesis buffer_fits : 2 * MAX_INDENT_DEPTH + 2 <= BUFFER_SIZE.

Lemma roundtrip_same_open_blocks (payload s : Scanner) :
  wf_scanner s ->
  indent_depth s <= MAX_INDENT_DEPTH ->
  pending_dedents s <= 255 ->
  length (indent_stack payload) = Z.to_nat MAX_INDENT_DEPTH ->
  exists buffer s0,
    serialize BUFFER_SIZE s = Ok buffer /\
    deserialize payload buffer = Ok s0 /\
    same_open_blocks s s0.
Proof.
  intros (Hlen & Hall & Hd16 & Hp16) Hd Hp Hpl.
  unfold is_u16, MAX_INDENT_DEPTH in *.
  eexists.
  destruct (deserialize_long payload
              (to_char (pending_dedents s)) (to_char (indent_depth s))
              (encode_entries
                 (map (fun k => indent_stack s !!! k)
                    (seq 0 (Z.to_nat (indent_depth s))))) Hpl)
    as (s0 & Heq & Hp' & Hd' & Hj).
  exists s0.
  split; [apply (serialize_spec BUFFER_SIZE buffer_fits);
          unfold MAX_INDENT_DEPTH; lia|].
  split; [exact Heq|].
  rewrite !of_uchar_to_char in *.
  rewrite Z.mod_small in Hp' by lia.
  rewrite Z.mod_small in Hd' by lia.
  rewrite Z.min_l in Hd' by (unfold MAX_INDENT_DEPTH; lia).
  split; [exact Hp'|]. split; [exact Hd'|].
  intros j Hjd. rewrite Hj, Hd'.
  rewrite length_encode_entries, length_map, length_seq.
  replace (Z.of_nat j <? indent_depth s) with true
    by (symmetry; apply Z.ltb_lt; lia).
  replace (2 * Z.of_nat j + 1 <? Z.of_nat (2 * Z.to_nat (indent_depth s)))
    with true by (symmetry; apply Z.ltb_lt; lia).
  cbn [andb].
  destruct (lookup_encode_entries
              (map (fun k => indent_stack s !!! k)
                 (seq 0 (Z.to_nat (indent_depth s)))) j) as [-> ->].
  { rewrite length_map, length_seq. lia. }
  rewrite (list_lookup_total_fmap (fun k => indent_stack s !!! k)
             (seq 0 (Z.to_nat (indent_depth s))) j)
    by (rewrite length_seq; lia).
  rewrite lookup_total_seq_lt by lia. cbn [Nat.add].
  apply le16_split.
  apply (Forall_lookup_total_1 _ _ j) in Hall; [exact Hall | lia].
Qed.

(** X10.  Scanning goes on from a restored state as from the original: for
    a state within the invariant, the state that [deserialize] (into any
    scanner) makes of the bytes of [serialize] answers every call with the
    same token and the same cursor, and the two states after the call have
    again the same counters and the same entries below the depth. *)
Theorem resume_transparent (payload s : Scanner) :
  scan_inv s ->
  length (indent_stack payload) = Z.to_nat MAX_INDENT_DEPTH ->
  exists buffer s0,
    serialize BUFFER_SIZE s = Ok buffer /\
    deserialize payload buffer = Ok s0 /\
    forall (lx : TSLexer) (v : ValidSymbols) (r : option TokenType)
           (s' : Scanner) (lx' : TSLexer),
      scan s lx v = Ok (r, s', lx') ->
      exists s0',
        scan s0 lx v = Ok (r, s0', lx') /\ same_open_blocks s' s0'.
Proof.
  intros (Hwf & Hd & Hp) Hpl.
  pose proof Hwf as (Hlen & _ & _ & Hp16). unfold is_u16 in Hp16.
  destruct (roundtrip_same_open_blocks payload s Hwf) as
    (buffer & s0 & Hser & Hdes & Hsame);
    [lia | unfold MAX_INDENT_DEPTH in *; lia | exact Hpl |].
  exists buffer, s0. split; [exact Hser|]. split; [exact Hdes|].
  intros lx v r s' lx' H.
  pose proof (deserialize_length _ _ _ Hdes) as Hl0. rewrite Hpl in Hl0.
  destruct (scan_same_open_blocks s s0 lx v r s' lx' Hsame Hlen Hl0 H)
    as (s0' & E & Hs' & _).
  exists s0'. split; assumption.
Qed.

End Resume.

Lemma resume_transparent_witness :
  exists buffer s0,
    serialize 1024 create = Ok buffer /\
    deserialize full_scanner buffer = Ok s0 /\
    forall (lx : TSLexer) (v : ValidSymbols) (r : option TokenType)
           (s' : Scanner) (lx' : TSLexer),
      scan create lx v = Ok (r, s', lx') ->
      exists s0',
        scan s0 lx v = Ok (r, s0', lx') /\ same_open_blocks s' s0'.
Proof.
  apply (resume_transparent 1024).
  - unfold MAX_INDENT_DEPTH; lia.
  - unfold scan_inv, wf_scanner, is_u16, MAX_INDENT_DEPTH.
    split; [|simpl; lia]. split; [reflexivity|].
    split; [|simpl; lia].
    apply (bool_decide_unpack (Forall (fun z => 0 <= z < 65536) _)).
    vm_compute. exact I.
  - reflexivity.
Defined.

(** ** What a token holds *)

Lemma token_skip (lx : TSLexer) : token lx = [] -> token (skip lx) = [].
Proof. destruct lx as [[|c r] col t m]; simpl; [tauto | reflexivity]. Qed.

Lemma count_indent_token (fuel : nat) :
  forall (indent : Z) (lx : TSLexer) (indent' : Z) (lx' : TSLexer),
    count_indent fuel indent lx = Ok (indent', lx') ->
    token lx = [] -> token lx' = [].
Proof.
  induction fuel as [|f IH]; intros indent lx indent' lx' H Ht;
    [discriminate|].
  cbn [count_indent] in H.
  destruct (negb (is_eof lx) &&
            ((lookahead lx =? ch_space) || (lookahead lx =? ch_tab))).
  - eapply IH; [exact H | apply token_skip, Ht].
  - injection H as <- <-. exact Ht.
Qed.

Lemma skip_comment_token (fuel : nat) :
  forall lx lx' : TSLexer,
    skip_comment fuel lx = Ok lx' -> token lx = [] -> token lx' = [].
Proof.
  induction fuel as [|f IH]; intros lx lx' H Ht; [discriminate|].
  cbn [skip_comment] in H.
  destruct (negb (is_eof lx) && negb (lookahead lx =? ch_lf)
            && negb (lookahead lx =? ch_cr)).
  - eapply IH; [exact H | apply token_skip, Ht].
  - injection H as <-. exact Ht.
Qed.

Lemma skip_blanks_token (fuel : nat) :
  forall lx lx' : TSLexer,
    skip_blanks fuel lx = Ok lx' -> token lx = [] -> token lx' = [].
Proof.
  induction fuel as [|f IH]; intros lx lx' H Ht; [discriminate|].
  cbn [skip_blanks] in H.
  destruct ((lookahead lx =? ch_space) || (lookahead lx =? ch_tab)).
  - eapply IH; [exact H | apply token_skip, Ht].
  - injection H as <-. exact Ht.
Qed.

Lemma next_line_token (fuel : nat) :
  forall (lx : TSLexer) (indent : Z) (lx1 : TSLexer),
    next_line fuel lx = Ok (indent, lx1) ->
    token lx = [] -> token lx1 = [].
Proof.
  induction fuel as [|f IH]; intros lx indent lx1 H Ht; [discriminate|].
  rewrite next_line_S in H. inv_bind H. destruct a as [i0 lx0].
  apply count_indent_token in Ha; [|exact Ht].
  destruct (lookahead lx0 =? ch_lf).
  { eapply IH; [exact H | apply token_skip, Ha]. }
  destruct (lookahead lx0 =? ch_cr).
  { cbv zeta in H. eapply IH; [exact H|].
    destruct (lookahead (skip lx0) =? ch_lf); repeat apply token_skip;
      exact Ha. }
  destruct (lookahead lx0 =? ch_hash); [|injection H as <- <-; exact Ha].
  inv_bind H. rename a into lx2.
  apply skip_comment_token in Ha0; [|exact Ha].
  cbv zeta in H. eapply IH; [exact H|].
  destruct ((lookahead lx2 =? ch_lf) || (lookahead lx2 =? ch_cr));
    [|exact Ha0].
  destruct (lookahead (skip lx2) =? ch_lf); repeat apply token_skip;
    exact Ha0.
Qed.

(** X15.  Only a NEWLINE holds characters: a call that starts with an
    empty token and returns INDENT, DEDENT or "no match" leaves the token
    empty; blanks, blank lines and comments it went over were skipped, not
    taken into the token. *)
Theorem structural_tokens_empty (s : Scanner) (lx : TSLexer)
  (v : ValidSymbols) (r : option TokenType) (s' : Scanner) (lx' : TSLexer) :
  token lx = [] ->
  scan s lx v = Ok (r, s', lx') ->
  r <> Some NEWLINE ->
  token lx' = [].
Proof.
  intros Ht H Hr. unfold scan in H.
  destruct ((0 <? pending_dedents s) && v DEDENT).
  { injection H as <- <- <-. exact Ht. }
  inv_bind H. destruct a as [[e s1] lx1].
  assert (Ht1 : token lx1 = []).
  { unfold before_newline, line_start in Ha.
    destruct (Nat.eqb (get_column lx) 0 && (v INDENT || v DEDENT));
      [|injection Ha as <- <- <-; exact Ht].
    inv_bind Ha. destruct a as [w lx0].
    apply next_line_token in Ha0; [|exact Ht].
    apply at_content_cursor in Ha as [(_ & -> & _) | (_ & ->)];
      exact Ha0. }
  destruct e as [r0|].
  - injection H as <- <- <-. exact Ht1.
  - inv_bind H. destruct a as [r1 lx2]. injection H as -> <- <-.
    unfold check_newline in Ha0.
    destruct (v NEWLINE); [|injection Ha0 as <- <-; exact Ht1].
    inv_bind Ha0. apply skip_blanks_token in Ha1; [|exact Ht1].
    destruct (lookahead a =? ch_lf); [injection Ha0 as <- _; congruence|].
    destruct (lookahead a =? ch_cr); [injection Ha0 as <- _; congruence|].
    destruct (is_eof a); injection Ha0 as <- <-; [congruence | exact Ha1].
Qed.

Lemma structural_tokens_empty_witness :
  token (mark_end (mkLexer [120; ch_lf] 3 [] None)) = [].
Proof.
  apply (structural_tokens_empty create
           (text_of ([ch_lf; ch_hash; 120; ch_lf] ++ line 3)) all_valid
           (Some INDENT)
           (mkScanner (<[1%nat := 3]> (indent_stack create)) 2 0)
           (mark_end (mkLexer [120; ch_lf] 3 [] None))).
  - reflexivity.
  - vm_compute. reflexivity.
  - discriminate.
Defined.

(** ** End of input at line start *)

(** X16.  When the line-start analysis runs into the end of input (behind
    any blank and comment lines), the call returns DEDENT and closes one
    level if a level is open and DEDENT is requested, and otherwise returns
    "no match"; it never returns NEWLINE there, even when NEWLINE is
    requested. *)
Theorem eof_at_line_start (s : Scanner) (lx : TSLexer) (v : ValidSymbols)
  (w : Z) (lx1 : TSLexer) :
  is_u16 (indent_depth s) ->
  (0 <? pending_dedents s) && v DEDENT = false ->
  get_column lx = 0%nat ->
  v INDENT || v DEDENT = true ->
  next_line (fuel_of lx) lx = Ok (w, lx1) ->
  is_eof lx1 = true ->
  scan s lx v =
    if (1 <? indent_depth s) && v DEDENT
    then Ok (Some DEDENT,
             mkScanner (indent_stack s) (indent_depth s - 1)
                       (pending_dedents s), lx1)
    else Ok (None, s, lx1).
Proof.
  intros Hu Hp Hc Hv Hn He. unfold is_u16 in Hu.
  unfold scan. rewrite Hp. unfold before_newline. rewrite Hc, Hv.
  cbn [Nat.eqb andb]. unfold line_start. rewrite Hn. res_simpl.
  unfold at_content. rewrite He.
  destruct ((1 <? indent_depth s) && v DEDENT) eqn:Hd; res_simpl;
    [|reflexivity].
  apply andb_true_iff in Hd as [Hd _]. apply Z.ltb_lt in Hd.
  unfold set_depth. rewrite u16_small by lia. reflexivity.
Qed.

Lemma eof_at_line_start_witness :
  scan (mkScanner (<[1%nat := 4]> (indent_stack create)) 2 0)
       (text_of [ch_lf; ch_hash; 120; ch_lf]) all_valid =
    if (1 <? indent_depth (mkScanner (<[1%nat := 4]> (indent_stack create)) 2 0))
       && all_valid DEDENT
    then Ok (Some DEDENT,
             mkScanner (<[1%nat := 4]> (indent_stack create)) (2 - 1) 0,
             mkLexer [] 0 [] None)
    else Ok (None, mkScanner (<[1%nat := 4]> (indent_stack create)) 2 0,
             mkLexer [] 0 [] None).
Proof.
  apply (eof_at_line_start
           (mkScanner (<[1%nat := 4]> (indent_stack create)) 2 0)
           (text_of [ch_lf; ch_hash; 120; ch_lf]) all_valid 0
           (mkLexer [] 0 [] None)).
  - unfold is_u16; simpl; lia.
  - reflexivity.
  - reflexivity.
  - reflexivity.
  - vm_compute. reflexivity.
  - reflexivity.
Defined.

(** ** Runs over lines of content *)

Lemma width_of_cons (c : Z) (blanks : list Z) :
  is_blank c ->
  width_of (c :: blanks) = (if c =? ch_space then 1 else 4) + width_of blanks.
Proof. intros Hc. unfold width_of. apply raw_width_cons. exact Hc. Qed.

Lemma width_of_nonneg (blanks : list Z) : 0 <= width_of blanks.
Proof. unfold width_of. lia. Qed.

Lemma width_of_zero (blanks : list Z) :
  Forall is_blank blanks -> width_of blanks = 0 -> blanks = [].
Proof.
  intros Hb Hw. destruct blanks as [|c bl]; [reflexivity|].
  apply Forall_cons in Hb as [Hc _].
  rewrite width_of_cons in Hw by exact Hc.
  pose proof (width_of_nonneg bl). destruct (c =? ch_space); lia.
Qed.

Lemma width_of_pos (blanks : list Z) :
  0 < width_of blanks -> length blanks <> 0%nat.
Proof. intros Hw ->%length_zero_iff_nil. unfold width_of in Hw. simpl in Hw. lia. Qed.

(** A text is a run of blanks and then nothing or a character that is no
    blank. *)
Lemma split_blanks (l : list Z) :
  exists bl r,
    l = bl ++ r /\ Forall is_blank bl /\
    match r with [] => True | c :: _ => ~ is_blank c end.
Proof.
  induction l as [|c l (bl & r & -> & Hb & Hr)].
  - exists [], []. repeat split. constructor.
  - destruct (Z.eq_dec c ch_space) as [Hs | Hs].
    { exists (c :: bl), r. repeat split; [|exact Hr].
      constructor; [left; exact Hs | exact Hb]. }
    destruct (Z.eq_dec c ch_tab) as [Ht | Ht].
    { exists (c :: bl), r. repeat split; [|exact Hr].
      constructor; [right; exact Ht | exact Hb]. }
    exists [], (c :: bl ++ r). repeat split; [constructor|].
    unfold is_blank. tauto.
Qed.

Lemma skip_blanks_run (blanks : list Z) :
  forall (fuel : nat) (rest0 : list Z) (col : nat) (tok : list Z)
         (m : option (list Z * nat * list Z)),
    Forall is_blank blanks ->
    match rest0 with [] => True | c :: _ => ~ is_blank c end ->
    (length blanks < fuel)%nat ->
    skip_blanks fuel (mkLexer (blanks ++ rest0) col tok m) =
      Ok (mkLexer rest0 (col + length blanks)
                  (match blanks with [] => tok | _ :: _ => [] end) m).
Proof.
  induction blanks as [|c bl IH]; intros fuel rest0 col tok m Hb Hr Hf.
  - destruct fuel as [|f]; [simpl in Hf; lia|].
    cbn [skip_blanks app].
    replace (col + length (@nil Z))%nat with col by (simpl; lia).
    destruct rest0 as [|c0 r0]; [reflexivity|].
    unfold lookahead; cbn [rest].
    replace ((c0 =? ch_space) || (c0 =? ch_tab)) with false; [reflexivity|].
    symmetry. apply orb_false_iff. unfold is_blank in Hr.
    split; apply Z.eqb_neq; tauto.
  - destruct fuel as [|f]; [simpl in Hf; lia|].
    apply Forall_cons in Hb as [Hc Hbl].
    cbn [skip_blanks app]. unfold lookahead; cbn [rest].
    replace ((c =? ch_space) || (c =? ch_tab)) with true
      by (symmetry; apply orb_true_iff; destruct Hc as [-> | ->];
          [left | right]; reflexivity).
    unfold skip; cbn [rest column marked].
    assert (Hnl : next_column c col = S col).
    { unfold next_column. destruct Hc as [-> | ->]; reflexivity. }
    rewrite Hnl, IH; [|exact Hbl|exact Hr|simpl in Hf; lia].
    f_equal. f_equal; [simpl; lia | destruct bl; reflexivity].
Qed.

(** Inside a line, with nothing owed, a call only looks for a NEWLINE. *)
Lemma scan_inside_line (s : Scanner) (l : list Z) (col : nat) :
  (0 <? pending_dedents s) = false -> col <> 0%nat ->
  scan s (lexer_at l col) all_valid =
    ('(r, lx') ← check_newline (lexer_at l col) all_valid; Ok (r, s, lx')).
Proof.
  intros Hp Hc. unfold scan. rewrite Hp. cbn [andb].
  unfold before_newline, get_column, lexer_at; cbn [column].
  destruct col; [congruence|]. reflexivity.
Qed.

Lemma check_newline_blanks (bl rest0 : list Z) (col : nat) :
  Forall is_blank bl ->
  match rest0 with [] => True | c :: _ => ~ is_blank c end ->
  check_newline (lexer_at (bl ++ rest0) col) all_valid =
    (let lx := mkLexer rest0 (col + length bl) [] None in
     if lookahead lx =? ch_lf then
       let lx := advance lx in
       let lx := if lookahead lx =? ch_cr then advance lx else lx in
       Ok (Some NEWLINE, lx)
     else if lookahead lx =? ch_cr then
       let lx := advance lx in
       let lx := if lookahead lx =? ch_lf then advance lx else lx in
       Ok (Some NEWLINE, lx)
     else if is_eof lx then Ok (Some NEWLINE, lx)
     else Ok (None, lx)).
Proof.
  intros Hb Hr. unfold check_newline. cbn [all_valid].
  unfold fuel_of, lexer_at; cbn [rest].
  rewrite skip_blanks_run; [|exact Hb|exact Hr|rewrite length_app; lia].
  res_simpl. destruct bl; reflexivity.
Qed.

Lemma check_newline_term (bl term rest0 : list Z) (col : nat) :
  Forall is_blank bl ->
  line_end term ->
  match rest0 with [] => True | c :: _ => c <> ch_cr end ->
  exists lx',
    check_newline (lexer_at (bl ++ term ++ rest0) col) all_valid
      = Ok (Some NEWLINE, lx') /\
    token_end lx' = lexer_at rest0 0.
Proof.
  intros Hb [-> | ->] Hr.
  - rewrite check_newline_blanks; [|exact Hb|exact not_blank_lf].
    cbv zeta. cbn [app]. rewrite lookahead_cons_mk.
    change (ch_lf =? ch_lf) with true. cbv iota.
    unfold advance at 1 2; cbn [rest column token marked].
    destruct rest0 as [|c r].
    + eexists. split; reflexivity.
    + rewrite lookahead_cons_mk.
      replace (c =? ch_cr) with false
        by (symmetry; apply Z.eqb_neq; exact Hr).
      eexists. split; reflexivity.
  - rewrite check_newline_blanks; [|exact Hb|exact not_blank_cr].
    cbv zeta. cbn [app]. rewrite lookahead_cons_mk.
    change (ch_cr =? ch_lf) with false. change (ch_cr =? ch_cr) with true.
    cbv iota. eexists. split; reflexivity.
Qed.

Lemma check_newline_end (bl : list Z) (col : nat) :
  Forall is_blank bl ->
  exists lx',
    check_newline (lexer_at bl col) all_valid = Ok (Some NEWLINE, lx') /\
    token_end lx' = lexer_at [] (col + length bl).
Proof.
  intros Hb. pose proof (check_newline_blanks bl [] col Hb I) as H.
  rewrite app_nil_r in H. rewrite H.
  eexists. split; reflexivity.
Qed.

Lemma check_newline_other (bl : list Z) (c : Z) (tl : list Z) (col : nat) :
  Forall is_blank bl ->
  ~ is_blank c -> c <> ch_lf -> c <> ch_cr ->
  exists lx',
    check_newline (lexer_at (bl ++ c :: tl) col) all_valid = Ok (None, lx').
Proof.
  intros Hb Hc Hlf Hcr.
  rewrite check_newline_blanks; [|exact Hb|exact Hc].
  cbv zeta. rewrite lookahead_cons_mk.
  replace (c =? ch_lf) with false by (symmetry; apply Z.eqb_neq; exact Hlf).
  replace (c =? ch_cr) with false by (symmetry; apply Z.eqb_neq; exact Hcr).
  eexists. reflexivity.
Qed.

(** One round of a run. *)
Lemma drive_token_step (f : nat) (s : Scanner) (lx : TSLexer)
  (t : TokenType) (s' : Scanner) (lx' : TSLexer) :
  is_eof lx && (indent_depth s =? 1) = false ->
  scan s (start_token lx) all_valid = Ok (Some t, s', lx') ->
  drive (S f) s lx = (tr ← drive f s' (token_end lx'); Ok ((s, t) :: tr)).
Proof. intros He H. cbn [drive]. rewrite He, H. reflexivity. Qed.

Lemma drive_none_step (f : nat) (s : Scanner) (lx : TSLexer)
  (s' : Scanner) (lx' : TSLexer) :
  is_eof lx && (indent_depth s =? 1) = false ->
  scan s (start_token lx) all_valid = Ok (None, s', lx') ->
  drive (S f) s lx = drive f s' (content_step lx).
Proof. intros He H. cbn [drive]. rewrite He, H. reflexivity. Qed.

(** The rest of a content line, from a position inside the line: the
    characters are left to the grammar one by one, and the terminator (with
    the blanks before it) comes back as NEWLINE. *)
Lemma drive_body (body : list Z) :
  forall (s : Scanner) (col f : nat) (term rest0 : list Z)
         (tr : list Emission),
    (0 <? pending_dedents s) = false ->
    col <> 0%nat ->
    Forall (fun d => d <> ch_lf /\ d <> ch_cr) body ->
    line_end term ->
    match rest0 with [] => True | c :: _ => c <> ch_cr end ->
    drive f s (lexer_at rest0 0) = Ok tr ->
    drive (S (length body + f)) s (lexer_at (body ++ term ++ rest0) col)
      = Ok ((s, NEWLINE) :: tr).
Proof.
  induction body as [|d body IH];
    intros s col f term rest0 tr Hp Hcol Hbody Hterm Hrest Hd.
  - cbn [app length Nat.add].
    destruct (check_newline_term [] term rest0 col) as (lx' & Hc & Hte);
      [constructor | exact Hterm | exact Hrest |].
    cbn [app] in Hc.
    rewrite (drive_token_step f s _ NEWLINE s lx').
    + rewrite Hte, Hd. reflexivity.
    + destruct Hterm as [-> | ->]; reflexivity.
    + change (start_token (lexer_at (term ++ rest0) col))
        with (lexer_at (term ++ rest0) col).
      rewrite scan_inside_line by assumption. rewrite Hc. reflexivity.
  - destruct (split_blanks (d :: body)) as (bl & r & Hsplit & Hbl & Hr).
    assert (He : is_eof (lexer_at ((d :: body) ++ term ++ rest0) col)
                 && (indent_depth s =? 1) = false) by reflexivity.
    change (start_token (lexer_at ((d :: body) ++ term ++ rest0) col))
      with (lexer_at ((d :: body) ++ term ++ rest0) col) in *.
    destruct r as [|e r].
    + rewrite app_nil_r in Hsplit.
      destruct (check_newline_term bl term rest0 col) as (lx' & Hc & Hte);
        [exact Hbl | exact Hterm | exact Hrest |].
      rewrite <- Hsplit in Hc.
      rewrite (drive_token_step _ s _ NEWLINE s lx' He).
      * rewrite Hte.
        rewrite (drive_fuel_mono f (length (d :: body) + f) _ _ _ Hd)
          by lia.
        reflexivity.
      * change (start_token (lexer_at ((d :: body) ++ term ++ rest0) col))
          with (lexer_at ((d :: body) ++ term ++ rest0) col).
        rewrite scan_inside_line by assumption. rewrite Hc. reflexivity.
    + assert (Hin : In e (d :: body)).
      { rewrite Hsplit. apply in_or_app. right. left. reflexivity. }
      rewrite Forall_forall in Hbody.
      destruct (Hbody e) as [Helf Hecr].
      { apply list_elem_of_In. exact Hin. }
      destruct (check_newline_other bl e (r ++ term ++ rest0) col)
        as (lx' & Hc); [exact Hbl | exact Hr | exact Helf | exact Hecr |].
      replace (bl ++ e :: r ++ term ++ rest0)
        with ((d :: body) ++ term ++ rest0) in Hc
        by (rewrite Hsplit, <- app_assoc; reflexivity).
      rewrite (drive_none_step _ s _ s lx' He).
      2:{ change (start_token (lexer_at ((d :: body) ++ term ++ rest0) col))
            with (lexer_at ((d :: body) ++ term ++ rest0) col).
          rewrite scan_inside_line by assumption. rewrite Hc. reflexivity. }
      destruct (Hbody d) as [Hdlf _]; [left|].
      assert (Hstep : content_step (lexer_at ((d :: body) ++ term ++ rest0) col)
                      = lexer_at (body ++ term ++ rest0) (S col)).
      { unfold content_step, start_token, advance, token_end, lexer_at.
        cbn [rest column token marked app]. unfold next_column.
        replace (d =? ch_lf) with false
          by (symmetry; apply Z.eqb_neq; exact Hdlf).
        reflexivity. }
      rewrite Hstep. cbn [length Nat.add].
      apply IH; try assumption; [lia|].
      rewrite Forall_forall. intros x Hx. apply Hbody. right. exact Hx.
Qed.

(** The rest of a last line that no terminator ends, at depth 1: the run
    ends behind it. *)
Lemma drive_body_end (body : list Z) :
  forall (s : Scanner) (col : nat),
    (0 <? pending_dedents s) = false ->
    indent_depth s = 1 ->
    col <> 0%nat ->
    Forall (fun d => d <> ch_lf /\ d <> ch_cr) body ->
    exists tr,
      drive (S (S (length body))) s (lexer_at body col) = Ok tr /\
      structural (tokens_of tr) = [].
Proof.
  induction body as [|d body IH]; intros s col Hp Hdepth Hcol Hbody.
  - exists []. split; [|reflexivity].
    cbn [drive length]. unfold is_eof, lexer_at; cbn [rest].
    rewrite Hdepth. reflexivity.
  - destruct (split_blanks (d :: body)) as (bl & r & Hsplit & Hbl & Hr).
    assert (He : is_eof (lexer_at (d :: body) col)
                 && (indent_depth s =? 1) = false) by reflexivity.
    destruct r as [|e r].
    + rewrite app_nil_r in Hsplit.
      destruct (check_newline_end bl col Hbl) as (lx' & Hc & Hte).
      rewrite <- Hsplit in Hc.
      exists [(s, NEWLINE)]. split; [|reflexivity].
      rewrite (drive_token_step _ s _ NEWLINE s lx' He).
      * rewrite Hte. cbn [drive length].
        unfold is_eof, lexer_at; cbn [rest]. rewrite Hdepth. reflexivity.
      * change (start_token (lexer_at (d :: body) col))
          with (lexer_at (d :: body) col).
        rewrite scan_inside_line by assumption. rewrite Hc. reflexivity.
    + assert (Hin : In e (d :: body)).
      { rewrite Hsplit. apply in_or_app. right. left. reflexivity. }
      rewrite Forall_forall in Hbody.
      destruct (Hbody e) as [Helf Hecr].
      { apply list_elem_of_In. exact Hin. }
      destruct (check_newline_other bl e r col)
        as (lx' & Hc); [exact Hbl | exact Hr | exact Helf | exact Hecr |].
      rewrite <- Hsplit in Hc.
      rewrite (drive_none_step _ s _ s lx' He).
      2:{ change (start_token (lexer_at (d :: body) col))
            with (lexer_at (d :: body) col).
          rewrite scan_inside_line by assumption. rewrite Hc. reflexivity. }
      destruct (Hbody d) as [Hdlf _]; [left|].
      assert (Hstep : content_step (lexer_at (d :: body) col)
                      = lexer_at body (S col)).
      { unfold content_step, start_token, advance, token_end, lexer_at.
        cbn [rest column token marked]. unfold next_column.
        replace (d =? ch_lf) with false
          by (symmetry; apply Z.eqb_neq; exact Hdlf).
        reflexivity. }
      rewrite Hstep. cbn [length].
      apply IH; try assumption; [lia|].
      rewrite Forall_forall. intros x Hx. apply Hbody. right. exact Hx.
Qed.

(** A call at the start of a content line: the blanks are measured and the
    decision is taken before the first character of the content. *)
Lemma scan_line_start (s : Scanner) (blanks : list Z) (c : Z) (tl : list Z) :
  (0 <? pending_dedents s) = false ->
  Forall is_blank blanks ->
  ~ is_blank c -> c <> ch_lf -> c <> ch_cr -> c <> ch_hash ->
  scan s (lexer_at (blanks ++ c :: tl) 0) all_valid =
    ('(e, s', lx') ← at_content s (u16 (width_of blanks))
                        (mkLexer (c :: tl) (length blanks) [] None) all_valid;
     match e with
     | Return r => Ok (r, s', lx')
     | Break => '(r, lx'') ← check_newline lx' all_valid; Ok (r, s', lx'')
     end).
Proof.
  intros Hp Hb Hc Hlf Hcr Hh. unfold scan. rewrite Hp. cbn [andb].
  unfold before_newline, get_column, line_start.
  unfold lexer_at at 1; cbn [column Nat.eqb all_valid orb andb].
  unfold fuel_of, lexer_at; cbn [rest]. rewrite next_line_S.
  unfold fuel_of; cbn [rest].
  rewrite count_indent_blanks;
    [|exact Hb|exact Hc|unfold is_u16; lia|lia].
  res_simpl. rewrite !lookahead_cons_mk.
  replace (c =? ch_lf) with false by (symmetry; apply Z.eqb_neq; exact Hlf).
  replace (c =? ch_cr) with false by (symmetry; apply Z.eqb_neq; exact Hcr).
  replace (c =? ch_hash) with false by (symmetry; apply Z.eqb_neq; exact Hh).
  res_simpl. destruct blanks; reflexivity.
Qed.

Lemma drive_head_token (f : nat) (s s' : Scanner) (t : TokenType)
  (blanks : list Z) (c : Z) (tl : list Z) :
  (0 <? pending_dedents s) = false ->
  Forall is_blank blanks ->
  ~ is_blank c -> c <> ch_lf -> c <> ch_cr -> c <> ch_hash ->
  (forall lx1, is_eof lx1 = false ->
     at_content s (u16 (width_of blanks)) lx1 all_valid
       = Ok (Return (Some t), s', mark_end lx1)) ->
  drive (S f) s (lexer_at (blanks ++ c :: tl) 0)
    = (tr ← drive f s' (lexer_at (c :: tl) (length blanks));
       Ok ((s, t) :: tr)).
Proof.
  intros Hp Hb Hc Hlf Hcr Hh Hat.
  rewrite (drive_token_step f s _ t s'
             (mark_end (mkLexer (c :: tl) (length blanks) [] None))).
  - reflexivity.
  - destruct blanks; reflexivity.
  - change (start_token (lexer_at (blanks ++ c :: tl) 0))
      with (lexer_at (blanks ++ c :: tl) 0).
    rewrite scan_line_start by assumption.
    rewrite Hat by reflexivity. reflexivity.
Qed.

Lemma drive_head_none (f : nat) (s : Scanner) (c : Z) (tl : list Z) :
  (0 <? pending_dedents s) = false ->
  ~ is_blank c -> c <> ch_lf -> c <> ch_cr -> c <> ch_hash ->
  (forall lx1, is_eof lx1 = false ->
     at_content s 0 lx1 all_valid = Ok (Break, s, mark_end lx1)) ->
  drive (S f) s (lexer_at (c :: tl) 0) = drive f s (lexer_at tl 1).
Proof.
  intros Hp Hc Hlf Hcr Hh Hat.
  rewrite (drive_none_step f s _ s
             (mark_end (mkLexer (c :: tl) 0 [] None))).
  - unfold content_step, start_token, advance, token_end, lexer_at.
    cbn [rest column token marked]. unfold next_column.
    replace (c =? ch_lf) with false by (symmetry; apply Z.eqb_neq; exact Hlf).
    reflexivity.
  - reflexivity.
  - change (start_token (lexer_at (c :: tl) 0))
      with (lexer_at ([] ++ c :: tl) 0).
    rewrite scan_line_start; [|assumption|constructor|assumption..].
    change (u16 (width_of [])) with 0. cbn [length].
    rewrite Hat by reflexivity. res_simpl.
    rewrite check_newline_content_same; [reflexivity|reflexivity|..];
      unfold mark_end, lookahead; cbn [rest]; apply Z.eqb_neq;
      unfold is_blank in Hc; tauto.
Qed.

(** A content line at which the call returns a token: the token, then the
    NEWLINE of the line. *)
Lemma drive_line_token (f : nat) (s s' : Scanner) (t : TokenType)
  (blanks : list Z) (c : Z) (body term rest0 : list Z)
  (tr : list Emission) :
  (0 <? pending_dedents s) = false ->
  (0 <? pending_dedents s') = false ->
  Forall is_blank blanks -> 0 < width_of blanks ->
  ~ is_blank c -> c <> ch_lf -> c <> ch_cr -> c <> ch_hash ->
  Forall (fun d => d <> ch_lf /\ d <> ch_cr) body ->
  line_end term ->
  match rest0 with [] => True | c :: _ => c <> ch_cr end ->
  (forall lx1, is_eof lx1 = false ->
     at_content s (u16 (width_of blanks)) lx1 all_valid
       = Ok (Return (Some t), s', mark_end lx1)) ->
  drive f s' (lexer_at rest0 0) = Ok tr ->
  drive (S (S (S (length body + f)))) s
        (lexer_at (blanks ++ c :: body ++ term ++ rest0) 0)
    = Ok ((s, t) :: (s', NEWLINE) :: tr).
Proof.
  intros Hp Hp' Hb Hw Hc Hlf Hcr Hh Hbody Hterm Hrest Hat Hd.
  rewrite (drive_head_token _ s s' t) by assumption.
  change (c :: body ++ term ++ rest0) with ((c :: body) ++ term ++ rest0).
  change (S (S (length body + f))) with (S (length (c :: body) + f)).
  rewrite (drive_body (c :: body) s' (length blanks) f term rest0 tr);
    try assumption.
  - reflexivity.
  - apply width_of_pos. exact Hw.
  - constructor; [split; assumption | exact Hbody].
Qed.

(** A content line of the width of the open block: only its NEWLINE. *)
Lemma drive_line_none (f : nat) (s : Scanner) (c : Z)
  (body term rest0 : list Z) (tr : list Emission) :
  (0 <? pending_dedents s) = false ->
  ~ is_blank c -> c <> ch_lf -> c <> ch_cr -> c <> ch_hash ->
  Forall (fun d => d <> ch_lf /\ d <> ch_cr) body ->
  line_end term ->
  match rest0 with [] => True | c :: _ => c <> ch_cr end ->
  (forall lx1, is_eof lx1 = false ->
     at_content s 0 lx1 all_valid = Ok (Break, s, mark_end lx1)) ->
  drive f s (lexer_at rest0 0) = Ok tr ->
  drive (S (S (length body + f))) s (lexer_at (c :: body ++ term ++ rest0) 0)
    = Ok ((s, NEWLINE) :: tr).
Proof.
  intros Hp Hc Hlf Hcr Hh Hbody Hterm Hrest Hat Hd.
  rewrite (drive_head_none _ s) by assumption.
  apply drive_body; try assumption. lia.
Qed.

(** The decisions on lines of the widths 0, 4, 8, 4, 0. *)
Lemma decisions_0_4_8_4_0 (lx1 : TSLexer) :
  is_eof lx1 = false ->
  at_content create 0 lx1 all_valid = Ok (Break, create, mark_end lx1) /\
  at_content create 4 lx1 all_valid
    = Ok (Return (Some INDENT), open_4, mark_end lx1) /\
  at_content open_4 8 lx1 all_valid
    = Ok (Return (Some INDENT), open_4_8, mark_end lx1) /\
  at_content open_4_8 4 lx1 all_valid
    = Ok (Return (Some DEDENT), closed_8, mark_end lx1) /\
  at_content closed_8 0 lx1 all_valid
    = Ok (Return (Some DEDENT), closed_4_8, mark_end lx1) /\
  at_content closed_4_8 0 lx1 all_valid
    = Ok (Break, closed_4_8, mark_end lx1).
Proof.
  intros He. unfold at_content. rewrite He.
  split; [reflexivity|]. split; [reflexivity|]. split; [reflexivity|].
  split; [reflexivity|]. split; reflexivity.
Qed.

(** The last line, of width 0 with the block of width 4 still open: the
    DEDENT, then the line to the end of the text. *)
Lemma drive_last_line (c : Z) (body term : list Z) :
  ~ is_blank c -> c <> ch_lf -> c <> ch_cr -> c <> ch_hash ->
  Forall (fun d => d <> ch_lf /\ d <> ch_cr) body ->
  line_end term \/ term = [] ->
  exists tr,
    drive (S (S (S (S (length body))))) closed_8
          (lexer_at (c :: body ++ term) 0)
      = Ok ((closed_8, DEDENT) :: tr) /\
    structural (tokens_of tr) = [].
Proof.
  intros Hc Hlf Hcr Hh Hbody Hterm.
  assert (Htail : exists tr,
             drive (S (S (length body))) closed_4_8
                   (lexer_at (body ++ term) 1) = Ok tr /\
             structural (tokens_of tr) = []).
  { destruct Hterm as [Hterm | ->].
    - exists [(closed_4_8, NEWLINE)]. split; [|reflexivity].
      replace (S (S (length body))) with (S (length body + 1)) by lia.
      rewrite <- (app_nil_r term).
      apply drive_body; try assumption; [reflexivity | lia | exact I |].
      reflexivity.
    - rewrite app_nil_r.
      apply drive_body_end; try assumption; [reflexivity..| lia]. }
  destruct Htail as (tr & Htr & Hst).
  exists tr. split; [|exact Hst].
  change (lexer_at (c :: body ++ term) 0)
    with (lexer_at ([] ++ c :: body ++ term) 0).
  rewrite (drive_head_token _ closed_8 closed_4_8 DEDENT);
    [|reflexivity|constructor|assumption..|].
  2:{ intros lx1 He. apply (decisions_0_4_8_4_0 lx1 He). }
  cbn [length].
  rewrite (drive_head_none _ closed_4_8); [|reflexivity|assumption..|].
  2:{ intros lx1 He. apply (decisions_0_4_8_4_0 lx1 He). }
  rewrite Htr. reflexivity.
Qed.

(** C6.  Every document of five content lines whose leading blanks (spaces
    and tabs in any mixture) have the widths 0, 4, 8, 4, 0, each line ended
    by LF or CR LF and the last one by LF, CR LF or the end of the text,
    gives, on a run from the fresh state with every kind requested and
    with enough fuel (the length of the document and 3 more), NEWLINE left
    out, the tokens INDENT, INDENT, DEDENT, DEDENT.  The content of a line
    is any text without LF and CR whose first character is no blank and
    not [#], which would make the line a comment. *)
Theorem structural_stream_0_4_8_4_0
  (l0 l1 l2 l3 l4 t0 t1 t2 t3 t4 : list Z) (fuel : nat) :
  content_line 0 t0 l0 -> content_line 4 t1 l1 -> content_line 8 t2 l2 ->
  content_line 4 t3 l3 -> content_line 0 t4 l4 ->
  line_end t0 -> line_end t1 -> line_end t2 -> line_end t3 ->
  line_end t4 \/ t4 = [] ->
  (length (l0 ++ l1 ++ l2 ++ l3 ++ l4) + 3 <= fuel)%nat ->
  structural_run fuel (l0 ++ l1 ++ l2 ++ l3 ++ l4)
    = Ok [INDENT; INDENT; DEDENT; DEDENT].
Proof.
  intros H0 H1 H2 H3 H4 E0 E1 E2 E3 E4 Hfuel.
  destruct H0 as [b0 c0 y0 B0 W0 C0 Clf0 Ccr0 Ch0 Y0].
  destruct H1 as [b1 c1 y1 B1 W1 C1 Clf1 Ccr1 Ch1 Y1].
  destruct H2 as [b2 c2 y2 B2 W2 C2 Clf2 Ccr2 Ch2 Y2].
  destruct H3 as [b3 c3 y3 B3 W3 C3 Clf3 Ccr3 Ch3 Y3].
  destruct H4 as [b4 c4 y4 B4 W4 C4 Clf4 Ccr4 Ch4 Y4].
  apply width_of_zero in W0 as ->; [|exact B0].
  apply width_of_zero in W4 as ->; [|exact B4].
  cbn [app] in *.
  destruct (drive_last_line c4 y4 t4 C4 Clf4 Ccr4 Ch4 Y4 E4)
    as (tr4 & D4 & S4).
  assert (Hb1 : length b1 <> 0%nat) by (apply width_of_pos; rewrite W1; reflexivity).
  assert (Hb2 : length b2 <> 0%nat) by (apply width_of_pos; rewrite W2; reflexivity).
  assert (Hb3 : length b3 <> 0%nat) by (apply width_of_pos; rewrite W3; reflexivity).
  assert (Hnb : forall (b : list Z) (c : Z) (tl : list Z),
             Forall is_blank b -> c <> ch_cr ->
             match b ++ c :: tl with [] => True | d :: _ => d <> ch_cr end).
  { intros b c tl Hb Hc. destruct b as [|d b]; [exact Hc|].
    apply Forall_cons in Hb as [[-> | ->] _]; discriminate. }
  pose proof (drive_line_token _ open_4_8 closed_8 DEDENT
                b3 c3 y3 t3 (c4 :: y4 ++ t4) _
                eq_refl eq_refl B3 ltac:(rewrite W3; reflexivity) C3 Clf3 Ccr3 Ch3 Y3 E3 Ccr4
                ltac:(rewrite W3; intros lx1 He;
                      apply (decisions_0_4_8_4_0 lx1 He))
                D4) as D3.
  pose proof (drive_line_token _ open_4 open_4_8 INDENT
                b2 c2 y2 t2 (b3 ++ c3 :: y3 ++ t3 ++ c4 :: y4 ++ t4) _
                eq_refl eq_refl B2 ltac:(rewrite W2; reflexivity) C2 Clf2 Ccr2 Ch2 Y2 E2
                (Hnb b3 c3 _ B3 Ccr3)
                ltac:(rewrite W2; intros lx1 He;
                      apply (decisions_0_4_8_4_0 lx1 He))
                D3) as D2.
  pose proof (drive_line_token _ create open_4 INDENT
                b1 c1 y1 t1
                (b2 ++ c2 :: y2 ++ t2
                 ++ b3 ++ c3 :: y3 ++ t3 ++ c4 :: y4 ++ t4) _
                eq_refl eq_refl B1 ltac:(rewrite W1; reflexivity) C1 Clf1 Ccr1 Ch1 Y1 E1
                (Hnb b2 c2 _ B2 Ccr2)
                ltac:(rewrite W1; intros lx1 He;
                      apply (decisions_0_4_8_4_0 lx1 He))
                D2) as D1.
  pose proof (drive_line_none _ create c0 y0 t0
                (b1 ++ c1 :: y1 ++ t1
                 ++ b2 ++ c2 :: y2 ++ t2
                 ++ b3 ++ c3 :: y3 ++ t3 ++ c4 :: y4 ++ t4) _
                eq_refl C0 Clf0 Ccr0 Ch0 Y0 E0
                (Hnb b1 c1 _ B1 Ccr1)
                ltac:(intros lx1 He; apply (decisions_0_4_8_4_0 lx1 He))
                D1) as D0.
  clear D1 D2 D3 D4.
  unfold structural_run, run, text_of.
  repeat first [rewrite <- app_assoc | progress cbn [app]].
  rewrite (drive_fuel_mono _ fuel _ _ _ D0).
  - res_simpl. unfold structural in *. unfold tokens_of in *.
    cbn [map snd]. rewrite !filter_cons. cbn [is_newline].
    repeat (destruct (decide _) as [Hx | Hx];
            [try discriminate Hx | try (exfalso; apply Hx; reflexivity)]).
    rewrite S4. reflexivity.
  - assert (L0 : (1 <= length t0)%nat)
      by (destruct E0 as [-> | ->]; simpl; lia).
    assert (L1 : (1 <= length t1)%nat)
      by (destruct E1 as [-> | ->]; simpl; lia).
    assert (L2 : (1 <= length t2)%nat)
      by (destruct E2 as [-> | ->]; simpl; lia).
    assert (L3 : (1 <= length t3)%nat)
      by (destruct E3 as [-> | ->]; simpl; lia).
    clear - Hfuel L0 L1 L2 L3 Hb1 Hb2 Hb3.
    repeat (rewrite ?length_app in Hfuel; cbn [length] in Hfuel).
    lia.
Qed.

Lemma structural_stream_0_4_8_4_0_witness :
  structural_run 64
    ([120; 61; 49; 13; 10] ++ [9; 121; 32; 10]
     ++ [9; 32; 32; 32; 32; 122; 10] ++ [32; 32; 32; 32; 119; 35; 10]
     ++ [118])
    = Ok [INDENT; INDENT; DEDENT; DEDENT].
Proof.
  apply (structural_stream_0_4_8_4_0
           [120; 61; 49; 13; 10] [9; 121; 32; 10]
           [9; 32; 32; 32; 32; 122; 10] [32; 32; 32; 32; 119; 35; 10]
           [118]
           [13; 10] [10] [10] [10] [] 64).
  - apply (content_line_intro 0 [13; 10] [] 120 [61; 49]);
      [constructor | reflexivity | intros [H | H]; discriminate H
      | discriminate | discriminate | discriminate
      | repeat (constructor; [split; discriminate|]); constructor].
  - apply (content_line_intro 4 [10] [9] 121 [32]);
      [repeat (constructor; [first [left; reflexivity | right; reflexivity]|]);
       constructor
      | reflexivity | intros [H | H]; discriminate H
      | discriminate | discriminate | discriminate
      | repeat (constructor; [split; discriminate|]); constructor].
  - apply (content_line_intro 8 [10] [9; 32; 32; 32; 32] 122 []);
      [repeat (constructor; [first [left; reflexivity | right; reflexivity]|]);
       constructor
      | reflexivity | intros [H | H]; discriminate H
      | discriminate | discriminate | discriminate
      | constructor].
  - apply (content_line_intro 4 [10] [32; 32; 32; 32] 119 [35]);
      [repeat (constructor; [first [left; reflexivity | right; reflexivity]|]);
       constructor
      | reflexivity | intros [H | H]; discriminate H
      | discriminate | discriminate | discriminate
      | repeat (constructor; [split; discriminate|]); constructor].
  - apply (content_line_intro 0 [] [] 118 []);
      [constructor | reflexivity | intros [H | H]; discriminate H
      | discriminate | discriminate | discriminate
      | constructor].
  - right; reflexivity.
  - left; reflexivity.
  - left; reflexivity.
  - left; reflexivity.
  - right; reflexivity.
  - simpl; lia.
Defined.

(** Where a lone CR stands between the lines the column of the cursor does
    not restart, no call is at a line start, and the run over the same
    widths returns NEWLINE tokens only. *)
Lemma lone_cr_starts_no_line :
  structural_run 64
    ([120; 13] ++ replicate 4 32 ++ [120; 13] ++ replicate 8 32 ++ [120; 13]
     ++ replicate 4 32 ++ [120; 13] ++ [120; 13])
    = Ok [].
Proof. vm_compute. reflexivity. Qed.
